(** * Aptgrameen: the credit-triggered hedge engine

    A shallow embedding of the TypeScript services that make up the hedge
    engine of the lending front end, the properties of them that the
    design document states, and further properties that the code has:
    what the calls return and leave behind, what they never do, and where
    they fail to return.

    - [JS]              the numbers and exceptions of the language
    - [RateLimiter]     lib/rate-limiter/RateLimiter.ts
    - [SmartCache]      lib/cache/SmartCache.ts
    - [PriceCache]      lib/cache/PriceCache.ts
    - [EventTracker]    lib/analytics/EventTracker.ts
    - [Market]          the interface of lib/merkle/MerkleService.ts that the
                        hedge service uses
    - [HedgeService]    lib/hedge/HedgeService.ts
    - [CreditMonitor]   CreditMonitorService: the delivery of alerts
    - [HedgeContract]   lib/contracts/HedgeContractService.ts, the
                        transactions it submits
    - [Monitoring]      CreditMonitorService: timers, checks and retries
    - [BatchProcessor]  lib/batch/BatchProcessor.ts, the transaction queue
    - [AssessmentBatches] the batch processor of the assessment agent
    - [LimiterTrace]    sequences of operations on a rate limiter
    - [CacheTrace]      sequences of operations on a cache
    - [MonitorTrace]    sequences of operations on a credit monitor
    - [Sample], [Scenario]  the concrete inputs of the examples

    The definitions come first, the properties after them.

    Conventions of the embedding.
    - A JavaScript [number] that carries a quantity (tokens, scores, amounts,
      prices) is a rational [Q]: arithmetic is exact, so the rounding of
      IEEE doubles is not modelled.  Where the source divides by zero the
      embedding keeps NaN and the infinities (see [JS.number]).
    - [Date.now()] is an integer number of milliseconds, a [Z].  It is read
      once per run-to-completion segment of a method and passed in as an
      argument: the clock is an input of the model, not a part of it.
    - A [Map] whose iteration order is never observed by the modelled code is
      a [gmap]; a [Map] or array whose order matters is a list.
    - A method that can fail to return (an unbounded loop) returns an
      [option]; [None] means that the given fuel or the given clock readings
      ran out before the method returned. *)

From Stdlib Require Import QArith Qminmax Lqa ZArith Lia Ascii.
From stdpp Require Import gmap strings pretty list.

(** ** JavaScript numbers where the source divides

    The results of the divisions of the source whose divisor is not a
    constant.  Finite values are exact rationals; the two infinities and NaN
    are kept, because the source compares and stores them.  The sign of a
    zero is not modelled: a zero divisor counts as [+0], which is what an
    integer difference or a literal gives. *)

Module JS.

Inductive number := NaN | PInf | NInf | Fin (q : Q).

Definition neg (a : number) : number :=
  match a with
  | NaN => NaN | PInf => NInf | NInf => PInf | Fin q => Fin (- q)
  end.

Definition isZero (q : Q) : bool := Qeq_bool q 0.
Definition isPos (q : Q) : bool := negb (Qle_bool q 0).

Definition add (a b : number) : number :=
  match a, b with
  | NaN, _ | _, NaN => NaN
  | Fin x, Fin y => Fin (x + y)
  | PInf, NInf | NInf, PInf => NaN
  | PInf, _ | _, PInf => PInf
  | NInf, _ | _, NInf => NInf
  end.

Definition sub (a b : number) : number := add a (neg b).

Definition scaleInf (i : number) (q : Q) : number :=
  if isZero q then NaN else if isPos q then i else neg i.

Definition mul (a b : number) : number :=
  match a, b with
  | NaN, _ | _, NaN => NaN
  | Fin x, Fin y => Fin (x * y)
  | Fin x, i | i, Fin x => scaleInf i x
  | PInf, PInf | NInf, NInf => PInf
  | PInf, NInf | NInf, PInf => NInf
  end.

Definition div (a b : number) : number :=
  match a, b with
  | NaN, _ | _, NaN => NaN
  | Fin x, Fin y =>
      if isZero y then
        if isZero x then NaN else if isPos x then PInf else NInf
      else Fin (x / y)
  | Fin _, _ => Fin 0
  | i, Fin y => if isZero y || isPos y then i else neg i
  | _, _ => NaN
  end.

(** [Math.min] *)
Definition min (a b : number) : number :=
  match a, b with
  | NaN, _ | _, NaN => NaN
  | NInf, _ | _, NInf => NInf
  | PInf, x | x, PInf => x
  | Fin x, Fin y => Fin (Qmin x y)
  end.

(** [a < b] *)
Definition lt (a b : number) : bool :=
  match a, b with
  | NaN, _ | _, NaN => false
  | _, NInf => false
  | NInf, _ => true
  | PInf, _ => false
  | Fin _, PInf => true
  | Fin x, Fin y => negb (Qle_bool y x)
  end.

(** [a <= b] *)
Definition le (a b : number) : bool :=
  match a, b with
  | NaN, _ | _, NaN => false
  | NInf, _ => true
  | _, PInf => true
  | _, NInf => false
  | PInf, _ => false
  | Fin x, Fin y => Qle_bool x y
  end.

Definition ofZ (z : Z) : number := Fin (inject_Z z).

(** A thrown exception carries a message. *)
Inductive error := Error (message : string).

(** How a call ends: it returns a value or throws. *)
Inductive outcome (A : Type) :=
| Returned (a : A)
| Thrown (e : error).
Arguments Returned {A} a.
Arguments Thrown {A} e.

(** [Number.MAX_VALUE], the largest finite number.  The embedding does
    not model overflow: a statement that depends on a result staying
    finite says so with this bound. *)
Definition MAX_VALUE : Q := inject_Z (2 ^ 1024 - 2 ^ 971).

End JS.

(** ** RateLimiter: a token bucket per key *)

Module RateLimiter.

Record TokenBucket := mkBucket {
  tokens : Q;
  lastRefill : Z
}.

Record RateLimiterConfig := mkConfig {
  maxTokens : Q;
  refillRate : Q;       (* tokens per second *)
  refillInterval : Z    (* milliseconds *)
}.

Record RateLimiterStats := mkStats {
  totalRequests : Q;
  acceptedRequests : Q;
  rejectedRequests : Q;
  currentTokens : Q;
  lastRefillTime : Q
}.

Inductive StatsField :=
| TotalRequests | AcceptedRequests | RejectedRequests
| CurrentTokens | LastRefillTime.

Record t := mkLimiter {
  buckets : gmap string TokenBucket;
  stats : gmap string RateLimiterStats;
  config : RateLimiterConfig
}.

(** [getInstance]'s default configuration. *)
Definition defaultConfig : RateLimiterConfig :=
  {| maxTokens := 100; refillRate := 10; refillInterval := 1000 |}.

Definition create (cfg : RateLimiterConfig) : t :=
  {| buckets := ∅; stats := ∅; config := cfg |}.

(** [refillBucket]: tokens += (elapsed ms / 1000) * rate, clamped at
    [maxTokens]; [lastRefill] becomes the current time. *)
Definition refillBucket (cfg : RateLimiterConfig) (now : Z)
    (b : TokenBucket) : TokenBucket :=
  let timePassed := (now - lastRefill b)%Z in
  let tokensToAdd := (inject_Z timePassed / 1000 * refillRate cfg)%Q in
  {| tokens := Qmin (maxTokens cfg) (tokens b + tokensToAdd)%Q;
     lastRefill := now |}.

(** The body of the [setInterval] callback of [startRefill]. *)
Definition refillAll (now : Z) (st : t) : t :=
  {| buckets := refillBucket (config st) now <$> buckets st;
     stats := stats st;
     config := config st |}.

Definition initStats (key : string) (now : Z) (st : t) : t :=
  {| buckets := buckets st;
     stats := <[key := {| totalRequests := 0; acceptedRequests := 0;
                          rejectedRequests := 0;
                          currentTokens := maxTokens (config st);
                          lastRefillTime := inject_Z now |}]> (stats st);
     config := config st |}.

Definition getField (f : StatsField) (s : RateLimiterStats) : Q :=
  match f with
  | TotalRequests => totalRequests s
  | AcceptedRequests => acceptedRequests s
  | RejectedRequests => rejectedRequests s
  | CurrentTokens => currentTokens s
  | LastRefillTime => lastRefillTime s
  end.

Definition setField (f : StatsField) (v : Q) (s : RateLimiterStats)
    : RateLimiterStats :=
  match f with
  | TotalRequests =>
      mkStats v (acceptedRequests s) (rejectedRequests s)
              (currentTokens s) (lastRefillTime s)
  | AcceptedRequests =>
      mkStats (totalRequests s) v (rejectedRequests s)
              (currentTokens s) (lastRefillTime s)
  | RejectedRequests =>
      mkStats (totalRequests s) (acceptedRequests s) v
              (currentTokens s) (lastRefillTime s)
  | CurrentTokens =>
      mkStats (totalRequests s) (acceptedRequests s) (rejectedRequests s)
              v (lastRefillTime s)
  | LastRefillTime =>
      mkStats (totalRequests s) (acceptedRequests s) (rejectedRequests s)
              (currentTokens s) v
  end.

(** [updateStats(key, field, value?)]: store [value] when it is given,
    increment the field otherwise; nothing when the key has no stats. *)
Definition updateStats (key : string) (f : StatsField) (value : option Q)
    (st : t) : t :=
  match stats st !! key with
  | Some s =>
      let s' := match value with
                | Some v => setField f v s
                | None => setField f (getField f s + 1)%Q s
                end in
      {| buckets := buckets st; stats := <[key := s']> (stats st);
         config := config st |}
  | None => st
  end.

Definition setBucket (key : string) (b : TokenBucket) (st : t) : t :=
  {| buckets := <[key := b]> (buckets st); stats := stats st;
     config := config st |}.

(** The [while (true)] loop of [acquire].  Each element of [polls] is the
    clock reading of one iteration; between two iterations the source
    sleeps for [min(100, timeout)] ms.  [None]: the readings ran out while
    the loop was still waiting. *)
Fixpoint acquireLoop (cfg : RateLimiterConfig) (cost : Q)
    (timeout startTime : Z) (polls : list Z) (b : TokenBucket)
    : option bool * TokenBucket :=
  match polls with
  | [] => (None, b)
  | now :: rest =>
      let b1 := refillBucket cfg now b in
      if Qle_bool cost (tokens b1) then
        (Some true, {| tokens := (tokens b1 - cost)%Q;
                       lastRefill := lastRefill b1 |})
      else if (timeout =? 0)%Z || (timeout <=? now - startTime)%Z then
        (Some false, b1)
      else acquireLoop cfg cost timeout startTime rest b1
  end.

(** [acquire(key, tokens, timeout)], entered at time [now]; [polls] are
    the clock readings of the later iterations of its loop. *)
Definition acquire (key : string) (cost : Q) (timeout : Z) (now : Z)
    (polls : list Z) (st : t) : option bool * t :=
  let '(b, st1) :=
    match buckets st !! key with
    | Some b => (b, st)
    | None =>
        let b := {| tokens := maxTokens (config st); lastRefill := now |} in
        (b, initStats key now (setBucket key b st))
    end in
  let st2 := updateStats key TotalRequests None st1 in
  let '(r, b') :=
    acquireLoop (config st) cost timeout now (now :: polls) b in
  let st3 := setBucket key b' st2 in
  match r with
  | Some true =>
      (r, updateStats key CurrentTokens (Some (tokens b'))
            (updateStats key AcceptedRequests None st3))
  | Some false => (r, updateStats key RejectedRequests None st3)
  | None => (r, st3)
  end.

(** [clear(key)]: [if (key)] takes the branch of one key for a key that
    is given and is not the empty string. *)
Definition clear (key : option string) (st : t) : t :=
  match key with
  | Some (String c k) =>
      {| buckets := delete (String c k) (buckets st);
         stats := delete (String c k) (stats st); config := config st |}
  | Some EmptyString | None =>
      {| buckets := ∅; stats := ∅; config := config st |}
  end.

Record Request := mkRequest { req_key : string; req_tokens : Q }.

(** The keys that a batch names, in order. *)
Definition keys (requests : list Request) : list string :=
  req_key <$> requests.

(** The [requests.every(...)] check of [acquireBatch]: it refills each
    bucket it looks at and stops at the first request that does not fit. *)
Fixpoint canAcquire (now : Z) (requests : list Request) (st : t)
    : bool * t :=
  match requests with
  | [] => (true, st)
  | r :: rest =>
      match buckets st !! req_key r with
      | None => canAcquire now rest st
      | Some b =>
          let b1 := refillBucket (config st) now b in
          let st1 := setBucket (req_key r) b1 st in
          if Qle_bool (req_tokens r) (tokens b1)
          then canAcquire now rest st1
          else (false, st1)
      end
  end.

(** [for (const {key, tokens} of requests) results.set(key, await
    acquire(key, tokens, 0))]. *)
Fixpoint acquireEach (now : Z) (requests : list Request)
    (results : gmap string bool) (st : t) : gmap string bool * t :=
  match requests with
  | [] => (results, st)
  | r :: rest =>
      let '(ok, st1) := acquire (req_key r) (req_tokens r) 0 now [] st in
      acquireEach now rest
        (<[req_key r := default false ok]> results) st1
  end.

(** One round of the retry loop: only successes are recorded. *)
Fixpoint retryEach (now : Z) (requests : list Request)
    (results : gmap string bool) (st : t) : gmap string bool * t :=
  match requests with
  | [] => (results, st)
  | r :: rest =>
      let '(ok, st1) := acquire (req_key r) (req_tokens r) 0 now [] st in
      retryEach now rest
        (if default false ok then <[req_key r := true]> results
         else results) st1
  end.

Definition notIn (results : gmap string bool) (r : Request) : bool :=
  bool_decide (results !! req_key r = None).

(** The [while (Date.now() - startTime < timeout)] loop; one clock reading
    per round. *)
Fixpoint retryRounds (timeout startTime : Z) (rounds : list Z)
    (requests : list Request) (results : gmap string bool) (st : t)
    : option (gmap string bool * t) :=
  match rounds with
  | [] => None
  | now :: rest =>
      if (now - startTime <? timeout)%Z then
        let remaining := List.filter (notIn results) requests in
        let '(results1, st1) := retryEach now remaining results st in
        if (size results1 =? length requests)%nat
        then Some (results1, st1)
        else retryRounds timeout startTime rest requests results1 st1
      else Some (results, st)
  end.

Definition fillFalse (requests : list Request)
    (results : gmap string bool) : gmap string bool :=
  foldl (fun res r => if notIn res r then <[req_key r := false]> res
                      else res) results requests.

(** [for (const {key} of requests) results.set(key, false)]. *)
Definition setAllFalse (requests : list Request)
    (results : gmap string bool) : gmap string bool :=
  foldl (fun res r => <[req_key r := false]> res) results requests.

(** [acquireBatch(requests, timeout)]. *)
Definition acquireBatch (requests : list Request) (timeout : Z) (now : Z)
    (rounds : list Z) (st : t) : option (gmap string bool * t) :=
  let '(ok, st1) := canAcquire now requests st in
  if ok then Some (acquireEach now requests ∅ st1)
  else if (0 <? timeout)%Z then
    match retryRounds timeout now rounds requests ∅ st1 with
    | Some (results, st2) => Some (fillFalse requests results, st2)
    | None => None
    end
  else Some (setAllFalse requests ∅, st1).

(** The bucket that [acquire] works on: the one of the key, or a full one
    made at [now]. *)
Definition bucketAt (key : string) (now : Z) (st : t) : TokenBucket :=
  match buckets st !! key with
  | Some b => b
  | None => {| tokens := maxTokens (config st); lastRefill := now |}
  end.

(** Tokens held for [key]; a key without a bucket holds a full bucket, as
    [acquire] would create it. *)
Definition available (key : string) (st : t) : Q :=
  match buckets st !! key with
  | Some b => tokens b
  | None => maxTokens (config st)
  end.

(** The statistics that [acquire] finds for a key: those that are there
    when the key has a bucket, new ones when it has none. *)
Definition statsAt (key : string) (now : Z) (st : t)
    : option RateLimiterStats :=
  match buckets st !! key with
  | Some _ => stats st !! key
  | None =>
      Some {| totalRequests := 0; acceptedRequests := 0;
              rejectedRequests := 0;
              currentTokens := maxTokens (config st);
              lastRefillTime := inject_Z now |}
  end.

(** One more request, which was rejected. *)
Definition rejectedOnce (s : RateLimiterStats) : RateLimiterStats :=
  {| totalRequests := totalRequests s + 1;
     acceptedRequests := acceptedRequests s;
     rejectedRequests := rejectedRequests s + 1;
     currentTokens := currentTokens s;
     lastRefillTime := lastRefillTime s |}.

End RateLimiter.

(** ** SmartCache: the size-bounded cache with a maximal age *)

Module SmartCache.

Section Cache.

(** The cached values, and the length of [JSON.stringify(data)];
    [None] when the [try] block of [calculateSize] throws. *)
Context {V : Type} (stringifyLength : V -> option Z).

Record CacheItem := mkItem {
  data : V;
  timestamp : Z;
  accessCount : Z;
  lastAccess : Z;
  size : Z
}.

Record CacheConfig := mkConfig {
  maxSize : Z;            (* bytes *)
  maxAge : Z;             (* milliseconds *)
  cleanupInterval : Z
}.

Record CacheStats := mkStats {
  hitCount : Z;
  missCount : Z;
  totalSize : Z;
  itemCount : Z;
  oldestItem : Z;
  mostAccessed : string * Z
}.

(** [cache] is a [Map]: the entries are kept in insertion order, which
    [forEach] follows, and each key occurs once. *)
Record t := mkCache {
  cache : list (string * CacheItem);
  config : CacheConfig;
  stats : CacheStats
}.

Definition defaultConfig : CacheConfig :=
  {| maxSize := 50 * 1024 * 1024; maxAge := 30 * 60 * 1000;
     cleanupInterval := 60 * 1000 |}.

Definition create (cfg : CacheConfig) (now : Z) : t :=
  {| cache := []; config := cfg;
     stats := {| hitCount := 0; missCount := 0; totalSize := 0;
                 itemCount := 0; oldestItem := now;
                 mostAccessed := (EmptyString, 0%Z) |} |}.

(** [Map.prototype.get], [set] and [delete] on the entry list. *)
Fixpoint mapGet (k : string) (m : list (string * CacheItem))
    : option CacheItem :=
  match m with
  | [] => None
  | (k', v) :: rest => if String.eqb k k' then Some v else mapGet k rest
  end.

Fixpoint mapSet (k : string) (v : CacheItem)
    (m : list (string * CacheItem)) : list (string * CacheItem) :=
  match m with
  | [] => [(k, v)]
  | (k', v') :: rest =>
      if String.eqb k k' then (k', v) :: rest
      else (k', v') :: mapSet k v rest
  end.

Definition mapDelete (k : string) (m : list (string * CacheItem))
    : list (string * CacheItem) :=
  List.filter (fun e => negb (String.eqb k (fst e))) m.

Definition withStats (f : CacheStats -> CacheStats) (st : t) : t :=
  {| cache := cache st; config := config st; stats := f (stats st) |}.

Definition withCache (m : list (string * CacheItem)) (st : t) : t :=
  {| cache := m; config := config st; stats := stats st |}.

(** The bookkeeping that follows every removal of an item:
    [totalSize -= item.size; itemCount--]. *)
Definition forget (item : CacheItem) (s : CacheStats) : CacheStats :=
  {| hitCount := hitCount s; missCount := missCount s;
     totalSize := totalSize s - size item;
     itemCount := itemCount s - 1;
     oldestItem := oldestItem s; mostAccessed := mostAccessed s |}.

Definition countMiss (s : CacheStats) : CacheStats :=
  {| hitCount := hitCount s; missCount := missCount s + 1;
     totalSize := totalSize s; itemCount := itemCount s;
     oldestItem := oldestItem s; mostAccessed := mostAccessed s |}.

(** [calculateSize]: two bytes per character, 1024 when the value cannot
    be serialised. *)
Definition calculateSize (d : V) : Z :=
  match stringifyLength d with
  | Some len => len * 2
  | None => 1024
  end.

(** The value of an item for eviction:
    [(accessCount / age) * (1 / timeSinceLastAccess)]. *)
Definition itemValue (now : Z) (item : CacheItem) : JS.number :=
  let age := (now - timestamp item)%Z in
  let timeSinceLastAccess := (now - lastAccess item)%Z in
  JS.mul (JS.div (JS.ofZ (accessCount item)) (JS.ofZ age))
         (JS.div (JS.ofZ 1) (JS.ofZ timeSinceLastAccess)).

(** The [forEach] of [evictLeastValuable]: the first entry whose value
    is strictly below every value seen before it, starting from
    [Infinity]. *)
Fixpoint leastValuable (now : Z) (m : list (string * CacheItem))
    (leastKey : option string) (leastValue : JS.number)
    : option string :=
  match m with
  | [] => leastKey
  | (k, item) :: rest =>
      let value := itemValue now item in
      if JS.lt value leastValue
      then leastValuable now rest (Some k) value
      else leastValuable now rest leastKey leastValue
  end.

(** [if (leastValuableKey)]: [null] and the empty string are falsy. *)
Definition truthyKey (k : option string) : option string :=
  match k with
  | Some EmptyString => None
  | other => other
  end.

Definition evictLeastValuable (now : Z) (st : t) : t :=
  match truthyKey (leastValuable now (cache st) None JS.PInf) with
  | Some k =>
      match mapGet k (cache st) with
      | Some item =>
          withStats (forget item) (withCache (mapDelete k (cache st)) st)
      | None => st
      end
  | None => st
  end.

(** [while (totalSize + size > maxSize) evictLeastValuable()].  The loop
    is one run-to-completion segment, and every turn is given the clock
    reading [now] of the call.  The source reads the clock in each turn;
    what a turn evicts can therefore differ once the clock has moved on.
    [None] says that the loop has not ended within [fuel] turns at the
    reading [now]. *)
Fixpoint evictLoop (fuel : nat) (sz now : Z) (st : t) : option t :=
  if (maxSize (config st) <? totalSize (stats st) + sz)%Z then
    match fuel with
    | O => None
    | S fuel' => evictLoop fuel' sz now (evictLeastValuable now st)
    end
  else Some st.

(** [set(key, data)] at time [now]. *)
Definition set (fuel : nat) (key : string) (d : V) (now : Z) (st : t)
    : option t :=
  let sz := calculateSize d in
  if (maxSize (config st) <? sz)%Z then Some st
  else
    match evictLoop fuel sz now st with
    | None => None
    | Some st1 =>
        let item := {| data := d; timestamp := now; accessCount := 0;
                       lastAccess := now; size := sz |} in
        let s := stats st1 in
        Some {| cache := mapSet key item (cache st1);
                config := config st1;
                stats := {| hitCount := hitCount s;
                            missCount := missCount s;
                            totalSize := totalSize s + sz;
                            itemCount := itemCount s + 1;
                            oldestItem :=
                              if (timestamp item <? oldestItem s)%Z
                              then timestamp item else oldestItem s;
                            mostAccessed := mostAccessed s |} |}
    end.

(** [get(key)] at time [now]. *)
Definition get (key : string) (now : Z) (st : t) : option V * t :=
  match mapGet key (cache st) with
  | None => (None, withStats countMiss st)
  | Some item =>
      if (maxAge (config st) <? now - timestamp item)%Z then
        (None,
         withStats (fun s => countMiss (forget item s))
           (withCache (mapDelete key (cache st)) st))
      else
        let item' := {| data := data item; timestamp := timestamp item;
                        accessCount := accessCount item + 1;
                        lastAccess := now; size := size item |} in
        let s := stats st in
        (Some (data item),
         {| cache := mapSet key item' (cache st);
            config := config st;
            stats := {| hitCount := hitCount s + 1;
                        missCount := missCount s;
                        totalSize := totalSize s;
                        itemCount := itemCount s;
                        oldestItem := oldestItem s;
                        mostAccessed :=
                          if (snd (mostAccessed s) <? accessCount item')%Z
                          then (key, accessCount item')
                          else mostAccessed s |} |})
  end.

Definition has (key : string) (st : t) : bool :=
  match mapGet key (cache st) with Some _ => true | None => false end.

(** [delete(key)] *)
Definition remove (key : string) (st : t) : bool * t :=
  match mapGet key (cache st) with
  | Some item =>
      (true, withStats (forget item)
               (withCache (mapDelete key (cache st)) st))
  | None => (false, st)
  end.

Definition expired (cfg : CacheConfig) (now : Z) (item : CacheItem)
    : bool :=
  (maxAge cfg <? now - timestamp item)%Z.

(** [cleanup()]: drop the expired items, then recompute [oldestItem]. *)
Definition cleanup (now : Z) (st : t) : t :=
  let gone := List.filter (fun e => expired (config st) now (snd e))
                (cache st) in
  let kept := List.filter (fun e => negb (expired (config st) now (snd e)))
                (cache st) in
  let s := fold_left (fun s e => forget (snd e) s) gone (stats st) in
  let oldest := fold_left (fun o e => if (timestamp (snd e) <? o)%Z
                                      then timestamp (snd e) else o)
                  kept now in
  {| cache := kept; config := config st;
     stats := {| hitCount := hitCount s; missCount := missCount s;
                 totalSize := totalSize s; itemCount := itemCount s;
                 oldestItem := oldest;
                 mostAccessed := mostAccessed s |} |}.

(** [clear()] at time [now]. *)
Definition clear (now : Z) (st : t) : t :=
  {| cache := []; config := config st;
     stats := {| hitCount := 0; missCount := 0; totalSize := 0;
                 itemCount := 0; oldestItem := now;
                 mostAccessed := (EmptyString, 0%Z) |} |}.

End Cache.

Arguments CacheItem V : clear implicits.
Arguments t V : clear implicits.

End SmartCache.

(** ** PriceCache: the price cache with a maximal age *)

Module PriceCache.

Section Cache.

(** The cached price updates. *)
Context {V : Type}.

Record CacheConfig := mkConfig {
  maxAge : Z;             (* milliseconds *)
  cleanupInterval : Z
}.

Record CacheEntry := mkEntry {
  data : V;
  timestamp : Z
}.

(** [cache] is a [Map]: the entries are in insertion order, one per key. *)
Record t := mkCache {
  cache : list (string * CacheEntry);
  config : CacheConfig
}.

Definition defaultConfig : CacheConfig :=
  {| maxAge := 5 * 60 * 1000; cleanupInterval := 60 * 1000 |}.

Definition create (cfg : CacheConfig) : t :=
  {| cache := []; config := cfg |}.

Fixpoint mapGet (k : string) (m : list (string * CacheEntry))
    : option CacheEntry :=
  match m with
  | [] => None
  | (k', e) :: rest => if String.eqb k k' then Some e else mapGet k rest
  end.

Fixpoint mapSet (k : string) (e : CacheEntry)
    (m : list (string * CacheEntry)) : list (string * CacheEntry) :=
  match m with
  | [] => [(k, e)]
  | (k', e') :: rest =>
      if String.eqb k k' then (k', e) :: rest
      else (k', e') :: mapSet k e rest
  end.

Definition mapDelete (k : string) (m : list (string * CacheEntry))
    : list (string * CacheEntry) :=
  List.filter (fun kv => negb (String.eqb k (fst kv))) m.

(** [now - entry.timestamp > maxAge] *)
Definition expired (cfg : CacheConfig) (now : Z) (e : CacheEntry) : bool :=
  (maxAge cfg <? now - timestamp e)%Z.

(** [set(pair, data)] at time [now]. *)
Definition set (pair : string) (d : V) (now : Z) (st : t) : t :=
  {| cache := mapSet pair {| data := d; timestamp := now |} (cache st);
     config := config st |}.

(** [get(pair)] at time [now]: an expired entry is deleted. *)
Definition get (pair : string) (now : Z) (st : t) : option V * t :=
  match mapGet pair (cache st) with
  | None => (None, st)
  | Some e =>
      if expired (config st) now e then
        (None, {| cache := mapDelete pair (cache st); config := config st |})
      else (Some (data e), st)
  end.

(** [getAll()]: a new [Map] of the entries that have not expired. *)
Definition getAll (now : Z) (st : t) : list (string * V) :=
  (fun kv => (fst kv, data (snd kv)))
    <$> List.filter (fun kv => negb (expired (config st) now (snd kv)))
          (cache st).

Definition clear (st : t) : t := {| cache := []; config := config st |}.

(** [cleanup()]: delete the expired entries. *)
Definition cleanup (now : Z) (st : t) : t :=
  {| cache := List.filter
                (fun kv => negb (expired (config st) now (snd kv)))
                (cache st);
     config := config st |}.

(** The keys of the entries, in insertion order. *)
Definition keys (st : t) : list string := fst <$> cache st.

(** [Map.prototype.get] on the result of [getAll]. *)
Fixpoint lookup (k : string) (m : list (string * V)) : option V :=
  match m with
  | [] => None
  | (k', v) :: rest => if String.eqb k k' then Some v else lookup k rest
  end.

End Cache.

Arguments CacheEntry V : clear implicits.
Arguments t V : clear implicits.

End PriceCache.

(** ** EventTracker: the analytics log *)

Module EventTracker.

(** An event; of the free-form [metadata] object only the subject (the
    borrower or position the event is about) is kept. *)
Record EventData := mkEvent {
  category : string;
  action : string;
  label : string;
  value : JS.number;
  subject : string;
  timestamp : Z
}.

Definition maxEvents : nat := 1000.

(** [trackEvent]: append, and keep the last [maxEvents] events.  No flush
    callback is ever registered by the services, so [flush] does
    nothing. *)
Definition trackEvent (e : EventData) (events : list EventData)
    : list EventData :=
  let events' := events ++ [e] in
  drop (length events' - maxEvents) events'.

End EventTracker.

(** ** The Market, an external collaborator *)

Module Market.

Inductive Side := Buy | Sell.
Inductive OrderType := MarketOrderType | LimitOrderType.
Inductive OrderStatus := OrderOpen | Filled | Cancelled | Failed.

Record MarketOrder := mkOrder {
  symbol : string;
  side : Side;
  amount : JS.number;
  type : OrderType
}.

Record OrderResponse := mkResponse {
  orderId : string;
  status : OrderStatus;
  filledAmount : JS.number;
  avgPrice : Q;
  timestamp : Z
}.

(** What the market answers during one call of the hedge service: each
    request either returns or throws. *)
Record t := mkMarket {
  getPrice : string -> JS.outcome Q;
  executeMarketOrder : MarketOrder -> JS.outcome OrderResponse
}.

End Market.

(** ** HedgeService *)

Module HedgeService.

Record HedgeConfig := mkConfig {
  creditScoreThreshold : Q;
  hedgeRatio : Q;
  maxHedgeAmount : Q;
  minCreditScoreToClose : Q;
  rebalanceInterval : Z
}.

Inductive Status := Open | Closed.

Record HedgePosition := mkPosition {
  id : string;
  openPrice : Q;
  amount : JS.number;
  timestamp : Z;
  creditScore : Q;
  status : Status;
  pnl : option JS.number
}.

(** The service together with the singletons it holds references to.
    [orders] is not a field of the source: it records the orders that
    the service has sent to the market, oldest first. *)
Record t := mkService {
  config : HedgeConfig;
  positions : gmap string HedgePosition;
  rateLimiter : RateLimiter.t;
  cache : SmartCache.t Q;
  events : list EventTracker.EventData;
  orders : list Market.MarketOrder
}.

(** The clock readings of one call: in the segment that runs up to the
    price request, in the one after the price arrived, and in the one
    after the order was answered. *)
Record Clock := mkClock {
  atEntry : Z;
  atPrice : Z;
  atOrder : Z
}.

Definition defaultConfig : HedgeConfig :=
  {| creditScoreThreshold := 600; hedgeRatio := 0.5;
     maxHedgeAmount := 100000; minCreditScoreToClose := 700;
     rebalanceInterval := 60000 |}.

Definition create (cfg : HedgeConfig) (rl : RateLimiter.t)
    (c : SmartCache.t Q) : t :=
  {| config := cfg; positions := ∅; rateLimiter := rl; cache := c;
     events := []; orders := [] |}.

(** [calculateHedgeAmount] *)
Definition calculateHedgeAmount (cfg : HedgeConfig)
    (loanAmount : JS.number) (score : Q) : JS.number :=
  let scoreAdjustment :=
    JS.div (JS.Fin (creditScoreThreshold cfg - score))
           (JS.Fin (creditScoreThreshold cfg)) in
  let hedgeAmount :=
    JS.mul (JS.mul loanAmount (JS.Fin (hedgeRatio cfg))) scoreAdjustment in
  JS.min hedgeAmount (JS.Fin (maxHedgeAmount cfg)).

Definition withRateLimiter (rl : RateLimiter.t) (st : t) : t :=
  {| config := config st; positions := positions st; rateLimiter := rl;
     cache := cache st; events := events st; orders := orders st |}.

Definition withCache (c : SmartCache.t Q) (st : t) : t :=
  {| config := config st; positions := positions st;
     rateLimiter := rateLimiter st; cache := c; events := events st;
     orders := orders st |}.

Definition withPositions (ps : gmap string HedgePosition) (st : t) : t :=
  {| config := config st; positions := ps; rateLimiter := rateLimiter st;
     cache := cache st; events := events st; orders := orders st |}.

(** [merkleService.executeMarketOrder(order)]: the order goes out, and the
    market answers. *)
Definition executeMarketOrder (mkt : Market.t) (order : Market.MarketOrder)
    (st : t) : JS.outcome Market.OrderResponse * t :=
  (Market.executeMarketOrder mkt order,
   {| config := config st; positions := positions st;
      rateLimiter := rateLimiter st; cache := cache st;
      events := events st; orders := orders st ++ [order] |}).

Definition track (category action label : string) (value : JS.number)
    (subject : string) (now : Z) (st : t) : t :=
  {| config := config st; positions := positions st;
     rateLimiter := rateLimiter st; cache := cache st;
     events := EventTracker.trackEvent
                 (EventTracker.mkEvent category action label value
                    subject now) (events st);
     orders := orders st |}.

Section Service.

(** The length of the JSON text of a number, for the cache. *)
Variable stringifyLength : Q -> option Z.

(** Fuel for the eviction loop of the cache. *)
Variable fuel : nat.

(** [if (cachedPrice)]: [null] and [0] are falsy. *)
Definition truthy (v : option Q) : option Q :=
  match v with
  | Some q => if Qeq_bool q 0 then None else Some q
  | None => None
  end.

(** [getETHPrice]: the cached price, else the market's, which is then
    cached.  The third argument that the source passes to [cache.set]
    is ignored by [SmartCache.set]. *)
Definition getETHPrice (mkt : Market.t) (clk : Clock) (st : t)
    : option (JS.outcome Q * t) :=
  let '(cached, c1) :=
    SmartCache.get "ETH/USDC_price" (atEntry clk) (cache st) in
  match truthy cached with
  | Some price => Some (JS.Returned price, withCache c1 st)
  | None =>
      match Market.getPrice mkt "ETH/USDC" with
      | JS.Thrown e => Some (JS.Thrown e, withCache c1 st)
      | JS.Returned price =>
          match SmartCache.set stringifyLength fuel "ETH/USDC_price"
                  price (atPrice clk) c1 with
          | None => None
          | Some c2 => Some (JS.Returned price, withCache c2 st)
          end
      end
  end.

(** The id of a new position: [`hedge_${Date.now()}_${borrowerId}`]. *)
Definition positionId (now : Z) (borrowerId : string) : string :=
  "hedge_" +:+ pretty now +:+ "_" +:+ borrowerId.

(** The [catch] block of [evaluateAndHedge]: log and rethrow. *)
Definition openFailed (borrowerId : string) (e : JS.error) (now : Z)
    (st : t) : JS.outcome unit * t :=
  (JS.Thrown e,
   track "hedge" "open_position" "error" (JS.Fin 0) borrowerId now st).

(** [evaluateAndHedge(borrowerId, creditScore, loanAmount)] *)
Definition evaluateAndHedge (mkt : Market.t) (clk : Clock)
    (borrowerId : string) (score : Q) (loanAmount : JS.number) (st : t)
    : option (JS.outcome unit * t) :=
  if negb (Qle_bool score (creditScoreThreshold (config st))) then
    Some (JS.Returned tt, st)
  else
    let '(canProceed, rl) :=
      RateLimiter.acquire "hedge" 1 0 (atEntry clk) []
        (rateLimiter st) in
    let st1 := withRateLimiter rl st in
    match canProceed with
    | None => None
    | Some false =>
        Some (openFailed borrowerId
                (JS.Error "Rate limit exceeded for hedge operations")
                (atEntry clk) st1)
    | Some true =>
        let hedgeAmount :=
          calculateHedgeAmount (config st) loanAmount score in
        match getETHPrice mkt clk st1 with
        | None => None
        | Some (JS.Thrown e, st2) =>
            Some (openFailed borrowerId e (atPrice clk) st2)
        | Some (JS.Returned ethPrice, st2) =>
            let order :=
              {| Market.symbol := "ETH/USDC";
                 Market.side := Market.Sell;
                 Market.amount := JS.div hedgeAmount (JS.Fin ethPrice);
                 Market.type := Market.MarketOrderType |} in
            match executeMarketOrder mkt order st2 with
            | (JS.Thrown e, st3) =>
                Some (openFailed borrowerId e (atOrder clk) st3)
            | (JS.Returned _, st3) =>
                let position :=
                  {| id := positionId (atOrder clk) borrowerId;
                     openPrice := ethPrice;
                     amount := hedgeAmount;
                     timestamp := atOrder clk;
                     creditScore := score;
                     status := Open;
                     pnl := None |} in
                let st4 :=
                  withPositions
                    (<[id position := position]> (positions st3)) st3 in
                Some (JS.Returned tt,
                      track "hedge" "open_position" "success" hedgeAmount
                        borrowerId (atOrder clk) st4)
            end
        end
    end.

(** The [catch] block of [closePosition]. *)
Definition closeFailed (positionId : string) (e : JS.error) (now : Z)
    (st : t) : JS.outcome unit * t :=
  (JS.Thrown e,
   track "hedge" "close_position" "error" (JS.Fin 0) positionId now st).

(** [closePosition(positionId, currentCreditScore)] *)
Definition closePosition (mkt : Market.t) (clk : Clock)
    (positionId : string) (currentCreditScore : Q) (st : t)
    : option (JS.outcome unit * t) :=
  match positions st !! positionId with
  | None => Some (JS.Returned tt, st)
  | Some position =>
      match status position with
      | Closed => Some (JS.Returned tt, st)
      | Open =>
          match getETHPrice mkt clk st with
          | None => None
          | Some (JS.Thrown e, st1) =>
              Some (closeFailed positionId e (atPrice clk) st1)
          | Some (JS.Returned currentPrice, st1) =>
              let order :=
                {| Market.symbol := "ETH/USDC";
                   Market.side := Market.Buy;
                   Market.amount :=
                     JS.div (amount position)
                            (JS.Fin (openPrice position));
                   Market.type := Market.MarketOrderType |} in
              match executeMarketOrder mkt order st1 with
              | (JS.Thrown e, st1) =>
                  Some (closeFailed positionId e (atOrder clk) st1)
              | (JS.Returned _, st1) =>
                  let p :=
                    JS.mul (amount position)
                      (JS.sub (JS.Fin 1)
                         (JS.div (JS.Fin currentPrice)
                                 (JS.Fin (openPrice position)))) in
                  let closed :=
                    {| id := id position;
                       openPrice := openPrice position;
                       amount := amount position;
                       timestamp := timestamp position;
                       creditScore := creditScore position;
                       status := Closed;
                       pnl := Some p |} in
                  let st2 :=
                    withPositions
                      (<[positionId := closed]> (positions st1)) st1 in
                  Some (JS.Returned tt,
                        track "hedge" "close_position" "success" p
                          positionId (atOrder clk) st2)
              end
          end
      end
  end.

(** [String.prototype.split] on a one-character separator. *)
Fixpoint split (sep : ascii) (s : string) : list string :=
  match s with
  | EmptyString => [EmptyString]
  | String c rest =>
      if Ascii.eqb c sep then EmptyString :: split sep rest
      else match split sep rest with
           | [] => [String c EmptyString]
           | w :: ws => String c w :: ws
           end
  end.

(** [positionId.split('_')[2]], the borrower that [adjustHedgePosition]
    reads off a position id; [None] is [undefined]. *)
Definition borrowerOf (positionId : string) : option string :=
  split "_"%char positionId !! 2%nat.

(** [adjustHedgePosition(positionId, newCreditScore)]: the top-up of a
    position is a further [evaluateAndHedge] for its borrower. *)
Definition adjustHedgePosition (mkt : Market.t) (clk : Clock)
    (positionId : string) (newCreditScore : Q) (st : t)
    : option (JS.outcome unit * t) :=
  match positions st !! positionId with
  | None => Some (JS.Returned tt, st)
  | Some position =>
      let currentHedgeAmount := amount position in
      let newHedgeAmount :=
        calculateHedgeAmount (config st)
          (JS.div currentHedgeAmount (JS.Fin (hedgeRatio (config st))))
          newCreditScore in
      if JS.le newHedgeAmount currentHedgeAmount
      then Some (JS.Returned tt, st)
      else
        let additionalAmount :=
          JS.sub newHedgeAmount currentHedgeAmount in
        evaluateAndHedge mkt clk
          (default "undefined" (borrowerOf positionId))
          newCreditScore additionalAmount st
  end.

(** No borrower has two open positions: two open positions whose ids
    name the same borrower are one position. *)
Definition oneOpenPerBorrower (st : t) : Prop :=
  forall i j p q,
    positions st !! i = Some p -> positions st !! j = Some q ->
    status p = Open -> status q = Open ->
    borrowerOf i = borrowerOf j -> i = j.

(** [getCurrentCreditScore(positionId)]: a placeholder in the source,
    which returns 0. *)
Definition getCurrentCreditScore (positionId : string) : Q := 0.

(** The body of the [for] loop of [rebalancePositions] for the entry
    [positionId] of the positions: what the calls throw is logged to the
    console and dropped. *)
Definition rebalanceEntry (mkt : Market.t) (clk : Clock)
    (positionId : string) (st : t) : option t :=
  match positions st !! positionId with
  | None => Some st
  | Some position =>
      match status position with
      | Closed => Some st
      | Open =>
          let currentCreditScore := getCurrentCreditScore positionId in
          if Qle_bool (minCreditScoreToClose (config st)) currentCreditScore
          then
            snd <$> closePosition mkt clk positionId currentCreditScore st
          else if negb (Qle_bool (creditScore position) currentCreditScore)
          then
            snd <$> adjustHedgePosition mkt clk positionId
                      currentCreditScore st
          else Some st
      end
  end.

(** The character [c] occurs in [s]. *)
Fixpoint contains (c : ascii) (s : string) : bool :=
  match s with
  | EmptyString => false
  | String c' rest => Ascii.eqb c' c || contains c rest
  end.

(** The order by which [closePosition] buys back what the position sold. *)
Definition closingOrder (position : HedgePosition) : Market.MarketOrder :=
  {| Market.symbol := "ETH/USDC";
     Market.side := Market.Buy;
     Market.amount :=
       JS.div (amount position) (JS.Fin (openPrice position));
     Market.type := Market.MarketOrderType |}.

End Service.

End HedgeService.

(** ** CreditMonitorService: alerts to the registered observers *)

Module CreditMonitor.

Inductive RiskLevel := Low | Medium | High.

Record CreditAlert := mkAlert {
  borrowerId : string;
  oldScore : Q;
  newScore : Q;
  timestamp : Z;
  riskLevel : RiskLevel
}.

Record CreditMonitorConfig := mkConfig {
  creditScoreThreshold : Q;
  checkInterval : Z;
  minCheckInterval : Z;
  maxRetries : Z
}.

(** An observer, as far as delivery is concerned: called with an alert it
    returns or throws. *)
Definition AlertCallback := CreditAlert -> JS.outcome unit.

(** [calculateRiskLevel] *)
Definition calculateRiskLevel (creditScore : Q) : RiskLevel :=
  if negb (Qle_bool 500 creditScore) then High
  else if negb (Qle_bool 650 creditScore) then Medium
  else Low.

(** [calculateHedgeRatio] *)
Definition calculateHedgeRatio (cfg : CreditMonitorConfig)
    (creditScore : Q) : JS.number :=
  let baseRatio := JS.Fin 0.5 in
  let scoreFactor :=
    JS.div (JS.Fin (creditScoreThreshold cfg - creditScore))
           (JS.Fin (creditScoreThreshold cfg)) in
  JS.min (JS.add baseRatio (JS.mul scoreFactor (JS.Fin 0.5))) (JS.Fin 1).

(** [onAlert]: [alertCallbacks.push(callback)]. *)
Definition onAlert (callback : AlertCallback)
    (alertCallbacks : list AlertCallback) : list AlertCallback :=
  alertCallbacks ++ [callback].

(** [alertCallbacks.forEach(callback => callback(alert))], from the
    callback of index [i] on.  The result lists the indices of the
    callbacks that were called, in the order of the calls, and tells how
    the [forEach] ended: an exception of a callback leaves the loop. *)
Fixpoint notifyFrom (i : nat) (callbacks : list AlertCallback)
    (alert : CreditAlert) : list nat * JS.outcome unit :=
  match callbacks with
  | [] => ([], JS.Returned tt)
  | callback :: rest =>
      match callback alert with
      | JS.Thrown e => ([i], JS.Thrown e)
      | JS.Returned _ =>
          let '(called, r) := notifyFrom (S i) rest alert in
          (i :: called, r)
      end
  end.

(** [notifyAlertCallbacks(alert)] *)
Definition notifyAlertCallbacks (alertCallbacks : list AlertCallback)
    (alert : CreditAlert) : list nat * JS.outcome unit :=
  notifyFrom 0 alertCallbacks alert.

(** The observer returns when it is called with the alert. *)
Definition returns (alert : CreditAlert) (callback : AlertCallback)
    : Prop :=
  callback alert = JS.Returned tt.

(** Every registered observer was called with the alert. *)
Definition allNotified (alertCallbacks : list AlertCallback)
    (alert : CreditAlert) : Prop :=
  forall i, (i < length alertCallbacks)%nat ->
            i ∈ fst (notifyAlertCallbacks alertCallbacks alert).

(** The end of the [try] block of [checkCreditScore]: the alert is sent
    when the cached score is truthy and differs from the new one. *)
Definition alertOnChange (alertCallbacks : list AlertCallback)
    (borrower : string) (lastScore : option Q) (score : Q) (now : Z)
    : list nat * JS.outcome unit :=
  match lastScore with
  | Some old =>
      if negb (Qeq_bool old 0) && negb (Qeq_bool old score) then
        notifyAlertCallbacks alertCallbacks
          {| borrowerId := borrower; oldScore := old; newScore := score;
             timestamp := now; riskLevel := calculateRiskLevel score |}
      else ([], JS.Returned tt)
  | None => ([], JS.Returned tt)
  end.

End CreditMonitor.

(** ** HedgeContractService: the writes to the ledger *)

Module HedgeContract.

(** The entry function and the arguments of a transaction.  Amounts are
    sent as they are, ratios in basis points. *)
Inductive Payload :=
| CreateHedgePosition (borrowerId : string) (amount : Q)
    (hedgeRatioBps : JS.number)
| CloseHedgePosition (positionId : string)
| AdjustHedgeRatio (positionId : string) (newRatioBps : JS.number).

(** [walletService.submitTransaction]: the hash of the transaction, or an
    exception. *)
Definition Wallet := Payload -> JS.outcome string.

Definition toBasisPoints (ratio : JS.number) : JS.number :=
  JS.mul ratio (JS.Fin 10000).

(** What the three writers share: submit, log the success or the error,
    return the hash or rethrow. *)
Definition submit (wallet : Wallet) (payload : Payload)
    (action subject : string) (value : JS.number) (now : Z)
    (events : list EventTracker.EventData)
    : JS.outcome string * list EventTracker.EventData :=
  match wallet payload with
  | JS.Returned hash =>
      (JS.Returned hash,
       EventTracker.trackEvent
         (EventTracker.mkEvent "hedge_contract" action "success" value
            subject now) events)
  | JS.Thrown e =>
      (JS.Thrown e,
       EventTracker.trackEvent
         (EventTracker.mkEvent "hedge_contract" action "error" (JS.Fin 0)
            subject now) events)
  end.

(** [createHedgePosition(borrowerId, amount, hedgeRatio)] *)
Definition createHedgePosition (wallet : Wallet) (borrowerId : string)
    (amount : Q) (hedgeRatio : JS.number) (now : Z)
    (events : list EventTracker.EventData)
    : JS.outcome string * list EventTracker.EventData :=
  submit wallet
    (CreateHedgePosition borrowerId amount (toBasisPoints hedgeRatio))
    "create_position" borrowerId (JS.Fin amount) now events.

(** [closeHedgePosition(positionId)] *)
Definition closeHedgePosition (wallet : Wallet) (positionId : string)
    (now : Z) (events : list EventTracker.EventData)
    : JS.outcome string * list EventTracker.EventData :=
  submit wallet (CloseHedgePosition positionId)
    "close_position" positionId (JS.Fin 0) now events.

(** [adjustHedgeRatio(positionId, newRatio)] *)
Definition adjustHedgeRatio (wallet : Wallet) (positionId : string)
    (newRatio : JS.number) (now : Z)
    (events : list EventTracker.EventData)
    : JS.outcome string * list EventTracker.EventData :=
  submit wallet (AdjustHedgeRatio positionId (toBasisPoints newRatio))
    "adjust_ratio" positionId (JS.Fin 0) now events.

End HedgeContract.

(** ** CreditMonitorService: monitoring and checks *)

Module Monitoring.

Import CreditMonitor.

(** A running [setInterval] timer of [startMonitoring]: its handle and
    what its callback checks.  A handle is a [Timeout] object or a
    positive number, so it is truthy. *)
Record Interval := mkInterval {
  handle : nat;
  borrower : string;
  loanAmount : Q
}.

(** A pending [setTimeout] of the retry branch of [checkCreditScore]. *)
Record Retry := mkRetry {
  due : Z;
  retryBorrower : string;
  retryLoanAmount : Q;
  retryCount : Z
}.

(** The monitor with the services it holds.  [hedge] carries the hedge
    service and, with it, the cache and the event log that the services
    share.  [monitoringMap] is a [Map] from borrower to timer handle, in
    insertion order.  [intervals] and [retries] are the timers that are
    set and not cleared; [submitted] lists the transactions handed to the
    wallet, oldest first. *)
Record t := mkMonitor {
  hedge : HedgeService.t;
  config : CreditMonitorConfig;
  monitoringMap : list (string * nat);
  alertCallbacks : list AlertCallback;
  intervals : list Interval;
  nextHandle : nat;
  retries : list Retry;
  submitted : list HedgeContract.Payload
}.

Definition defaultConfig : CreditMonitorConfig :=
  {| creditScoreThreshold := 600; checkInterval := 60000;
     minCheckInterval := 10000; maxRetries := 3 |}.

Definition create (h : HedgeService.t) (cfg : CreditMonitorConfig) : t :=
  {| hedge := h; config := cfg; monitoringMap := []; alertCallbacks := [];
     intervals := []; nextHandle := 0; retries := []; submitted := [] |}.

Definition withHedge (h : HedgeService.t) (st : t) : t :=
  {| hedge := h; config := config st; monitoringMap := monitoringMap st;
     alertCallbacks := alertCallbacks st; intervals := intervals st;
     nextHandle := nextHandle st; retries := retries st;
     submitted := submitted st |}.

Definition track (action label : string) (value : JS.number)
    (subject : string) (now : Z) (st : t) : t :=
  withHedge
    (HedgeService.track "credit_monitor" action label value subject now
       (hedge st)) st.

Definition scoreKey (borrowerId : string) : string :=
  "credit_score_" +:+ borrowerId.

Definition loanKey (borrowerId : string) : string :=
  "loan_amount_" +:+ borrowerId.

(** [monitoringMap.get(borrowerId)] *)
Fixpoint handleOf (borrowerId : string) (m : list (string * nat))
    : option nat :=
  match m with
  | [] => None
  | (b, h) :: rest =>
      if String.eqb borrowerId b then Some h else handleOf borrowerId rest
  end.

Definition clearInterval (h : nat) (timers : list Interval)
    : list Interval :=
  List.filter (fun i => negb (handle i =? h)%nat) timers.

(** [getCurrentCreditScore(borrowerId)]: a placeholder in the source, which
    returns 0. *)
Definition getCurrentCreditScore (borrowerId : string) : Q := 0.

(** [onAlert(callback)] *)
Definition onAlert (callback : AlertCallback) (st : t) : t :=
  {| hedge := hedge st; config := config st;
     monitoringMap := monitoringMap st;
     alertCallbacks := CreditMonitor.onAlert callback (alertCallbacks st);
     intervals := intervals st; nextHandle := nextHandle st;
     retries := retries st; submitted := submitted st |}.


Section Service.

Variable stringifyLength : Q -> option Z.
Variable fuel : nat.

(** [startMonitoring(borrowerId, initialCreditScore, loanAmount)] at time
    [now].  The score is a number or, where [updateConfig] passes on what
    [cache.get] returned, [null].  [None] as the result: the [cache.set]
    of the call does not return, or the value to store is [null], which
    the cache of the embedding, a cache of numbers, cannot hold. *)
Definition startMonitoring (borrowerId : string)
    (initialCreditScore : option Q) (loan : Q) (now : Z) (st : t)
    : option t :=
  match handleOf borrowerId (monitoringMap st) with
  | Some _ => Some st
  | None =>
      match initialCreditScore with
      | None => None
      | Some score =>
          match SmartCache.set stringifyLength fuel (scoreKey borrowerId)
                  score now (HedgeService.cache (hedge st)) with
          | None => None
          | Some c =>
              let h := nextHandle st in
              Some (track "start_monitoring" "success" (JS.Fin 0)
                      borrowerId now
                      {| hedge := HedgeService.withCache c (hedge st);
                         config := config st;
                         monitoringMap :=
                           monitoringMap st ++ [(borrowerId, h)];
                         alertCallbacks := alertCallbacks st;
                         intervals :=
                           intervals st ++ [mkInterval h borrowerId loan];
                         nextHandle := S h;
                         retries := retries st;
                         submitted := submitted st |})
          end
      end
  end.

(** [stopMonitoring(borrowerId)] *)
Definition stopMonitoring (borrowerId : string) (now : Z) (st : t) : t :=
  match handleOf borrowerId (monitoringMap st) with
  | Some h =>
      track "stop_monitoring" "success" (JS.Fin 0) borrowerId now
        {| hedge := hedge st; config := config st;
           monitoringMap :=
             List.filter (fun e => negb (String.eqb borrowerId (fst e)))
               (monitoringMap st);
           alertCallbacks := alertCallbacks st;
           intervals := clearInterval h (intervals st);
           nextHandle := nextHandle st; retries := retries st;
           submitted := submitted st |}
  | None => st
  end.

(** [Partial<CreditMonitorConfig>] *)
Record PartialConfig := mkPartial {
  newCreditScoreThreshold : option Q;
  newCheckInterval : option Z;
  newMinCheckInterval : option Z;
  newMaxRetries : option Z
}.

Definition merge (cfg : CreditMonitorConfig) (p : PartialConfig)
    : CreditMonitorConfig :=
  {| creditScoreThreshold :=
       default (creditScoreThreshold cfg) (newCreditScoreThreshold p);
     checkInterval := default (checkInterval cfg) (newCheckInterval p);
     minCheckInterval :=
       default (minCheckInterval cfg) (newMinCheckInterval p);
     maxRetries := default (maxRetries cfg) (newMaxRetries p) |}.

Definition cacheGet (key : string) (now : Z) (st : t) : option Q * t :=
  let '(v, c) := SmartCache.get key now (HedgeService.cache (hedge st)) in
  (v, withHedge (HedgeService.withCache c (hedge st)) st).

(** The callback of the [forEach] of [updateConfig] for one entry of
    [monitoringMap]. *)
Definition rearm (now : Z) (entry : string * nat) (acc : option t)
    : option t :=
  match acc with
  | None => None
  | Some st =>
      let '(borrowerId, h) := entry in
      let st1 :=
        {| hedge := hedge st; config := config st;
           monitoringMap := monitoringMap st;
           alertCallbacks := alertCallbacks st;
           intervals := clearInterval h (intervals st);
           nextHandle := nextHandle st; retries := retries st;
           submitted := submitted st |} in
      let '(loan, st2) := cacheGet (loanKey borrowerId) now st1 in
      match HedgeService.truthy loan with
      | Some amount =>
          let '(score, st3) := cacheGet (scoreKey borrowerId) now st2 in
          startMonitoring borrowerId score amount now st3
      | None => Some st2
      end
  end.

(** [updateConfig(newConfig)] at time [now]: merge the configuration, then
    visit the entries that [monitoringMap] holds. *)
Definition updateConfig (newConfig : PartialConfig) (now : Z) (st : t)
    : option t :=
  let st1 :=
    {| hedge := hedge st; config := merge (config st) newConfig;
       monitoringMap := monitoringMap st;
       alertCallbacks := alertCallbacks st; intervals := intervals st;
       nextHandle := nextHandle st; retries := retries st;
       submitted := submitted st |} in
  foldl (fun acc entry => rearm now entry acc) (Some st1)
    (monitoringMap st1).

(** The clock readings of one [checkCreditScore]: when the cache is read,
    when the new score is stored, when the wallet has answered, the
    readings of [evaluateAndHedge], when [triggerHedge] logs its outcome,
    when the alert is made, and in the [catch] block. *)
Record CheckClock := mkCheckClock {
  atGet : Z;
  atSet : Z;
  atWallet : Z;
  atHedge : HedgeService.Clock;
  atTriggered : Z;
  atAlert : Z;
  atCatch : Z
}.

(** The submission that [triggerHedge] makes for a score. *)
Definition hedgePayload (borrowerId : string) (creditScore loan : Q)
    (st : t) : HedgeContract.Payload :=
  HedgeContract.CreateHedgePosition borrowerId loan
    (HedgeContract.toBasisPoints
       (calculateHedgeRatio (config st) creditScore)).

(** [triggerHedge(borrowerId, creditScore, loanAmount)]: the position on
    the ledger first, then the hedge on the market; the outcome is logged
    and an exception is thrown on. *)
Definition triggerHedge (wallet : HedgeContract.Wallet) (mkt : Market.t)
    (clk : CheckClock) (borrowerId : string) (creditScore loan : Q)
    (st : t) : option (JS.outcome unit * t) :=
  let '(created, events1) :=
    HedgeContract.createHedgePosition wallet borrowerId loan
      (calculateHedgeRatio (config st) creditScore) (atWallet clk)
      (HedgeService.events (hedge st)) in
  let h1 :=
    {| HedgeService.config := HedgeService.config (hedge st);
       HedgeService.positions := HedgeService.positions (hedge st);
       HedgeService.rateLimiter := HedgeService.rateLimiter (hedge st);
       HedgeService.cache := HedgeService.cache (hedge st);
       HedgeService.events := events1;
       HedgeService.orders := HedgeService.orders (hedge st) |} in
  let st1 :=
    {| hedge := h1; config := config st;
       monitoringMap := monitoringMap st;
       alertCallbacks := alertCallbacks st; intervals := intervals st;
       nextHandle := nextHandle st; retries := retries st;
       submitted :=
         submitted st ++ [hedgePayload borrowerId creditScore loan st] |} in
  match created with
  | JS.Thrown e =>
      Some (JS.Thrown e,
            track "hedge_triggered" "error" (JS.Fin 0) borrowerId
              (atTriggered clk) st1)
  | JS.Returned txHash =>
      match HedgeService.evaluateAndHedge stringifyLength fuel mkt
              (atHedge clk) borrowerId creditScore (JS.Fin loan) h1 with
      | None => None
      | Some (JS.Thrown e, h2) =>
          Some (JS.Thrown e,
                track "hedge_triggered" "error" (JS.Fin 0) borrowerId
                  (atTriggered clk) (withHedge h2 st1))
      | Some (JS.Returned _, h2) =>
          Some (JS.Returned tt,
                track "hedge_triggered" "success" (JS.Fin loan) borrowerId
                  (atTriggered clk) (withHedge h2 st1))
      end
  end.

(** The [catch] block of [checkCreditScore]: a retry after
    [minCheckInterval] while [retryCount < maxRetries], else an event. *)
Definition checkFailed (borrowerId : string) (loan : Q) (retryCount : Z)
    (now : Z) (st : t) : t :=
  if (retryCount <? maxRetries (config st))%Z then
    {| hedge := hedge st; config := config st;
       monitoringMap := monitoringMap st;
       alertCallbacks := alertCallbacks st; intervals := intervals st;
       nextHandle := nextHandle st;
       retries :=
         retries st
         ++ [mkRetry (now + minCheckInterval (config st)) borrowerId loan
               (retryCount + 1)];
       submitted := submitted st |}
  else track "check_failed" "error" (JS.Fin 0) borrowerId now st.

(** [checkCreditScore(borrowerId, loanAmount, retryCount)].  The result
    lists the observers that were called; [None] when the [cache.set] or
    the hedge does not return. *)
Definition checkCreditScore (wallet : HedgeContract.Wallet)
    (mkt : Market.t) (clk : CheckClock) (borrowerId : string) (loan : Q)
    (retryCount : Z) (st : t) : option (list nat * t) :=
  let '(lastScore, st1) := cacheGet (scoreKey borrowerId) (atGet clk) st in
  let newScore := getCurrentCreditScore borrowerId in
  match SmartCache.set stringifyLength fuel (scoreKey borrowerId) newScore
          (atSet clk) (HedgeService.cache (hedge st1)) with
  | None => None
  | Some c =>
      let st2 := withHedge (HedgeService.withCache c (hedge st1)) st1 in
      let hedged :=
        if negb (Qle_bool (creditScoreThreshold (config st2)) newScore)
        then triggerHedge wallet mkt clk borrowerId newScore loan st2
        else Some (JS.Returned tt, st2) in
      match hedged with
      | None => None
      | Some (JS.Thrown e, st3) =>
          Some ([], checkFailed borrowerId loan retryCount (atCatch clk) st3)
      | Some (JS.Returned _, st3) =>
          match alertOnChange (alertCallbacks st3) borrowerId lastScore
                  newScore (atAlert clk) with
          | (called, JS.Returned _) => Some (called, st3)
          | (called, JS.Thrown e) =>
              Some (called,
                    checkFailed borrowerId loan retryCount (atCatch clk) st3)
          end
      end
  end.

End Service.

End Monitoring.

(** ** BatchProcessor: the transaction queue *)

Module BatchProcessor.

Section Queue.

(** The transaction payloads, opaque to the queue. *)
Context {P : Type}.

Record BatchTransaction := mkTx {
  id : string;
  payload : P;
  priority : Z;
  timestamp : Z;
  retries : Z
}.

Record BatchConfig := mkConfig {
  maxBatchSize : nat;
  maxRetries : Z;
  retryDelay : Z;
  processingInterval : Z
}.

(** Transactions are objects: the queue, a batch and the closure of a
    retry timer hold references to one object, and [tx.retries++] is
    seen through all of them.  [heap] holds the objects, a reference is
    an index into it.

    - [queue]: the array of references, in order;
    - [timers]: the pending [setTimeout] callbacks of the retry branch,
      each with the time it is due and the transaction it pushes back;
    - [nextTick]: when the [setInterval] of [startProcessing] fires next;
    - [submitted]: every call of [walletService.submitTransaction], with
      its time and transaction, oldest first. *)
Record t := mkQueue {
  heap : list BatchTransaction;
  queue : list nat;
  processing : bool;
  config : BatchConfig;
  timers : list (Z * nat);
  nextTick : Z;
  submitted : list (Z * nat)
}.

Definition defaultConfig : BatchConfig :=
  {| maxBatchSize := 10; maxRetries := 3; retryDelay := 1000;
     processingInterval := 5000 |}.

(** The constructor, called at time [now]. *)
Definition create (cfg : BatchConfig) (now : Z) : t :=
  {| heap := []; queue := []; processing := false; config := cfg;
     timers := []; nextTick := now + processingInterval cfg;
     submitted := [] |}.

(** The comparator of [sortQueue]: negative when [a] goes first. *)
Definition compare (a b : BatchTransaction) : Z :=
  if negb (priority a =? priority b)%Z
  then (priority b - priority a)%Z
  else (timestamp a - timestamp b)%Z.

Definition deref (h : list BatchTransaction) (r : nat)
    : option BatchTransaction := h !! r.

(** [r] goes before [r'] *)
Definition before (h : list BatchTransaction) (r r' : nat) : bool :=
  match deref h r, deref h r' with
  | Some a, Some b => (compare a b <? 0)%Z
  | _, _ => false
  end.

(** [Array.prototype.sort] is stable.  So is insertion sort that takes the
    elements from the right and puts each in front of the sorted rest,
    moving it behind those elements only that go strictly before it. *)
Fixpoint insertSorted (h : list BatchTransaction) (r : nat)
    (sorted : list nat) : list nat :=
  match sorted with
  | [] => [r]
  | r' :: rest =>
      if before h r' r then r' :: insertSorted h r rest
      else r :: r' :: rest
  end.

Definition sortRefs (h : list BatchTransaction) (q : list nat)
    : list nat :=
  fold_right (insertSorted h) [] q.

Definition sortQueue (st : t) : t :=
  {| heap := heap st; queue := sortRefs (heap st) (queue st);
     processing := processing st; config := config st;
     timers := timers st; nextTick := nextTick st;
     submitted := submitted st |}.

(** [addTransaction(payload, priority)]; [txId] is the generated id. *)
Definition addTransaction (txId : string) (pl : P) (prio : Z) (now : Z)
    (st : t) : t :=
  let tx := {| id := txId; payload := pl; priority := prio;
               timestamp := now; retries := 0 |} in
  sortQueue
    {| heap := heap st ++ [tx]; queue := queue st ++ [length (heap st)];
       processing := processing st; config := config st;
       timers := timers st; nextTick := nextTick st;
       submitted := submitted st |}.

(** [removeTransaction(id)]: drop every reference to a transaction with
    this id. *)
Definition removeTransaction (txId : string) (st : t) : t :=
  {| heap := heap st;
     queue := List.filter
                (fun r => match deref (heap st) r with
                          | Some tx => negb (String.eqb (id tx) txId)
                          | None => true
                          end) (queue st);
     processing := processing st; config := config st;
     timers := timers st; nextTick := nextTick st;
     submitted := submitted st |}.

Definition setRetries (r : nat) (n : Z) (st : t) : t :=
  {| heap := match deref (heap st) r with
             | Some tx => <[r := mkTx (id tx) (payload tx) (priority tx)
                                   (timestamp tx) n]> (heap st)
             | None => heap st
             end;
     queue := queue st; processing := processing st;
     config := config st; timers := timers st; nextTick := nextTick st;
     submitted := submitted st |}.

Definition addTimer (due : Z) (r : nat) (st : t) : t :=
  {| heap := heap st; queue := queue st; processing := processing st;
     config := config st; timers := timers st ++ [(due, r)];
     nextTick := nextTick st; submitted := submitted st |}.

Definition logSubmit (now : Z) (r : nat) (st : t) : t :=
  {| heap := heap st; queue := queue st; processing := processing st;
     config := config st; timers := timers st; nextTick := nextTick st;
     submitted := submitted st ++ [(now, r)] |}.

Definition setProcessing (b : bool) (st : t) : t :=
  {| heap := heap st; queue := queue st; processing := b;
     config := config st; timers := timers st; nextTick := nextTick st;
     submitted := submitted st |}.

(** What [processBatch] collects in its local [results]. *)
Inductive Result := Hash (h : string) | Failure (e : JS.error).

(** The wallet: how the submission of a transaction ends. *)
Variable submitTransaction : BatchTransaction -> JS.outcome string.

(** The part of the [async] callback of [batch.map] that runs once the
    submission of [r] is settled. *)
Definition settle (now : Z) (r : nat)
    (acc : list (string * Result) * t) : list (string * Result) * t :=
  let '(results, st) := acc in
  match deref (heap st) r with
  | None => acc
  | Some tx =>
      match submitTransaction tx with
      | JS.Returned h =>
          (results ++ [(id tx, Hash h)], removeTransaction (id tx) st)
      | JS.Thrown e =>
          if (retries tx <? maxRetries (config st))%Z then
            let n := (retries tx + 1)%Z in
            (results,
             addTimer (now + retryDelay (config st) * n) r
               (setRetries r n st))
          else
            (results ++ [(id tx, Failure e)],
             removeTransaction (id tx) st)
      end
  end.

(** [processBatch()] at time [now].  Every transaction of the batch is
    submitted when [batch.map] runs; the submissions are settled in the
    order of the batch, before any other timer runs. *)
Definition processBatch (now : Z) (st : t)
    : list (string * Result) * t :=
  if processing st || bool_decide (queue st = []) then ([], st)
  else
    let st1 := setProcessing true st in
    let batch := take (maxBatchSize (config st1)) (queue st1) in
    let st2 := foldl (fun s r => logSubmit now r s) st1 batch in
    let '(results, st3) :=
      foldl (fun acc r => settle now r acc) ([], st2) batch in
    (results, setProcessing false st3).

(** The callback of a retry timer: [queue.push(tx); sortQueue()]. *)
Definition retryTimer (r : nat) (st : t) : t :=
  sortQueue
    {| heap := heap st; queue := queue st ++ [r];
       processing := processing st; config := config st;
       timers := timers st; nextTick := nextTick st;
       submitted := submitted st |}.

(** The pending retry timer that is due first; among timers due at the
    same time, the one set first. *)
Fixpoint earliest (ts : list (Z * nat)) : option (Z * nat) :=
  match ts with
  | [] => None
  | (due, r) :: rest =>
      match earliest rest with
      | Some (due', r') =>
          if (due' <? due)%Z then Some (due', r') else Some (due, r)
      | None => Some (due, r)
      end
  end.

Fixpoint removeTimer (tm : Z * nat) (ts : list (Z * nat))
    : list (Z * nat) :=
  match ts with
  | [] => []
  | tm' :: rest =>
      if bool_decide (tm = tm') then rest
      else tm' :: removeTimer tm rest
  end.

(** One turn of the event loop: the retry timer that is due before the
    next tick of the processing interval, else that tick. *)
Definition step (st : t) : t :=
  let tick :=
    let now := nextTick st in
    let '(_, st1) := processBatch now st in
    {| heap := heap st1; queue := queue st1;
       processing := processing st1; config := config st1;
       timers := timers st1;
       nextTick := now + processingInterval (config st1);
       submitted := submitted st1 |} in
  match earliest (timers st) with
  | Some (due, r) =>
      if (due <? nextTick st)%Z then
        retryTimer r
          {| heap := heap st; queue := queue st;
             processing := processing st; config := config st;
             timers := removeTimer (due, r) (timers st);
             nextTick := nextTick st; submitted := submitted st |}
      else tick
  | None => tick
  end.

Fixpoint run (n : nat) (st : t) : t :=
  match n with
  | O => st
  | S n' => run n' (step st)
  end.

(** The times at which the transaction [r] was submitted. *)
Definition attempts (r : nat) (st : t) : list Z :=
  fst <$> List.filter (fun s => (snd s =? r)%nat) (submitted st).

(** The order of the queue: [a] may stand in front of [b] when its
    priority is higher, or the same and it is not the later one. *)
Definition inOrder (a b : BatchTransaction) : Prop :=
  (priority b < priority a)%Z \/
  (priority a = priority b /\ (timestamp a <= timestamp b)%Z).

Fixpoint ordered (txs : list BatchTransaction) : Prop :=
  match txs with
  | [] => True
  | a :: rest => Forall (inOrder a) rest /\ ordered rest
  end.

(** Every reference of the queue points to a transaction. *)
Definition valid (st : t) : Prop :=
  Forall (fun r => is_Some (deref (heap st) r)) (queue st).

(** The transactions of the queue, in its order. *)
Definition transactions (st : t) : list BatchTransaction :=
  omap (deref (heap st)) (queue st).

(** What [processBatch] records for a transaction whose submission is
    not retried. *)
Definition recorded (tx : BatchTransaction) : string * Result :=
  (id tx, match submitTransaction tx with
          | JS.Returned hash => Hash hash
          | JS.Thrown e => Failure e
          end).

Definition withQueue (q : list nat) (st : t) : t :=
  {| heap := heap st; queue := q; processing := processing st;
     config := config st; timers := timers st; nextTick := nextTick st;
     submitted := submitted st |}.

End Queue.

Arguments BatchTransaction P : clear implicits.
Arguments t P : clear implicits.

End BatchProcessor.

(** ** The batch processor of the assessment agent

    [BatchProcessor] of the move agent: it sends assessments to the ledger
    in batches of at most ten. *)

Module AssessmentBatches.

Definition MAX_BATCH_SIZE : nat := 10.

Section Split.

Context {T : Type}.

(** The loop of [splitIntoBatches] from the index [i] on:
    [batches.push(items.slice(i, i + MAX_BATCH_SIZE))] while
    [i < items.length].  [fuel] bounds the number of iterations. *)
Fixpoint splitFrom (fuel : nat) (i : nat) (items : list T)
    : list (list T) :=
  match fuel with
  | O => []
  | S fuel' =>
      if (i <? length items)%nat then
        take MAX_BATCH_SIZE (drop i items)
        :: splitFrom fuel' (i + MAX_BATCH_SIZE) items
      else []
  end.

(** [splitIntoBatches(items)]; the loop makes no more iterations than
    there are items. *)
Definition splitIntoBatches (items : list T) : list (list T) :=
  splitFrom (length items) 0 items.

End Split.

Record Assessment := mkAssessment {
  borrowerAddress : string;
  score : Q;
  reportHash : string
}.

(** The arguments of a [batch_process_assessments] transaction. *)
Record Payload := mkPayload {
  function : string;
  addresses : list string;
  scores : list Q;
  reportHashes : list (list N)
}.

Section Processor.

(** The results of transactions, opaque to the processor. *)
Context {TransactionResult : Type}.

Variable moduleAddress : string.

(** [stringToBytes]: the UTF-8 encoding of a string. *)
Variable stringToBytes : string -> list N.

(** The client: [submitTransaction] returns a hash or throws, and
    [waitForTransactionWithResult] returns the result or throws. *)
Variable submitTransaction : Payload -> JS.outcome string.
Variable waitForTransactionWithResult :
  string -> JS.outcome TransactionResult.

Definition payloadOf (batch : list Assessment) : Payload :=
  {| function :=
       moduleAddress
       +:+ "::integrated_credit_sbt::batch_process_assessments";
     addresses := borrowerAddress <$> batch;
     scores := score <$> batch;
     reportHashes := (fun a => stringToBytes (reportHash a)) <$> batch |}.

(** The [for] loop of [batchProcessAssessments] over the batches that are
    left.  [sent] is not a variable of the source: it lists the payloads
    handed to [submitTransaction], oldest first. *)
Fixpoint processBatches (batches : list (list Assessment))
    (results : list TransactionResult) (sent : list Payload)
    : JS.outcome (list TransactionResult) * list Payload :=
  match batches with
  | [] => (JS.Returned results, sent)
  | batch :: rest =>
      let payload := payloadOf batch in
      match submitTransaction payload with
      | JS.Thrown e => (JS.Thrown e, sent ++ [payload])
      | JS.Returned txnHash =>
          match waitForTransactionWithResult txnHash with
          | JS.Thrown e => (JS.Thrown e, sent ++ [payload])
          | JS.Returned result =>
              processBatches rest (results ++ [result]) (sent ++ [payload])
          end
      end
  end.

(** [batchProcessAssessments(assessments)] *)
Definition batchProcessAssessments (assessments : list Assessment)
    : JS.outcome (list TransactionResult) * list Payload :=
  processBatches (splitIntoBatches assessments) [] [].

(** The batch is accepted: its transaction is submitted and confirmed. *)
Definition accepted (batch : list Assessment) : Prop :=
  exists txnHash result,
    submitTransaction (payloadOf batch) = JS.Returned txnHash /\
    waitForTransactionWithResult txnHash = JS.Returned result.

(** The batch is refused with the exception [e]. *)
Definition refused (e : JS.error) (batch : list Assessment) : Prop :=
  submitTransaction (payloadOf batch) = JS.Thrown e \/
  exists txnHash,
    submitTransaction (payloadOf batch) = JS.Returned txnHash /\
    waitForTransactionWithResult txnHash = JS.Thrown e.

End Processor.

End AssessmentBatches.

(** ** Sequences of operations on a rate limiter *)

Module LimiterTrace.

Import RateLimiter.

(** What can happen to a limiter: a whole [acquire] call, with the clock
    readings of its iterations, or a tick of the refill timer. *)
Inductive Op :=
| OpAcquire (key : string) (cost : Q) (timeout : Z) (now : Z)
    (polls : list Z)
| OpRefill (now : Z).

Definition applyOp (st : t) (op : Op) : t :=
  match op with
  | OpAcquire key cost timeout now polls =>
      snd (acquire key cost timeout now polls st)
  | OpRefill now => refillAll now st
  end.

Definition runOps (ops : list Op) (st : t) : t := foldl applyOp st ops.

(** The clock readings of an operation, in the order they are taken. *)
Definition opTimes (op : Op) : list Z :=
  match op with
  | OpAcquire _ _ _ now polls => now :: polls
  | OpRefill now => [now]
  end.

(** The clock does not go back: each reading is at least the one before,
    starting from [t0]. *)
Fixpoint monotoneFrom (t0 : Z) (readings : list Z) : Prop :=
  match readings with
  | [] => True
  | r :: rest => (t0 <= r)%Z /\ monotoneFrom r rest
  end.

(** The time of the last reading. *)
Fixpoint lastReading (t0 : Z) (readings : list Z) : Z :=
  match readings with
  | [] => t0
  | r :: rest => lastReading r rest
  end.

(** A request asks for a number of tokens that is not negative. *)
Definition costOk (op : Op) : Prop :=
  match op with
  | OpAcquire _ cost _ _ _ => (0 <= cost)%Q
  | OpRefill _ => True
  end.

Definition configOk (cfg : RateLimiterConfig) : Prop :=
  (0 <= maxTokens cfg)%Q /\ (0 <= refillRate cfg)%Q.

Definition bucketOk (cfg : RateLimiterConfig) (now : Z) (b : TokenBucket)
    : Prop :=
  (0 <= tokens b)%Q /\ (tokens b <= maxTokens cfg)%Q /\
  (lastRefill b <= now)%Z.

(** Every bucket holds between 0 and [maxTokens] tokens and was last
    refilled at or before [now]. *)
Definition bucketsOk (now : Z) (st : t) : Prop :=
  forall key b, buckets st !! key = Some b -> bucketOk (config st) now b.

(** A sample run: four requests for the key of the hedge service, one of
    them polling under a timeout, and a tick of the refill timer. *)
Definition sampleOps : list Op :=
  [ OpAcquire "hedge" 1 0 1000 [];
    OpRefill 1500;
    OpAcquire "hedge" 100 200 2000 [2100; 2200]%Z;
    OpAcquire "hedge" 3 0 2300 [] ].

(** The clock reading [reading] is at or past the deadline of an
    [acquire] that started at [start]: [Date.now() - startTime >= timeout]. *)
Definition deadlineReached (timeout start reading : Z) : Prop :=
  (timeout <= reading - start)%Z.

(** An operation that does not wait: a refill, or an [acquire] with no
    timeout. *)
Definition immediate (op : Op) : Prop :=
  match op with
  | OpAcquire _ _ timeout _ _ => timeout = 0%Z
  | OpRefill _ => True
  end.

(** Every request that was counted was accepted or rejected. *)
Definition counted (s : RateLimiterStats) : Prop :=
  (totalRequests s == acceptedRequests s + rejectedRequests s)%Q.

Definition statsOk (st : t) : Prop :=
  forall key s, stats st !! key = Some s -> counted s.

End LimiterTrace.

(** ** Sequences of operations on a cache *)

Module CacheTrace.

Import SmartCache.

Section Trace.

Context {V : Type} (stringifyLength : V -> option Z).

(** The calls of the public methods of a cache, and the run of its
    cleanup timer, each with the clock reading of the call. *)
Inductive Op :=
| OpSet (key : string) (d : V) (now : Z)
| OpGet (key : string) (now : Z)
| OpDelete (key : string)
| OpCleanup (now : Z)
| OpClear (now : Z).

Definition applyOp (fuel : nat) (op : Op) (st : t V) : option (t V) :=
  match op with
  | OpSet key d now => set stringifyLength fuel key d now st
  | OpGet key now => Some (snd (get key now st))
  | OpDelete key => Some (snd (remove key st))
  | OpCleanup now => Some (cleanup now st)
  | OpClear now => Some (clear now st)
  end.

(** A sequence of calls; [None] when a [set] does not return. *)
Fixpoint runOps (fuel : nat) (ops : list Op) (st : t V) : option (t V) :=
  match ops with
  | [] => Some st
  | op :: rest =>
      match applyOp fuel op st with
      | Some st1 => runOps fuel rest st1
      | None => None
      end
  end.

(** The bytes that the entries of the cache account for. *)
Fixpoint bytes (m : list (string * CacheItem V)) : Z :=
  match m with
  | [] => 0
  | kv :: rest => size (snd kv) + bytes rest
  end.

(** No entry has a negative size. *)
Definition nonneg (m : list (string * CacheItem V)) : Prop :=
  Forall (fun kv => (0 <= size (snd kv))%Z) m.

(** The accounting is sound: no entry has a negative size, the entries are
    covered by [totalSize], and [totalSize] is within [maxSize]. *)
Definition sizeOk (st : t V) : Prop :=
  nonneg (cache st) /\
  (bytes (cache st) <= totalSize (stats st))%Z /\
  (totalSize (stats st) <= maxSize (config st))%Z.

End Trace.

Arguments Op V : clear implicits.

End CacheTrace.

(** ** Sequences of operations on a monitor *)

Module MonitorTrace.

Import CreditMonitor Monitoring.

Section Trace.

Variable stringifyLength : Q -> option Z.
Variable fuel : nat.

(** What can happen to a monitor and to the services it shares: the calls
    of its public methods, a check (a tick of a monitoring timer, or a
    retry), a hedge that another caller asks the hedge service for, an
    iteration of the rebalancing timer of the hedge service, and a call
    of a method of the shared cache or a tick of its cleanup timer. *)
Inductive Op :=
| OpStart (borrowerId : string) (initialCreditScore loan : Q) (now : Z)
| OpStop (borrowerId : string) (now : Z)
| OpCheck (wallet : HedgeContract.Wallet) (mkt : Market.t)
    (clk : CheckClock) (borrowerId : string) (loan : Q) (retryCount : Z)
| OpUpdateConfig (newConfig : PartialConfig) (now : Z)
| OpOnAlert (callback : AlertCallback)
| OpHedge (mkt : Market.t) (clk : HedgeService.Clock)
    (borrowerId : string) (creditScore : Q) (loan : JS.number)
| OpRebalance (mkt : Market.t) (clk : HedgeService.Clock)
    (positionId : string)
| OpCache (op : CacheTrace.Op Q).

(** The observers that the operation called, and the monitor after it;
    [None] when the operation does not return. *)
Definition applyOp (op : Op) (st : t) : option (list nat * t) :=
  match op with
  | OpStart borrowerId score loan now =>
      pair [] <$> startMonitoring stringifyLength fuel borrowerId
                    (Some score) loan now st
  | OpStop borrowerId now => Some ([], stopMonitoring borrowerId now st)
  | OpCheck wallet mkt clk borrowerId loan retryCount =>
      checkCreditScore stringifyLength fuel wallet mkt clk borrowerId loan
        retryCount st
  | OpUpdateConfig newConfig now =>
      pair [] <$> updateConfig stringifyLength fuel newConfig now st
  | OpOnAlert callback => Some ([], onAlert callback st)
  | OpHedge mkt clk borrowerId score loan =>
      match HedgeService.evaluateAndHedge stringifyLength fuel mkt clk
              borrowerId score loan (hedge st) with
      | Some (_, h) => Some ([], withHedge h st)
      | None => None
      end
  | OpRebalance mkt clk positionId =>
      match HedgeService.rebalanceEntry stringifyLength fuel mkt clk
              positionId (hedge st) with
      | Some h => Some ([], withHedge h st)
      | None => None
      end
  | OpCache op =>
      match CacheTrace.applyOp stringifyLength fuel op
              (HedgeService.cache (hedge st)) with
      | Some c =>
          Some ([], withHedge (HedgeService.withCache c (hedge st)) st)
      | None => None
      end
  end.

(** A sequence of operations: the observers called by each of them, in
    order, and the monitor at the end. *)
Fixpoint runOps (ops : list Op) (st : t) : option (list (list nat) * t) :=
  match ops with
  | [] => Some ([], st)
  | op :: rest =>
      match applyOp op st with
      | None => None
      | Some (called, st1) =>
          match runOps rest st1 with
          | None => None
          | Some (calls, st2) => Some (called :: calls, st2)
          end
      end
  end.



End Trace.

End MonitorTrace.

(** ** Sample inputs *)

Module Sample.

(** A limiter whose bucket for ["orders"] exists and is full. *)
Definition limiter : RateLimiter.t :=
  snd (RateLimiter.acquire "orders" 0 0 0 []
         (RateLimiter.create RateLimiter.defaultConfig)).

(** A batch that names one key twice. *)
Definition duplicateBatch : list RateLimiter.Request :=
  [ RateLimiter.mkRequest "orders" 60;
    RateLimiter.mkRequest "orders" 60 ].

(** A batch with a request for a new key that exceeds a full bucket. *)
Definition oversizedBatch : list RateLimiter.Request :=
  [ RateLimiter.mkRequest "orders" 1;
    RateLimiter.mkRequest "reports" 101 ].

(** Two observers: the first throws, the second does not. *)
Definition throwing : CreditMonitor.AlertCallback :=
  fun _ => JS.Thrown (JS.Error "observer failed").

Definition quiet : CreditMonitor.AlertCallback :=
  fun _ => JS.Returned tt.

Definition alert : CreditMonitor.CreditAlert :=
  {| CreditMonitor.borrowerId := "alice";
     CreditMonitor.oldScore := 620;
     CreditMonitor.newScore := 480;
     CreditMonitor.timestamp := 0;
     CreditMonitor.riskLevel := CreditMonitor.High |}.

(** A cache of strings with room for 16 bytes; the JSON text of a string
    is the string in quotes. *)
Definition textLength (s : string) : option Z :=
  Some (Z.of_nat (String.length s) + 2)%Z.

Definition smallCache : SmartCache.t string :=
  SmartCache.create
    {| SmartCache.maxSize := 16; SmartCache.maxAge := 1000;
       SmartCache.cleanupInterval := 60000 |} 0.

(** The cache after ["a"] was stored at time 0 and read at time 10. *)
Definition usedCache : SmartCache.t string :=
  match SmartCache.set textLength 0 "a" "1234" 0 smallCache with
  | Some c => snd (SmartCache.get "a" 10 c)
  | None => smallCache
  end.

(** A transaction whose submission always fails, queued at time 0 in a
    processor with the default configuration. *)
Definition failing : BatchProcessor.BatchTransaction unit
                     -> JS.outcome string :=
  fun _ => JS.Thrown (JS.Error "submission failed").

Definition queued : BatchProcessor.t unit :=
  BatchProcessor.addTransaction "tx_0_a" tt 0 0
    (BatchProcessor.create BatchProcessor.defaultConfig 0).

Import HedgeService.

(** The JSON text of the sample price, [2000], has four characters. *)
Definition stringifyLength (price : Q) : option Z := Some 4%Z.

Definition fuel : nat := 8.

(** A market that quotes 2000 and fills every order. *)
Definition fillingMarket : Market.t :=
  {| Market.getPrice := fun _ => JS.Returned 2000%Q;
     Market.executeMarketOrder := fun order =>
       JS.Returned {| Market.orderId := "order";
                      Market.status := Market.Filled;
                      Market.filledAmount := Market.amount order;
                      Market.avgPrice := 2000%Q;
                      Market.timestamp := 0%Z |} |}.

(** A market that quotes 2000 and rejects every order. *)
Definition rejected : JS.error := JS.Error "order rejected".

Definition rejectingMarket : Market.t :=
  {| Market.getPrice := fun _ => JS.Returned 2000%Q;
     Market.executeMarketOrder := fun _ => JS.Thrown rejected |}.

(** A new service with the default configurations. *)
Definition service : t :=
  create defaultConfig (RateLimiter.create RateLimiter.defaultConfig)
    (SmartCache.create SmartCache.defaultConfig 0%Z).

Definition firstCall : Clock :=
  {| atEntry := 1000%Z; atPrice := 1010%Z; atOrder := 1020%Z |}.

Definition secondCall : Clock :=
  {| atEntry := 2000%Z; atPrice := 2010%Z; atOrder := 2020%Z |}.

Definition hedge (mkt : Market.t) (clk : Clock) (score : Q) (st : t)
    : option (JS.outcome unit * t) :=
  evaluateAndHedge stringifyLength fuel mkt clk "alice" score
    (JS.Fin 50000) st.

(** The service after a first, filled hedge for the borrower. *)
Definition hedged : t :=
  match hedge fillingMarket firstCall 550 service with
  | Some (_, st1) => st1
  | None => service
  end.

(** Two calls for one borrower, one second apart, both filled. *)
Definition twoHedges : option (JS.outcome unit * t) :=
  match hedge fillingMarket firstCall 550 service with
  | Some (_, st1) => hedge fillingMarket secondCall 540 st1
  | None => None
  end.

End Sample.

(** ** Further sample inputs *)

Module Scenario.


(** Two prices, stored at times 0 and 250000 in a price cache with the
    default maximal age of five minutes. *)
Definition twoPrices : PriceCache.t Z :=
  PriceCache.set "BTC/USDC" 60000%Z 250000
    (PriceCache.set "ETH/USDC" 2000%Z 0
       (PriceCache.create PriceCache.defaultConfig)).

(** Calls on the sample cache of 16 bytes.  ["1234"] takes 12 bytes,
    [""] takes 4 and ["x"] takes 6; the maximal age is one second. *)
Definition cacheCalls : list (CacheTrace.Op string) :=
  [ CacheTrace.OpSet "a" "1234" 0;
    CacheTrace.OpSet "b" "" 10;
    CacheTrace.OpGet "a" 20;
    CacheTrace.OpSet "c" "x" 30;
    CacheTrace.OpSet "b" "x" 40;
    CacheTrace.OpDelete "c";
    CacheTrace.OpCleanup 1035;
    CacheTrace.OpGet "b" 1050 ].

(** The sample cache after the empty string was stored four times under
    the key ["a"]. *)
Definition countedTwice : option (SmartCache.t string) :=
  CacheTrace.runOps Sample.textLength 0
    [ CacheTrace.OpSet "a" "" 0; CacheTrace.OpSet "a" "" 1;
      CacheTrace.OpSet "a" "" 2; CacheTrace.OpSet "a" "" 3 ]
    Sample.smallCache.

(** A market that quotes 1800 and fills every order. *)
Definition fallenMarket : Market.t :=
  {| Market.getPrice := fun _ => JS.Returned 1800%Q;
     Market.executeMarketOrder := fun order =>
       JS.Returned {| Market.orderId := "order";
                      Market.status := Market.Filled;
                      Market.filledAmount := Market.amount order;
                      Market.avgPrice := 1800%Q;
                      Market.timestamp := 0%Z |} |}.

(** A market that has no price, and would fill every order. *)
Definition silentMarket : Market.t :=
  {| Market.getPrice := fun _ => JS.Thrown (JS.Error "no price");
     Market.executeMarketOrder :=
       Market.executeMarketOrder Sample.fillingMarket |}.

(** A call more than half an hour after the first one, when the cached
    price has expired. *)
Definition laterCall : HedgeService.Clock :=
  {| HedgeService.atEntry := 2000000%Z; HedgeService.atPrice := 2000010%Z;
     HedgeService.atOrder := 2000020%Z |}.

(** The id of the position that the first sample call opens. *)
Definition firstPosition : string :=
  HedgeService.positionId 1020 "alice".

(** A new service whose bucket of hedge operations has been emptied at
    time 1000. *)
Definition drained : HedgeService.t :=
  HedgeService.withRateLimiter
    (snd (RateLimiter.acquire "hedge" 100 0 1000 []
            (RateLimiter.create RateLimiter.defaultConfig)))
    Sample.service.

(** A monitor over the sample service with one observer, and the monitor
    after [startMonitoring("alice", 620, 50000)] at time 0. *)
Definition monitor : Monitoring.t :=
  Monitoring.onAlert Sample.quiet
    (Monitoring.create Sample.service Monitoring.defaultConfig).

Definition monitored : Monitoring.t :=
  default monitor
    (Monitoring.startMonitoring Sample.stringifyLength Sample.fuel
       "alice" (Some 620%Q) 50000 0 monitor).

(** A wallet that rejects every transaction, and one that signs every
    transaction. *)
Definition refusingWallet : HedgeContract.Wallet :=
  fun _ => JS.Thrown (JS.Error "rejected by the wallet").


(** The first tick of the monitoring timer, after one minute. *)
Definition firstCheck : Monitoring.CheckClock :=
  {| Monitoring.atGet := 60000; Monitoring.atSet := 60001;
     Monitoring.atWallet := 60050;
     Monitoring.atHedge :=
       {| HedgeService.atEntry := 60051; HedgeService.atPrice := 60060;
          HedgeService.atOrder := 60070 |};
     Monitoring.atTriggered := 60071; Monitoring.atAlert := 60072;
     Monitoring.atCatch := 60073 |}.

(** A wallet that accepts every transaction of the queue. *)
Definition accepting : BatchProcessor.BatchTransaction unit
                       -> JS.outcome string :=
  fun tx => JS.Returned ("hash_" +:+ BatchProcessor.id tx).

(** A processor that takes two transactions per batch, with two
    transactions queued: the second has the higher priority. *)
Definition pairs : BatchProcessor.BatchConfig :=
  {| BatchProcessor.maxBatchSize := 2; BatchProcessor.maxRetries := 3;
     BatchProcessor.retryDelay := 1000;
     BatchProcessor.processingInterval := 5000 |}.

Definition twoQueued : BatchProcessor.t unit :=
  BatchProcessor.addTransaction "tx_1_b" tt 5 1
    (BatchProcessor.addTransaction "tx_0_a" tt 0 0
       (BatchProcessor.create pairs 0)).

(** A third transaction, of the lower priority, is added at time 2. *)
Definition threeQueued : BatchProcessor.t unit :=
  BatchProcessor.addTransaction "tx_2_c" tt 0 2 twoQueued.



End Scenario.

(** * Properties *)

(** ** RateLimiter *)

Section RateLimiterFacts.

Import RateLimiter LimiterTrace.

Lemma refillBucket_lastRefill cfg now b :
  lastRefill (refillBucket cfg now b) = now.
Proof. reflexivity. Qed.

Lemma refillBucket_le_max cfg now b :
  (tokens (refillBucket cfg now b) <= maxTokens cfg)%Q.
Proof. cbn. apply Q.le_min_l. Qed.

Lemma tokensToAdd_nonneg (rate : Q) (elapsed : Z) :
  (0 <= rate)%Q -> (0 <= elapsed)%Z ->
  (0 <= inject_Z elapsed / 1000 * rate)%Q.
Proof.
  intros Hr He.
  assert (0 <= inject_Z elapsed)%Q as Hq
    by (change 0%Q with (inject_Z 0); now rewrite <- Zle_Qle).
  apply Qmult_le_0_compat; [|assumption].
  apply Qle_shift_div_l; [reflexivity|]. rewrite Qmult_0_l. exact Hq.
Qed.

Lemma refillBucket_ok cfg t0 now b :
  configOk cfg -> bucketOk cfg t0 b -> (t0 <= now)%Z ->
  bucketOk cfg now (refillBucket cfg now b).
Proof.
  intros [Hmax Hrate] (Hlo & Hhi & Hlast) Hnow.
  split; [|split]; [|apply refillBucket_le_max|cbn; lia].
  cbn. apply Q.min_glb; [assumption|].
  pose proof (tokensToAdd_nonneg (refillRate cfg) (now - lastRefill b)
                Hrate ltac:(lia)).
  lra.
Qed.

Lemma bucketOk_later cfg t0 t1 b :
  bucketOk cfg t0 b -> (t0 <= t1)%Z -> bucketOk cfg t1 b.
Proof. intros (? & ? & ?) ?. repeat split; try assumption. lia. Qed.

Lemma monotoneFrom_last readings : forall t0,
  monotoneFrom t0 readings -> (t0 <= lastReading t0 readings)%Z.
Proof.
  induction readings as [|r rest IH]; intros t0 H; cbn; [lia|].
  destruct H as [H1 H2]. specialize (IH r H2). lia.
Qed.

(** The loop of [acquire] keeps a bucket within its bounds. *)
Lemma acquireLoop_ok cfg cost timeout start polls : forall t0 b,
  configOk cfg -> (0 <= cost)%Q -> bucketOk cfg t0 b ->
  monotoneFrom t0 polls ->
  bucketOk cfg (lastReading t0 polls)
    (snd (acquireLoop cfg cost timeout start polls b)).
Proof.
  induction polls as [|now rest IH]; intros t0 b Hcfg Hcost Hb Hmono.
  - exact Hb.
  - destruct Hmono as [Hnow Hrest].
    pose proof (refillBucket_ok cfg t0 now b Hcfg Hb Hnow) as Hb1.
    pose proof (monotoneFrom_last rest now Hrest) as Hlast.
    cbn [lastReading acquireLoop].
    destruct (Qle_bool cost (tokens (refillBucket cfg now b))) eqn:Hfit.
    + apply Qle_bool_iff in Hfit. destruct Hb1 as (Hlo & Hhi & Hl).
      cbn [snd]. unfold bucketOk. cbn [tokens lastRefill] in *.
      repeat split; [lra|lra|lia].
    + destruct ((timeout =? 0)%Z || (timeout <=? now - start)%Z).
      * cbn [snd]. eapply bucketOk_later; eassumption.
      * apply IH; assumption.
Qed.

Lemma updateStats_buckets key f v st :
  buckets (updateStats key f v st) = buckets st.
Proof. unfold updateStats. now destruct (stats st !! key). Qed.

Lemma updateStats_config key f v st :
  config (updateStats key f v st) = config st.
Proof. unfold updateStats. now destruct (stats st !! key). Qed.

(** [acquire] touches the bucket of its key only, and leaves there what
    its loop computes. *)
Lemma acquire_spec key cost timeout now polls st :
  let r := acquireLoop (config st) cost timeout now (now :: polls)
             (bucketAt key now st) in
  fst (acquire key cost timeout now polls st) = fst r /\
  buckets (snd (acquire key cost timeout now polls st))
    = <[key := snd r]> (buckets st) /\
  config (snd (acquire key cost timeout now polls st)) = config st.
Proof.
  unfold acquire, bucketAt.
  destruct (buckets st !! key) as [b|] eqn:Hb;
    destruct (acquireLoop _ _ _ _ _ _) as [[[|]|] b'] eqn:Hloop;
    cbn -[acquireLoop];
    rewrite ?updateStats_buckets, ?updateStats_config; cbn;
    rewrite ?updateStats_buckets, ?updateStats_config; cbn;
    rewrite ?insert_insert_eq; auto.
Qed.

Lemma acquire_ok key cost timeout now polls st t0 :
  configOk (config st) -> (0 <= cost)%Q -> bucketsOk t0 st ->
  monotoneFrom t0 (now :: polls) ->
  bucketsOk (lastReading t0 (now :: polls))
    (snd (acquire key cost timeout now polls st)).
Proof.
  intros Hcfg Hcost Hst Hmono.
  destruct (acquire_spec key cost timeout now polls st) as (_ & Hbs & Hc).
  pose proof (monotoneFrom_last _ _ Hmono) as Hlast.
  intros k b. rewrite Hbs, Hc, lookup_insert.
  destruct (decide (key = k)) as [->|Hne].
  - intros Heq. apply (inj Some) in Heq. subst b. unfold bucketAt.
    destruct (buckets st !! k) as [b0|] eqn:Hb0.
    + apply acquireLoop_ok; eauto.
    + change (lastReading t0 (now :: polls))
        with (lastReading now (now :: polls)).
      apply acquireLoop_ok; auto.
      * destruct Hcfg. repeat split; cbn; [lra|lra|lia].
      * destruct Hmono. split; [lia|assumption].
  - intros Hk. eapply bucketOk_later; eauto.
Qed.

Lemma refillAll_ok now st t0 :
  configOk (config st) -> bucketsOk t0 st -> (t0 <= now)%Z ->
  bucketsOk now (refillAll now st).
Proof.
  intros Hcfg Hst Hnow k b. cbn. rewrite lookup_fmap.
  destruct (buckets st !! k) as [b0|] eqn:Hb0; [|discriminate].
  intros [= <-]. eapply refillBucket_ok; eauto.
Qed.

Lemma applyOp_config st op : config (applyOp st op) = config st.
Proof.
  destruct op; cbn; [|reflexivity]. apply acquire_spec.
Qed.

Lemma applyOp_ok st op t0 :
  configOk (config st) -> costOk op -> bucketsOk t0 st ->
  monotoneFrom t0 (opTimes op) ->
  bucketsOk (lastReading t0 (opTimes op)) (applyOp st op).
Proof.
  destruct op as [key cost timeout now polls|now]; cbn [costOk opTimes applyOp].
  - intros. now apply acquire_ok.
  - intros Hcfg _ Hst [Hnow _]. now apply refillAll_ok with t0.
Qed.

Lemma monotoneFrom_app l1 : forall t0 l2,
  monotoneFrom t0 (l1 ++ l2) ->
  monotoneFrom t0 l1 /\ monotoneFrom (lastReading t0 l1) l2.
Proof.
  induction l1 as [|r l1 IH]; intros t0 l2 H; cbn in *; [tauto|].
  destruct H as [H1 H2]. apply IH in H2. tauto.
Qed.

Lemma runOps_ok ops : forall st t0,
  configOk (config st) -> Forall costOk ops -> bucketsOk t0 st ->
  monotoneFrom t0 (concat (opTimes <$> ops)) ->
  exists t1, bucketsOk t1 (runOps ops st) /\
             config (runOps ops st) = config st.
Proof.
  induction ops as [|op ops IH]; intros st t0 Hcfg Hcost Hst Hmono.
  - now exists t0.
  - apply Forall_cons in Hcost as [Hop Hcost].
    cbn in Hmono. apply monotoneFrom_app in Hmono as [Hm1 Hm2].
    destruct (IH (applyOp st op) (lastReading t0 (opTimes op)))
      as (t1 & Hok & Hc); auto.
    + now rewrite applyOp_config.
    + now apply applyOp_ok.
    + exists t1.
      change (runOps (op :: ops) st) with (runOps ops (applyOp st op)).
      split; [assumption|]. now rewrite Hc, applyOp_config.
Qed.

(** C6 (amended).  A limiter whose configuration has a non-negative
    capacity and refill rate is driven by any sequence of [acquire] calls (of
    non-negative cost, with or without a timeout) and refill ticks, the
    clock never going back.  If every bucket held between 0 and
    [maxTokens] tokens before, every bucket does so afterwards. *)
Theorem tokens_stay_within_bounds (ops : list Op) (st : t) (t0 : Z) :
  configOk (config st) ->
  Forall costOk ops ->
  monotoneFrom t0 (concat (opTimes <$> ops)) ->
  bucketsOk t0 st ->
  forall key b,
    buckets (runOps ops st) !! key = Some b ->
    (0 <= tokens b)%Q /\ (tokens b <= maxTokens (config st))%Q.
Proof.
  intros Hcfg Hcost Hmono Hst key b Hb.
  destruct (runOps_ok ops st t0) as (t1 & Hok & Hc); auto.
  destruct (Hok key b Hb) as (Hlo & Hhi & _).
  rewrite Hc in Hhi. now split.
Qed.

Lemma tokens_stay_within_bounds_witness :
  exists b,
    buckets (runOps sampleOps (create defaultConfig)) !! "hedge" = Some b /\
    (0 <= tokens b)%Q /\ (tokens b <= 100)%Q.
Proof.
  eexists. split; [vm_compute; reflexivity|].
  apply (tokens_stay_within_bounds sampleOps (create defaultConfig) 0
           ltac:(split; cbn; lra)
           ltac:(repeat constructor; cbn; lra)
           ltac:(cbn; lia)
           ltac:(intros k b H; cbn in H; rewrite lookup_empty in H;
                 discriminate H)
           "hedge").
  vm_compute; reflexivity.
Defined.

(** C6, as stated, fails: [acquire] does not check its arguments and
    [refillBucket] does not check the clock.  A request for -5 tokens is
    served and leaves 105 tokens in a bucket of 100.  After a request for
    100 tokens at time 1000, a refill with the clock back at 0 adds
    -10 tokens and leaves the bucket at -10. *)
Lemma tokens_leave_the_bounds :
  (exists b,
     buckets (runOps [OpAcquire "k" (-5) 0 0 []] (create defaultConfig))
       !! "k" = Some b /\
     (maxTokens defaultConfig < tokens b)%Q) /\
  (exists b,
     buckets (runOps [OpAcquire "k" 100 0 1000 []; OpRefill 0]
                (create defaultConfig)) !! "k" = Some b /\
     (tokens b < 0)%Q).
Proof.
  split; eexists; (split; [vm_compute; reflexivity|]);
    vm_compute; reflexivity.
Qed.

(** Scenario D of the design: capacity 100, 10 tokens per second.  After
    100 tokens were taken, five seconds bring back exactly 50. *)
Example refill_after_five_seconds :
  (available "hedge"
     (runOps [OpAcquire "hedge" 100 0 0 []; OpRefill 5000]
        (create defaultConfig)) == 50)%Q.
Proof. vm_compute. reflexivity. Qed.

End RateLimiterFacts.

(** ** HedgeService *)

Section HedgeServiceFacts.

Import HedgeService.

Variable stringifyLength : Q -> option Z.
Variable fuel : nat.

Local Abbreviation getETHPrice := (getETHPrice stringifyLength fuel).
Local Abbreviation evaluateAndHedge :=
  (evaluateAndHedge stringifyLength fuel).

(** [getETHPrice] only touches the cache. *)
Lemma getETHPrice_frame mkt clk st r st' :
  getETHPrice mkt clk st = Some (r, st') ->
  exists c, st' = withCache c st.
Proof.
  unfold HedgeService.getETHPrice.
  destruct (SmartCache.get _ _ _) as [cached c1].
  destruct (truthy cached) as [price|].
  - intros [= <- <-]. now exists c1.
  - destruct (Market.getPrice mkt _) as [price|e].
    + destruct (SmartCache.set _ _ _ _ _ _) as [c2|]; [|discriminate].
      intros [= <- <-]. now exists c2.
    + intros [= <- <-]. now exists c1.
Qed.

(** Above the threshold the call returns at once and changes nothing. *)
Lemma evaluateAndHedge_above_threshold mkt clk borrowerId score loan st :
  (creditScoreThreshold (config st) < score)%Q ->
  evaluateAndHedge mkt clk borrowerId score loan st
    = Some (JS.Returned tt, st).
Proof.
  intros Hgt. unfold HedgeService.evaluateAndHedge.
  destruct (Qle_bool score _) eqn:Hle; [|reflexivity].
  apply Qle_bool_iff in Hle. lra.
Qed.

(** How an admitted call whose price is known ends, by the answer of the
    market to the order. *)
Lemma evaluateAndHedge_admitted mkt clk borrowerId score loan st rl
    price st2 :
  (score <= creditScoreThreshold (config st))%Q ->
  RateLimiter.acquire "hedge" 1 0 (atEntry clk) [] (rateLimiter st)
    = (Some true, rl) ->
  getETHPrice mkt clk (withRateLimiter rl st)
    = Some (JS.Returned price, st2) ->
  let hedgeAmount := calculateHedgeAmount (config st) loan score in
  let order := {| Market.symbol := "ETH/USDC";
                  Market.side := Market.Sell;
                  Market.amount := JS.div hedgeAmount (JS.Fin price);
                  Market.type := Market.MarketOrderType |} in
  let st3 := snd (executeMarketOrder mkt order st2) in
  evaluateAndHedge mkt clk borrowerId score loan st =
    match Market.executeMarketOrder mkt order with
    | JS.Thrown e => Some (openFailed borrowerId e (atOrder clk) st3)
    | JS.Returned _ =>
        let position :=
          {| id := positionId (atOrder clk) borrowerId;
             openPrice := price; amount := hedgeAmount;
             timestamp := atOrder clk; creditScore := score;
             status := Open; pnl := None |} in
        Some (JS.Returned tt,
              track "hedge" "open_position" "success" hedgeAmount
                borrowerId (atOrder clk)
                (withPositions
                   (<[id position := position]> (positions st3)) st3))
    end.
Proof.
  intros Hle Hacq Hprice. cbv zeta.
  unfold HedgeService.evaluateAndHedge.
  apply Qle_bool_iff in Hle. rewrite Hle. cbn [negb].
  rewrite Hacq, Hprice. unfold executeMarketOrder. cbn [snd].
  now destruct (Market.executeMarketOrder mkt _).
Qed.

(** C4.  A call that is admitted by the rate limiter and gets a price, and
    whose market order is rejected with the exception [e], ends by throwing
    [e], and the position map is the one from before the call. *)
Theorem failed_order_records_nothing mkt clk borrowerId score loan st rl
    price st2 e :
  (score <= creditScoreThreshold (config st))%Q ->
  RateLimiter.acquire "hedge" 1 0 (atEntry clk) [] (rateLimiter st)
    = (Some true, rl) ->
  getETHPrice mkt clk (withRateLimiter rl st)
    = Some (JS.Returned price, st2) ->
  (forall order, Market.executeMarketOrder mkt order = JS.Thrown e) ->
  exists st',
    evaluateAndHedge mkt clk borrowerId score loan st
      = Some (JS.Thrown e, st') /\
    positions st' = positions st.
Proof.
  intros Hle Hacq Hprice Hfail.
  rewrite (evaluateAndHedge_admitted _ _ _ _ _ _ _ _ _ Hle Hacq Hprice).
  rewrite Hfail. eexists. split; [reflexivity|].
  apply getETHPrice_frame in Hprice as [c ->]. reflexivity.
Qed.

(** C10.  A call that is admitted by the rate limiter, one token being taken
    from the bucket of hedge operations, and gets a price, and whose market
    order is rejected, ends by throwing, and the token stays spent: the
    limiter is left as [acquire] left it, and the bucket holds one token
    less than it held, once refilled, when the call came in. *)
Theorem failed_order_keeps_token_spent mkt clk borrowerId score loan st rl
    price st2 e :
  (score <= creditScoreThreshold (config st))%Q ->
  RateLimiter.acquire "hedge" 1 0 (atEntry clk) [] (rateLimiter st)
    = (Some true, rl) ->
  getETHPrice mkt clk (withRateLimiter rl st)
    = Some (JS.Returned price, st2) ->
  (forall order, Market.executeMarketOrder mkt order = JS.Thrown e) ->
  exists st',
    evaluateAndHedge mkt clk borrowerId score loan st
      = Some (JS.Thrown e, st') /\
    rateLimiter st' = rl /\
    let before :=
      RateLimiter.refillBucket (RateLimiter.config (rateLimiter st))
        (atEntry clk)
        (RateLimiter.bucketAt "hedge" (atEntry clk) (rateLimiter st)) in
    (RateLimiter.available "hedge" (rateLimiter st')
       == RateLimiter.tokens before - 1)%Q.
Proof.
  intros Hle Hacq Hprice Hfail.
  rewrite (evaluateAndHedge_admitted _ _ _ _ _ _ _ _ _ Hle Hacq Hprice).
  rewrite Hfail. eexists. split; [reflexivity|].
  apply getETHPrice_frame in Hprice as [c ->].
  split; [reflexivity|]. cbn [openFailed snd track rateLimiter
    executeMarketOrder withCache withRateLimiter].
  destruct (acquire_spec "hedge" 1 0 (atEntry clk) [] (rateLimiter st))
    as (Hr & Hb & _).
  rewrite Hacq in Hr, Hb. cbn [fst snd] in Hr, Hb.
  unfold RateLimiter.available. rewrite Hb, lookup_insert_eq.
  cbn [RateLimiter.acquireLoop] in Hr |- *.
  destruct (Qle_bool 1 _); [reflexivity|].
  rewrite Z.eqb_refl in Hr. discriminate Hr.
Qed.

Lemma append_inv_tail (s1 : string) : forall s2 s : string,
  s1 +:+ s = s2 +:+ s -> s1 = s2.
Proof.
  assert (Hlen : forall a b : string,
             String.length (a +:+ b)
             = (String.length a + String.length b)%nat).
  { induction a as [|c a IH]; intros b; simpl; [reflexivity|].
    f_equal. apply IH. }
  induction s1 as [|c s1 IH]; intros [|c' s2] s H.
  - reflexivity.
  - apply (f_equal String.length) in H. rewrite !Hlen in H.
    simpl in H. lia.
  - apply (f_equal String.length) in H. rewrite !Hlen in H.
    simpl in H. lia.
  - simpl in H. injection H as -> H. f_equal. eauto.
Qed.

(** Positions opened for one borrower at different times have different
    ids. *)
Lemma positionId_inj (t1 t2 : Z) (borrowerId : string) :
  positionId t1 borrowerId = positionId t2 borrowerId -> t1 = t2.
Proof.
  unfold positionId. intros H.
  apply (inj (String.app "hedge_")) in H.
  apply append_inv_tail in H. now apply (inj pretty) in H.
Qed.

(** C1 (amended).  The service does not look for an open position of the
    borrower before it opens one.  When the borrower already has an open
    position, opened at another time, a call that is admitted, gets a
    price and has its order filled returns normally, keeps the old
    position as it is and records a second open position, under the id
    [hedge_<time>_<borrower>] of its own. *)
Theorem hedge_opens_a_further_position mkt clk borrowerId score loan st rl
    price st2 t0 p0 :
  (score <= creditScoreThreshold (config st))%Q ->
  RateLimiter.acquire "hedge" 1 0 (atEntry clk) [] (rateLimiter st)
    = (Some true, rl) ->
  getETHPrice mkt clk (withRateLimiter rl st)
    = Some (JS.Returned price, st2) ->
  (forall order, exists response,
      Market.executeMarketOrder mkt order = JS.Returned response) ->
  positions st !! positionId t0 borrowerId = Some p0 ->
  status p0 = Open ->
  t0 <> atOrder clk ->
  exists st' p,
    evaluateAndHedge mkt clk borrowerId score loan st
      = Some (JS.Returned tt, st') /\
    positionId t0 borrowerId <> positionId (atOrder clk) borrowerId /\
    positions st' !! positionId t0 borrowerId = Some p0 /\
    positions st' !! positionId (atOrder clk) borrowerId = Some p /\
    status p = Open /\
    positions st'
      = <[positionId (atOrder clk) borrowerId := p]> (positions st).
Proof.
  intros Hle Hacq Hprice Hfill Hp0 Hopen Ht.
  rewrite (evaluateAndHedge_admitted _ _ _ _ _ _ _ _ _ Hle Hacq Hprice).
  cbv zeta.
  match goal with
  | |- context [Market.executeMarketOrder mkt ?order] =>
      destruct (Hfill order) as [response ->]
  end.
  do 2 eexists. split; [reflexivity|].
  apply getETHPrice_frame in Hprice as [c ->].
  assert (Hne : positionId t0 borrowerId
                <> positionId (atOrder clk) borrowerId)
    by (intros H; now apply positionId_inj in H).
  cbn. split; [exact Hne|]. split; [|split; [|split]].
  - rewrite lookup_insert_ne by congruence. exact Hp0.
  - apply lookup_insert_eq.
  - reflexivity.
  - reflexivity.
Qed.

(** Closing a position that is unknown or closed already does nothing. *)
Lemma closePosition_noop mkt clk positionId score st :
  (forall p, positions st !! positionId = Some p -> status p = Closed) ->
  closePosition stringifyLength fuel mkt clk positionId score st
    = Some (JS.Returned tt, st).
Proof.
  intros H. unfold closePosition.
  destruct (positions st !! positionId) as [p|]; [|reflexivity].
  now rewrite (H p eq_refl).
Qed.

(** C3 (amended).  With a threshold other than zero and a finite loan
    amount, [calculateHedgeAmount] is the smaller of
    [loanAmount * hedgeRatio * (threshold - score) / threshold] and
    [maxHedgeAmount]; no floor is applied.  The amount is not negative
    when the score is at most a positive threshold and the loan amount,
    the ratio and the cap are not negative. *)
Theorem calculateHedgeAmount_formula cfg loanAmount score :
  ~ (creditScoreThreshold cfg == 0)%Q ->
  exists amount,
    calculateHedgeAmount cfg (JS.Fin loanAmount) score = JS.Fin amount /\
    (amount ==
       Qmin (loanAmount * hedgeRatio cfg
             * ((creditScoreThreshold cfg - score)
                / creditScoreThreshold cfg))
            (maxHedgeAmount cfg))%Q /\
    ((0 < creditScoreThreshold cfg)%Q ->
     (score <= creditScoreThreshold cfg)%Q ->
     (0 <= loanAmount)%Q -> (0 <= hedgeRatio cfg)%Q ->
     (0 <= maxHedgeAmount cfg)%Q ->
     (0 <= amount)%Q).
Proof.
  intros Hthr. unfold calculateHedgeAmount. cbn.
  unfold JS.isZero.
  destruct (Qeq_bool (creditScoreThreshold cfg) 0) eqn:Hz.
  { apply Qeq_bool_iff in Hz. contradiction. }
  cbn. eexists. split; [reflexivity|]. split; [reflexivity|].
  intros Hpos Hle Hloan Hratio Hmax.
  apply Q.min_glb; [|assumption].
  apply Qmult_le_0_compat.
  - now apply Qmult_le_0_compat.
  - apply Qle_shift_div_l; [assumption|]. lra.
Qed.

End HedgeServiceFacts.

Section HedgeServiceSamples.

Import HedgeService Sample.

Lemma failed_order_records_nothing_witness :
  exists st',
    hedge rejectingMarket firstCall 550 service
      = Some (JS.Thrown rejected, st') /\
    positions st' = positions service.
Proof.
  eapply (failed_order_records_nothing stringifyLength fuel
            rejectingMarket firstCall "alice" 550 (JS.Fin 50000) service).
  - vm_compute. discriminate.
  - vm_compute. reflexivity.
  - vm_compute. reflexivity.
  - intros order. reflexivity.
Defined.

Lemma failed_order_keeps_token_spent_witness :
  exists st',
    hedge rejectingMarket firstCall 550 service
      = Some (JS.Thrown rejected, st') /\
    (RateLimiter.available "hedge" (rateLimiter st') == 99)%Q.
Proof.
  destruct (failed_order_keeps_token_spent stringifyLength fuel
              rejectingMarket firstCall "alice" 550 (JS.Fin 50000) service
              _ _ _ rejected
              ltac:(vm_compute; discriminate)
              ltac:(vm_compute; reflexivity)
              ltac:(vm_compute; reflexivity)
              ltac:(intros order; reflexivity))
    as (st' & Hcall & _ & Htokens).
  exists st'. split; [exact Hcall|].
  rewrite Htokens. vm_compute. reflexivity.
Defined.

Lemma hedge_opens_a_further_position_witness :
  exists st' p0 p,
    hedge fillingMarket secondCall 540 hedged
      = Some (JS.Returned tt, st') /\
    positions st' !! "hedge_1020_alice" = Some p0 /\
    status p0 = Open /\
    positions st' !! "hedge_2020_alice" = Some p /\
    status p = Open.
Proof.
  destruct (hedge_opens_a_further_position stringifyLength fuel
              fillingMarket secondCall "alice" 540 (JS.Fin 50000) hedged
              _ _ _ 1020%Z _
              ltac:(vm_compute; discriminate)
              ltac:(vm_compute; reflexivity)
              ltac:(vm_compute; reflexivity)
              ltac:(intros order; eexists; reflexivity)
              ltac:(vm_compute; reflexivity)
              ltac:(reflexivity)
              ltac:(vm_compute; discriminate))
    as (st' & p & Hcall & _ & Hold & Hnew & Hopen & _).
  exists st'. eexists. exists p.
  split; [exact Hcall|]. split; [exact Hold|].
  split; [reflexivity|]. split; [exact Hnew|exact Hopen].
Defined.

(** C1, as stated, fails: after two filled hedges for one borrower the
    position map holds two open positions of that borrower. *)
Lemma two_hedges_two_open_positions :
  exists st,
    twoHedges = Some (JS.Returned tt, st) /\
    ~ oneOpenPerBorrower st.
Proof.
  eexists. split; [vm_compute; reflexivity|].
  intros H.
  assert (Heq : "hedge_1020_alice" = "hedge_2020_alice").
  { eapply (H "hedge_1020_alice" "hedge_2020_alice").
    - vm_compute. reflexivity.
    - vm_compute. reflexivity.
    - reflexivity.
    - reflexivity.
    - vm_compute. reflexivity. }
  discriminate Heq.
Qed.

(** Scenario B of the design: threshold 600, score 0, loan 50000, ratio
    0.5, cap 100000 gives 25000. *)
Lemma calculateHedgeAmount_formula_witness :
  exists amount,
    calculateHedgeAmount defaultConfig (JS.Fin 50000) 0 = JS.Fin amount /\
    (amount == 25000)%Q /\ (0 <= amount)%Q.
Proof.
  destruct (calculateHedgeAmount_formula defaultConfig 50000 0
              ltac:(vm_compute; discriminate))
    as (amount & Hcall & Heq & Hpos).
  exists amount. split; [exact Hcall|]. split.
  - rewrite Heq. vm_compute. reflexivity.
  - apply Hpos; vm_compute; congruence.
Defined.

(** Scenario A: score 550 gives 50000 * 0.5 * 50 / 600. *)
Example calculateHedgeAmount_scenarioA :
  exists amount,
    calculateHedgeAmount defaultConfig (JS.Fin 50000) 550
      = JS.Fin amount /\ (amount == 6250 / 3)%Q.
Proof. eexists. split; [reflexivity|]. vm_compute. reflexivity. Qed.

(** C3, as stated, fails: for a score above the threshold the amount is
    negative, not floored at 0. *)
Lemma calculateHedgeAmount_not_floored :
  exists amount,
    calculateHedgeAmount defaultConfig (JS.Fin 50000) 700
      = JS.Fin amount /\
    (amount < 0)%Q /\
    ~ (amount ==
         Qmax 0 (Qmin (50000 * 0.5 * ((600 - 700) / 600)) 100000))%Q.
Proof.
  eexists. split; [reflexivity|]. split; vm_compute; congruence.
Qed.

(** C2 fails at the threshold itself.  With score = threshold = 600 the
    call is not a no-op: it takes a token (99 of 100 are left), sends a
    sell order of size 0 to the market and records an open position of
    amount 0. *)
Theorem hedge_at_threshold_is_not_a_noop :
  exists st' p order,
    hedge fillingMarket firstCall 600 service
      = Some (JS.Returned tt, st') /\
    (RateLimiter.available "hedge" (rateLimiter service) == 100)%Q /\
    (RateLimiter.available "hedge" (rateLimiter st') == 99)%Q /\
    orders service = [] /\
    orders st' = [order] /\
    (exists size, Market.amount order = JS.Fin size /\ (size == 0)%Q) /\
    positions service = ∅ /\
    positions st' !! "hedge_1020_alice" = Some p /\
    status p = Open /\
    (exists a, amount p = JS.Fin a /\ (a == 0)%Q).
Proof.
  do 3 eexists. split; [vm_compute; reflexivity|].
  repeat split; try (vm_compute; reflexivity).
  - eexists. split; vm_compute; reflexivity.
  - eexists. split; vm_compute; reflexivity.
Qed.

End HedgeServiceSamples.

(** ** RateLimiter: batches *)

Section AcquireBatchFacts.

Import RateLimiter Sample.

Lemma refillBucket_same_instant cfg now b :
  lastRefill b = now -> (tokens b <= maxTokens cfg)%Q ->
  (tokens (refillBucket cfg now b) == tokens b)%Q.
Proof.
  intros Hlast Hmax. cbn. rewrite Hlast, Z.sub_diag.
  change (inject_Z 0) with 0%Q.
  assert (Hz : (0 / 1000 * refillRate cfg == 0)%Q) by (unfold Qdiv; ring).
  rewrite Hz.
  destruct (Q.min_spec (maxTokens cfg) (tokens b + 0)) as [[H1 H2]|[H1 H2]];
    rewrite H2; lra.
Qed.

Lemma acquire_fits key cost now st :
  let b0 := bucketAt key now st in
  lastRefill b0 = now -> (tokens b0 <= maxTokens (config st))%Q ->
  (cost <= tokens b0)%Q ->
  fst (acquire key cost 0 now [] st) = Some true /\
  config (snd (acquire key cost 0 now [] st)) = config st /\
  (forall k, k <> key ->
     buckets (snd (acquire key cost 0 now [] st)) !! k = buckets st !! k) /\
  (available key (snd (acquire key cost 0 now [] st))
     == tokens b0 - cost)%Q.
Proof.
  intros b0 Hlast Hmax Hcost.
  destruct (acquire_spec key cost 0 now [] st) as (Hr & Hb & Hc).
  pose proof (refillBucket_same_instant (config st) now b0 Hlast Hmax) as Hsame.
  assert (Hfit : Qle_bool cost (tokens (refillBucket (config st) now b0)) = true).
  { apply Qle_bool_iff. rewrite Hsame. exact Hcost. }
  cbn [acquireLoop] in Hr, Hb. fold b0 in Hr, Hb. rewrite Hfit in Hr, Hb.
  cbn [fst snd] in Hr, Hb.
  split; [exact Hr|]. split; [exact Hc|]. split.
  - intros k Hk. rewrite Hb. now apply lookup_insert_ne.
  - unfold available. rewrite Hb, lookup_insert_eq. cbn [tokens].
    rewrite Hsame. reflexivity.
Qed.





(** C5 fails for a batch that names a key twice.  The bucket holds 100
    tokens, each of the two requests asks for 60: the check passes for
    each request on its own, the first request is served, the second is
    not.  The batch is refused (the only key maps to [false]) and 60
    tokens are gone. *)
Theorem acquireBatch_duplicate_key_is_partial :
  exists results st',
    acquireBatch duplicateBatch 0 0 [] limiter = Some (results, st') /\
    (available "orders" limiter == 100)%Q /\
    results !! "orders" = Some false /\
    size results = 1%nat /\
    (available "orders" st' == 40)%Q.
Proof.
  do 2 eexists. split; [vm_compute; reflexivity|].
  repeat split; vm_compute; reflexivity.
Qed.

(** The same happens without a repeated key when a request for a key that
    has no bucket yet asks for more than a full bucket: the check takes
    the new bucket to be sufficient, and the batch is served in part. *)
Lemma acquireBatch_oversized_request_is_partial :
  exists results st',
    acquireBatch oversizedBatch 0 0 [] limiter = Some (results, st') /\
    results !! "orders" = Some true /\
    results !! "reports" = Some false /\
    (available "orders" st' == 99)%Q.
Proof.
  do 2 eexists. split; [vm_compute; reflexivity|].
  repeat split; vm_compute; reflexivity.
Qed.

End AcquireBatchFacts.

(** ** CreditMonitorService *)

Section CreditMonitorFacts.

Import CreditMonitor.

Lemma notifyFrom_all alert callbacks : forall i,
  Forall (returns alert) callbacks ->
  notifyFrom i callbacks alert
    = (seq i (length callbacks), JS.Returned tt).
Proof.
  induction callbacks as [|cb rest IH]; intros i Hall; [reflexivity|].
  apply Forall_cons in Hall as [Hcb Hrest].
  cbn. rewrite Hcb, (IH (S i) Hrest). reflexivity.
Qed.

Lemma notifyFrom_stops alert before cb after e : forall i,
  Forall (returns alert) before ->
  cb alert = JS.Thrown e ->
  notifyFrom i (before ++ cb :: after) alert
    = (seq i (S (length before)), JS.Thrown e).
Proof.
  induction before as [|cb0 rest IH]; intros i Hall Hcb.
  - cbn. now rewrite Hcb.
  - apply Forall_cons in Hall as [Hcb0 Hrest].
    cbn. rewrite Hcb0, (IH (S i) Hrest Hcb). reflexivity.
Qed.

(** The default risk levels: high below 500, medium below 650, else low. *)
Example calculateRiskLevel_boundaries :
  calculateRiskLevel 499 = High /\ calculateRiskLevel 500 = Medium /\
  calculateRiskLevel 649 = Medium /\ calculateRiskLevel 650 = Low.
Proof. repeat split. Qed.

(** C7 (amended).  The observers are called in the order of their
    registration.  As long as they return, delivery goes on: observers
    that all return are all called.  The first observer that throws ends
    the delivery: it and the observers registered before it have been
    called, the observers registered after it are not called, and its
    exception leaves [notifyAlertCallbacks]. *)
Theorem notify_stops_at_first_exception alert before cb after e :
  Forall (returns alert) before ->
  cb alert = JS.Thrown e ->
  notifyAlertCallbacks before alert
    = (seq 0 (length before), JS.Returned tt) /\
  notifyAlertCallbacks (before ++ cb :: after) alert
    = (seq 0 (S (length before)), JS.Thrown e) /\
  forall i, (length before < i)%nat ->
    i ∉ fst (notifyAlertCallbacks (before ++ cb :: after) alert).
Proof.
  intros Hall Hcb. split; [now apply notifyFrom_all|].
  unfold notifyAlertCallbacks.
  rewrite (notifyFrom_stops alert before cb after e 0 Hall Hcb).
  split; [reflexivity|]. intros i Hi. cbn [fst].
  rewrite list_elem_of_In, in_seq. lia.
Qed.

Lemma notify_stops_at_first_exception_witness :
  notifyAlertCallbacks [Sample.quiet; Sample.throwing; Sample.quiet]
    Sample.alert
    = ([0; 1]%nat, JS.Thrown (JS.Error "observer failed")) /\
  2%nat ∉ fst (notifyAlertCallbacks
                 [Sample.quiet; Sample.throwing; Sample.quiet]
                 Sample.alert).
Proof.
  destruct (notify_stops_at_first_exception Sample.alert [Sample.quiet]
              Sample.throwing [Sample.quiet] _
              ltac:(repeat constructor) eq_refl)
    as (_ & Hcalled & Hrest).
  split; [exact Hcalled|]. apply Hrest. cbn. lia.
Defined.

(** C7, as stated, fails: with a first observer that throws, the second
    observer is not called. *)
Lemma throwing_observer_breaks_delivery :
  ~ allNotified [Sample.throwing; Sample.quiet] Sample.alert.
Proof.
  intros H. specialize (H 1%nat ltac:(cbn; lia)).
  cbn in H. apply list_elem_of_In in H. cbn in H.
  destruct H as [H|[]]. discriminate H.
Qed.

End CreditMonitorFacts.

(** ** SmartCache *)

Section SmartCacheFacts.

Import SmartCache.

Context {V : Type} (stringifyLength : V -> option Z).

Lemma mapGet_mapSet (k : string) (v : CacheItem V) m :
  mapGet k (mapSet k v m) = Some v.
Proof.
  induction m as [|[k' v'] m IH]; cbn.
  - now rewrite String.eqb_refl.
  - destruct (String.eqb k k') eqn:Hk; cbn; rewrite Hk; [reflexivity|].
    exact IH.
Qed.

Lemma mapGet_mapDelete (k : string) (m : list (string * CacheItem V)) :
  mapGet k (mapDelete k m) = None.
Proof.
  unfold mapDelete.
  induction m as [|[k' v'] m IH]; cbn; [reflexivity|].
  destruct (String.eqb k k') eqn:Hk; cbn; [exact IH|].
  rewrite Hk. exact IH.
Qed.

Lemma evictLeastValuable_config now (st : t V) :
  config (evictLeastValuable now st) = config st.
Proof.
  unfold evictLeastValuable.
  destruct (truthyKey _) as [k|]; [|reflexivity].
  now destruct (mapGet k (cache st)).
Qed.

Lemma evictLoop_config fuel sz now : forall (st st0 : t V),
  evictLoop fuel sz now st = Some st0 -> config st0 = config st.
Proof.
  induction fuel as [|fuel IH]; intros st st0; cbn;
    destruct (maxSize (config st) <? totalSize (stats st) + sz)%Z;
    try discriminate; try (now intros [= <-]).
  intros H. apply IH in H. now rewrite H, evictLeastValuable_config.
Qed.

(** When the value fits into the free space, nothing is evicted and the
    loop is left at once, whatever the fuel. *)
Lemma evictLoop_fits fuel sz now (st : t V) :
  (totalSize (stats st) + sz <= maxSize (config st))%Z ->
  evictLoop fuel sz now st = Some st.
Proof.
  intros Hfit.
  assert ((maxSize (config st) <? totalSize (stats st) + sz)%Z = false)
    as Hno by (apply Z.ltb_ge; lia).
  destruct fuel; cbn; now rewrite Hno.
Qed.

(** C8 (amended).  A value whose computed size is at most [maxSize] and
    for which the eviction loop of [set] comes to an end is stored:
    [set] returns, a [get] for the key returns the value as long as no
    more than [maxAge] has passed since, and a [get] after that returns
    nothing and removes the entry. *)
Theorem set_then_get fuel key (v : V) now (st st0 : t V) :
  (calculateSize stringifyLength v <= maxSize (config st))%Z ->
  evictLoop fuel (calculateSize stringifyLength v) now st = Some st0 ->
  exists st1,
    set stringifyLength fuel key v now st = Some st1 /\
    (forall later, (later - now <= maxAge (config st))%Z ->
       fst (get key later st1) = Some v) /\
    (forall later, (maxAge (config st) < later - now)%Z ->
       fst (get key later st1) = None /\
       has key (snd (get key later st1)) = false).
Proof.
  intros Hsize Hloop. unfold set.
  assert ((maxSize (config st) <? calculateSize stringifyLength v)%Z
          = false) as -> by (apply Z.ltb_ge; lia).
  rewrite Hloop. eexists. split; [reflexivity|].
  pose proof (evictLoop_config _ _ _ _ _ Hloop) as Hcfg.
  split; intros later Hlater; unfold get; cbn [cache config];
    rewrite mapGet_mapSet; cbn [timestamp]; rewrite Hcfg.
  - assert ((maxAge (config st) <? later - now)%Z = false) as ->
      by (apply Z.ltb_ge; lia).
    reflexivity.
  - assert ((maxAge (config st) <? later - now)%Z = true) as ->
      by (apply Z.ltb_lt; lia).
    split; [reflexivity|]. unfold has. cbn. now rewrite mapGet_mapDelete.
Qed.

End SmartCacheFacts.

Section SmartCacheSamples.

Import SmartCache Sample.

(** The cache holds 12 of 16 bytes; storing 12 more evicts the entry
    that is there, and the new value can be read back. *)
Lemma set_then_get_witness :
  exists st1,
    set textLength 1 "b" "5678" 20 usedCache = Some st1 /\
    fst (get "b" 20 st1) = Some "5678" /\
    fst (get "b" 1021 st1) = None /\
    has "b" (snd (get "b" 1021 st1)) = false.
Proof.
  destruct (set_then_get textLength 1 "b" "5678" 20 usedCache _
              ltac:(vm_compute; discriminate)
              ltac:(vm_compute; reflexivity))
    as (st1 & Hset & Hfresh & Hstale).
  exists st1. split; [exact Hset|].
  split; [apply Hfresh; vm_compute; discriminate|].
  apply Hstale. vm_compute. reflexivity.
Defined.

(** C8, as stated, fails: a value whose computed size exceeds [maxSize]
    is not stored, and the [get] that follows finds nothing. *)
Lemma oversized_value_is_not_cached :
  exists st1,
    set textLength 1 "k" "a long value" 0 smallCache = Some st1 /\
    (maxSize (config smallCache)
       < calculateSize textLength "a long value")%Z /\
    fst (get "k" 0 st1) = None.
Proof.
  eexists. split; [vm_compute; reflexivity|].
  split; vm_compute; reflexivity.
Qed.

End SmartCacheSamples.

(** ** BatchProcessor *)

Section BatchProcessorFacts.

Import BatchProcessor Sample.

(** With nothing queued and no retry pending, a turn of the event loop
    only moves the next tick. *)
Lemma idle_step (st : t unit) :
  queue st = [] -> timers st = [] ->
  queue (step failing st) = [] /\ timers (step failing st) = [] /\
  submitted (step failing st) = submitted st.
Proof.
  intros Hq Ht. unfold step, processBatch. rewrite Ht, Hq. cbn.
  rewrite orb_true_r. cbn. auto.
Qed.

Lemma idle_run n : forall st : t unit,
  queue st = [] -> timers st = [] ->
  submitted (run failing n st) = submitted st.
Proof.
  induction n as [|n IH]; intros st Hq Ht; [reflexivity|].
  destruct (idle_step st Hq Ht) as (Hq' & Ht' & Hs).
  cbn. rewrite IH; assumption.
Qed.

(** C9 fails with the default configuration (batches of 10, 3 retries,
    retry delay 1000 ms, a batch every 5000 ms).  A failed transaction
    stays in the queue while its retry timer is pending, and the timer
    pushes a further reference to it.  The transaction is submitted once
    at 5000, twice at 10000 and four times at 15000: seven submissions,
    six of them retries, before it is dropped.  The retry timers are set
    1000, 2000 and 3000 ms after the failures, but it is the processing
    interval, not these delays, that decides when the retries happen. *)
Theorem failing_transaction_is_submitted_seven_times :
  let final := run failing 6 queued in
  attempts 0 final
    = [5000; 10000; 10000; 15000; 15000; 15000; 15000]%Z /\
  queue final = [] /\ timers final = [] /\
  retries <$> heap final = [3%Z] /\
  timers (run failing 1 queued) = [(6000%Z, 0%nat)] /\
  queue (run failing 2 queued) = [0; 0]%nat /\
  timers (run failing 3 queued) = [(12000%Z, 0%nat); (13000%Z, 0%nat)] /\
  forall n, attempts 0 (run failing (6 + n) queued) = attempts 0 final.
Proof.
  cbv zeta. repeat split; try (vm_compute; reflexivity).
  intros n. unfold attempts. f_equal. f_equal.
  assert (Hrun : forall a b (st : t unit),
             run failing (a + b) st = run failing b (run failing a st)).
  { induction a as [|a IH]; intros b st; [reflexivity|]. cbn. apply IH. }
  rewrite Hrun. apply idle_run; vm_compute; reflexivity.
Qed.

(** With batches of one transaction the duplicates in the queue do not
    show: the transaction is submitted four times, at successive ticks. *)
Lemma failing_transaction_in_batches_of_one :
  let cfg := {| maxBatchSize := 1; maxRetries := 3; retryDelay := 1000;
                processingInterval := 5000 |} in
  let final := run failing 7
                 (addTransaction "tx_0_a" tt 0 0 (create cfg 0)) in
  attempts 0 final = [5000; 10000; 15000; 20000]%Z /\
  queue final = [] /\ timers final = [].
Proof. cbv zeta. repeat split; vm_compute; reflexivity. Qed.

End BatchProcessorFacts.

(** ** RateLimiter: what a call returns, waiting, refills and statistics *)

Section RateLimiterCalls.

Import RateLimiter LimiterTrace.

(** X1.  An [acquire] with no timeout answers at once.  It refills the
    bucket of its key up to the time of the call, and answers whether the
    refilled bucket covers the cost.  If it does, exactly the cost is taken
    from the refilled bucket; if not, the refilled bucket is left as it is.
    No bucket of another key is touched and the configuration stays. *)
Theorem acquire_now_outcome key cost now st :
  let before := refillBucket (config st) now (bucketAt key now st) in
  let fits := Qle_bool cost (tokens before) in
  let r := acquire key cost 0 now [] st in
  fst r = Some fits /\
  (available key (snd r)
     == if fits then tokens before - cost else tokens before)%Q /\
  (forall k, k <> key -> buckets (snd r) !! k = buckets st !! k) /\
  config (snd r) = config st.
Proof.
  cbv zeta.
  destruct (acquire_spec key cost 0 now [] st) as (Hr & Hb & Hc).
  cbn [acquireLoop] in Hr, Hb.
  destruct (Qle_bool cost _) eqn:Hfit; cbn [fst snd] in Hr, Hb.
  - split; [exact Hr|]. split.
    + unfold available. rewrite Hb, lookup_insert_eq. reflexivity.
    + split; [|exact Hc]. intros k Hk. rewrite Hb.
      now apply lookup_insert_ne.
  - rewrite Z.eqb_refl in Hr, Hb. cbn [orb fst snd] in Hr, Hb.
    split; [exact Hr|]. split.
    + unfold available. rewrite Hb, lookup_insert_eq. reflexivity.
    + split; [|exact Hc]. intros k Hk. rewrite Hb.
      now apply lookup_insert_ne.
Qed.

Lemma acquireLoop_decides cfg cost timeout start polls : forall b,
  Exists (deadlineReached timeout start) polls ->
  is_Some (fst (acquireLoop cfg cost timeout start polls b)).
Proof.
  induction polls as [|p rest IH]; intros b Hex; [inversion Hex|].
  cbn [acquireLoop].
  destruct (Qle_bool cost _); [now eexists|].
  destruct ((timeout =? 0)%Z || (timeout <=? p - start)%Z) eqn:Hd;
    [now eexists|].
  apply IH. apply Exists_cons in Hex as [Hp|Hrest]; [|exact Hrest].
  apply orb_false_iff in Hd as [_ Hd]. apply Z.leb_gt in Hd.
  unfold deadlineReached in Hp. lia.
Qed.

Lemma acquireLoop_refused cfg cost timeout start polls : forall b,
  fst (acquireLoop cfg cost timeout start polls b) = Some false ->
  timeout = 0%Z \/ Exists (deadlineReached timeout start) polls.
Proof.
  induction polls as [|p rest IH]; intros b; cbn [acquireLoop];
    [discriminate|].
  destruct (Qle_bool cost _); [discriminate|].
  destruct ((timeout =? 0)%Z || (timeout <=? p - start)%Z) eqn:Hd.
  - intros _. apply orb_true_iff in Hd as [Hd|Hd].
    + left. now apply Z.eqb_eq.
    + right. apply Exists_cons. left. now apply Z.leb_le.
  - intros H. destruct (IH _ H) as [H0|Hex]; [now left|].
    right. apply Exists_cons. now right.
Qed.

(** X2.  An [acquire] with a timeout polls until the tokens are there or
    the deadline has passed.  It returns as soon as one of the clock
    readings it takes, the one at the start or one after a wait, is at or
    past the deadline; and it refuses only then: an answer [false] means
    that a reading it took was at or past the deadline. *)
Theorem acquire_polls_until_deadline key cost timeout now polls st :
  let r := fst (acquire key cost timeout now polls st) in
  (Exists (deadlineReached timeout now) (now :: polls) -> is_Some r) /\
  (r = Some false -> Exists (deadlineReached timeout now) (now :: polls)).
Proof.
  cbv zeta.
  destruct (acquire_spec key cost timeout now polls st) as (Hr & _ & _).
  rewrite Hr. split.
  - apply acquireLoop_decides.
  - intros H. apply acquireLoop_refused in H as [->|H]; [|exact H].
    apply Exists_cons. left. unfold deadlineReached. lia.
Qed.

(** X3.  Refilling is monotone.  With a refill rate that is not negative
    and a clock that has not gone back behind the last refill, a refill
    never takes tokens from a bucket that is within its capacity; of two
    refills of the same bucket, the later one leaves at least as many
    tokens as the earlier one; no refill leaves more than [maxTokens]; and
    a second refill at the same instant adds nothing.  So neither the
    interval timer nor the refill at the start of [acquire] can lower
    what a caller finds by coming earlier or more often. *)
Theorem refill_is_monotone cfg t1 t2 b :
  (0 <= refillRate cfg)%Q -> (lastRefill b <= t1)%Z -> (t1 <= t2)%Z ->
  (tokens b <= maxTokens cfg)%Q ->
  (tokens b <= tokens (refillBucket cfg t1 b))%Q /\
  (tokens (refillBucket cfg t1 b) <= tokens (refillBucket cfg t2 b))%Q /\
  (tokens (refillBucket cfg t2 b) <= maxTokens cfg)%Q /\
  (tokens (refillBucket cfg t1 (refillBucket cfg t1 b))
     == tokens (refillBucket cfg t1 b))%Q.
Proof.
  intros Hrate Hlast Ht Hmax.
  pose proof (tokensToAdd_nonneg (refillRate cfg) (t1 - lastRefill b) Hrate
                ltac:(lia)) as Hadd.
  assert (Hmono : (inject_Z (t1 - lastRefill b) / 1000 * refillRate cfg
                   <= inject_Z (t2 - lastRefill b) / 1000 * refillRate cfg)%Q).
  { apply Qmult_le_compat_r; [|exact Hrate].
    apply Qmult_le_compat_r; [|discriminate].
    rewrite <- Zle_Qle. lia. }
  split; [|split; [|split]].
  - cbn. apply Q.min_glb; [exact Hmax|lra].
  - cbn. apply Q.min_le_compat_l. lra.
  - apply refillBucket_le_max.
  - apply refillBucket_same_instant; [reflexivity|apply refillBucket_le_max].
Qed.

(** Ten tokens per second: 10 tokens at time 0 are 14 after 400 ms and 20
    after a second. *)
Lemma refill_is_monotone_witness :
  (tokens (refillBucket defaultConfig 400
             {| tokens := 10; lastRefill := 0 |})
   <= tokens (refillBucket defaultConfig 1000
                {| tokens := 10; lastRefill := 0 |}))%Q.
Proof.
  apply (refill_is_monotone defaultConfig 400 1000
           {| tokens := 10; lastRefill := 0 |}
           ltac:(vm_compute; discriminate) ltac:(cbn; lia) ltac:(lia)
           ltac:(vm_compute; discriminate)).
Defined.

End RateLimiterCalls.

Section RateLimiterStatistics.

Import RateLimiter LimiterTrace.

Lemma updateStats_stats_ne key f v st k :
  k <> key -> stats (updateStats key f v st) !! k = stats st !! k.
Proof.
  intros Hk. unfold updateStats. destruct (stats st !! key); [|reflexivity].
  cbn. now rewrite lookup_insert_ne.
Qed.

Lemma updateStats_stats_eq key f v st :
  stats (updateStats key f v st) !! key
  = (fun s => match v with
              | Some x => setField f x s
              | None => setField f (getField f s + 1)%Q s
              end) <$> stats st !! key.
Proof.
  unfold updateStats. destruct (stats st !! key) as [s|] eqn:Hs; cbn.
  - now rewrite lookup_insert_eq.
  - now rewrite Hs.
Qed.

Lemma acquire_stats_ne key cost timeout now polls st k :
  k <> key ->
  stats (snd (acquire key cost timeout now polls st)) !! k = stats st !! k.
Proof.
  intros Hk. unfold acquire.
  destruct (buckets st !! key);
    destruct (acquireLoop _ _ _ _ _ _) as [[[|]|] b']; cbn [snd];
    rewrite ?updateStats_stats_ne by assumption; cbn;
    rewrite ?updateStats_stats_ne by assumption; cbn;
    rewrite ?lookup_insert_ne by congruence; reflexivity.
Qed.

Lemma acquire_counted key cost now polls st s' :
  (forall s, stats st !! key = Some s -> counted s) ->
  stats (snd (acquire key cost 0 now polls st)) !! key = Some s' ->
  counted s'.
Proof.
  intros Hok. unfold acquire. cbn [acquireLoop]. rewrite Z.eqb_refl.
  cbn [orb].
  destruct (buckets st !! key) as [b|] eqn:Hb;
    destruct (Qle_bool cost _); cbn [snd];
    rewrite ?updateStats_stats_eq; cbn [stats setBucket];
    rewrite ?updateStats_stats_eq; cbn [stats setBucket initStats];
    rewrite ?updateStats_stats_eq; cbn [stats setBucket initStats];
    rewrite ?lookup_insert_eq;
    try (destruct (stats st !! key) as [s|] eqn:Hs; [|discriminate];
         specialize (Hok s eq_refl));
    cbn; intros [= <-]; unfold counted in *; cbn; lra.
Qed.

(** What a refused [acquire] without a timeout does to the statistics of
    its key. *)
Lemma acquire_rejected_stats key cost now st :
  Qle_bool cost
    (tokens (refillBucket (config st) now (bucketAt key now st))) = false ->
  stats (snd (acquire key cost 0 now [] st)) !! key
  = rejectedOnce <$> statsAt key now st.
Proof.
  intros Hfit. unfold acquire, statsAt, bucketAt in *. cbn [acquireLoop].
  destruct (buckets st !! key) as [b|] eqn:Hb; cbn [default id] in Hfit;
    rewrite Hfit, Z.eqb_refl; cbn [orb snd];
    rewrite !updateStats_stats_eq; cbn [stats setBucket initStats];
    rewrite ?updateStats_stats_eq; cbn [stats setBucket initStats];
    rewrite ?lookup_insert_eq.
  - destruct (stats st !! key) as [s|]; reflexivity.
  - reflexivity.
Qed.

Lemma applyOp_statsOk st op :
  immediate op -> statsOk st -> statsOk (applyOp st op).
Proof.
  destruct op as [key cost timeout now polls|now]; cbn; [|auto].
  intros -> Hok k s Hs. destruct (decide (k = key)) as [->|Hk].
  - eapply acquire_counted; [|exact Hs]. intros s0. apply Hok.
  - rewrite acquire_stats_ne in Hs by assumption. eapply Hok; eauto.
Qed.

(** X4.  The statistics of a key add up.  Whatever sequence of [acquire]
    calls without a timeout and of refill ticks a limiter goes through, if
    the counts added up before, then afterwards, for every key that has
    statistics, the number of requests is the number of accepted requests
    plus the number of rejected ones. *)
Theorem requests_are_accepted_or_rejected ops : forall st,
  Forall immediate ops -> statsOk st ->
  forall key s, stats (runOps ops st) !! key = Some s ->
    (totalRequests s == acceptedRequests s + rejectedRequests s)%Q.
Proof.
  induction ops as [|op ops IH]; intros st Himm Hok.
  - exact Hok.
  - apply Forall_cons in Himm as [Hop Himm].
    apply (IH (applyOp st op) Himm). now apply applyOp_statsOk.
Qed.

Lemma requests_are_accepted_or_rejected_witness :
  exists s,
    stats (runOps [OpAcquire "hedge" 60 0 0 []; OpAcquire "hedge" 60 0 10 [];
                   OpRefill 500; OpAcquire "hedge" 1 0 600 []]
             (create defaultConfig)) !! "hedge" = Some s /\
    (totalRequests s == acceptedRequests s + rejectedRequests s)%Q.
Proof.
  eexists. split; [vm_compute; reflexivity|].
  apply (requests_are_accepted_or_rejected
           [OpAcquire "hedge" 60 0 0 []; OpAcquire "hedge" 60 0 10 [];
            OpRefill 500; OpAcquire "hedge" 1 0 600 []]
           (create defaultConfig)
           ltac:(repeat constructor)
           ltac:(intros k s H; cbn in H; rewrite lookup_empty in H;
                 discriminate H)
           "hedge").
  vm_compute; reflexivity.
Defined.

(** X5.  [clear(key)] gives the key a fresh start: the bucket and the
    statistics of the key are gone, the key is back at a full bucket, and
    the next request that asks for no more than a full bucket is served,
    whatever was taken before.  The buckets and statistics of the other
    keys stay.  This is so for every key but the empty string, which
    [clear] takes for no key at all: [clear("")] drops every bucket. *)
Theorem clear_refills_the_key key cost now st :
  key <> EmptyString ->
  (cost <= maxTokens (config st))%Q ->
  (fst (acquire key cost 0 now [] (clear (Some key) st)) = Some true /\
   (available key (clear (Some key) st) == maxTokens (config st))%Q /\
   stats (clear (Some key) st) !! key = None /\
   forall k, k <> key ->
     buckets (clear (Some key) st) !! k = buckets st !! k /\
     stats (clear (Some key) st) !! k = stats st !! k) /\
  buckets (clear (Some EmptyString) st) = ∅.
Proof.
  intros Hkey Hcost. split; [|reflexivity].
  destruct key as [|c key]; [contradiction|].
  set (k0 := String c key) in *.
  assert (Hgone : buckets (clear (Some k0) st) !! k0 = None)
    by (cbn; apply lookup_delete_eq).
  split.
  - apply acquire_fits; unfold bucketAt; rewrite Hgone; cbn;
      [reflexivity|lra|exact Hcost].
  - split; [unfold available; rewrite Hgone; reflexivity|].
    split; [cbn; apply lookup_delete_eq|].
    intros k Hk. cbn. fold k0.
    now rewrite !lookup_delete_ne by (intros E; apply Hk; now rewrite E).
Qed.

Lemma clear_refills_the_key_witness :
  (available "orders" Sample.limiter == 100)%Q /\
  fst (acquire "orders" 100 0 0 []
         (snd (acquire "orders" 100 0 0 [] Sample.limiter))) = Some false /\
  fst (acquire "orders" 100 0 0 []
         (clear (Some "orders")
            (snd (acquire "orders" 100 0 0 [] Sample.limiter)))) = Some true.
Proof.
  split; [vm_compute; reflexivity|]. split; [vm_compute; reflexivity|].
  apply (clear_refills_the_key "orders" 100 0
           (snd (acquire "orders" 100 0 0 [] Sample.limiter))
           ltac:(discriminate) ltac:(vm_compute; discriminate)).
Defined.

End RateLimiterStatistics.

Section AcquireBatchAnswers.

Import RateLimiter LimiterTrace.

Lemma elem_of_keys k requests :
  k ∈ keys requests <-> exists r, r ∈ requests /\ req_key r = k.
Proof.
  unfold keys. rewrite list_elem_of_fmap. split; intros (r & H1 & H2); eauto.
Qed.

Lemma acquireEach_dom now requests : forall results st k,
  is_Some (fst (acquireEach now requests results st) !! k)
  <-> is_Some (results !! k) \/ k ∈ keys requests.
Proof.
  induction requests as [|r rest IH]; intros results st k; cbn [acquireEach].
  - cbn. rewrite elem_of_nil. tauto.
  - destruct (acquire _ _ _ _ _ _) as [ok st1]. rewrite IH.
    unfold keys. rewrite fmap_cons, elem_of_cons.
    destruct (decide (req_key r = k)) as [<-|Hne].
    + rewrite lookup_insert_eq. split; [auto|]. intros _. left. eauto.
    + rewrite lookup_insert_ne by assumption. split; intros [H|H]; auto.
      destruct H as [H|H]; [congruence|auto].
Qed.

Lemma retryEach_dom now requests : forall results st k,
  is_Some (fst (retryEach now requests results st) !! k) ->
  is_Some (results !! k) \/ k ∈ keys requests.
Proof.
  induction requests as [|r rest IH]; intros results st k; cbn [retryEach].
  - cbn. auto.
  - destruct (acquire _ _ _ _ _ _) as [ok st1]. intros H.
    apply IH in H. unfold keys. rewrite fmap_cons, elem_of_cons.
    destruct H as [H|H]; [|auto].
    destruct (default false ok); [|auto].
    destruct (decide (req_key r = k)) as [<-|Hne]; [auto|].
    rewrite lookup_insert_ne in H by assumption. auto.
Qed.

Lemma filter_keys_subset (P : Request -> bool) requests k :
  k ∈ keys (List.filter P requests) -> k ∈ keys requests.
Proof.
  rewrite !elem_of_keys. intros (r & Hr & Hk). exists r. split; [|exact Hk].
  apply list_elem_of_In in Hr. apply filter_In in Hr as [Hr _].
  now apply list_elem_of_In.
Qed.

Lemma retryRounds_dom timeout start rounds requests :
  forall results st results' st' k,
  retryRounds timeout start rounds requests results st
    = Some (results', st') ->
  is_Some (results' !! k) ->
  is_Some (results !! k) \/ k ∈ keys requests.
Proof.
  induction rounds as [|now rest IH]; intros results st results' st' k;
    cbn [retryRounds]; [discriminate|].
  destruct (now - start <? timeout)%Z; [|intros [= <- <-]; auto].
  destruct (retryEach now _ results st) as [results1 st1] eqn:Hround.
  assert (Hdom : is_Some (results1 !! k) ->
                 is_Some (results !! k) \/ k ∈ keys requests).
  { intros H. change results1 with
      (fst (results1, st1)) in H. rewrite <- Hround in H.
    apply retryEach_dom in H as [H|H]; [auto|].
    right. eapply filter_keys_subset; eauto. }
  destruct (size results1 =? length requests)%nat.
  - intros [= <- <-]. exact Hdom.
  - intros Hrec Hk. destruct (IH _ _ _ _ k Hrec Hk); auto.
Qed.

Lemma fillFalse_dom requests : forall results k,
  is_Some (fillFalse requests results !! k)
  <-> is_Some (results !! k) \/ k ∈ keys requests.
Proof.
  unfold fillFalse.
  induction requests as [|r rest IH] using rev_ind; intros results k.
  - cbn. rewrite elem_of_nil. tauto.
  - rewrite foldl_snoc. unfold keys. rewrite fmap_app, elem_of_app.
    cbn [fmap list_fmap]. rewrite list_elem_of_singleton.
    fold (keys rest). unfold notIn at 1.
    destruct (bool_decide _) eqn:Hin.
    + apply bool_decide_eq_true in Hin.
      destruct (decide (req_key r = k)) as [<-|Hne].
      * rewrite lookup_insert_eq. split; eauto.
      * rewrite lookup_insert_ne by assumption. rewrite IH.
        split; intros [H|H]; auto. destruct H as [H|H]; [auto|congruence].
    + apply bool_decide_eq_false in Hin.
      rewrite IH. split; intros [H|H]; auto.
      * destruct H as [H|H]; [auto|]. subst k.
        apply IH. destruct (foldl _ results rest !! req_key r) eqn:E;
          [eauto|contradiction].
Qed.

Lemma setAllFalse_dom requests : forall results k,
  is_Some (setAllFalse requests results !! k)
  <-> is_Some (results !! k) \/ k ∈ keys requests.
Proof.
  unfold setAllFalse.
  induction requests as [|r rest IH] using rev_ind; intros results k.
  - cbn. rewrite elem_of_nil. tauto.
  - rewrite foldl_snoc. unfold keys. rewrite fmap_app, elem_of_app.
    cbn [fmap list_fmap]. rewrite list_elem_of_singleton. fold (keys rest).
    destruct (decide (req_key r = k)) as [<-|Hne].
    + rewrite lookup_insert_eq. split; eauto.
    + rewrite lookup_insert_ne by assumption. rewrite IH.
      split; intros [H|H]; auto. destruct H as [H|H]; [auto|congruence].
Qed.

(** X6.  [acquireBatch] answers for the keys of the batch and for nothing
    else: whenever it returns, the result has an entry for a key if and
    only if a request of the batch names that key.  With no timeout it
    always returns. *)
Theorem acquireBatch_answers_every_key requests timeout now rounds st :
  ((timeout <= 0)%Z ->
   is_Some (acquireBatch requests timeout now rounds st)) /\
  forall results st',
    acquireBatch requests timeout now rounds st = Some (results, st') ->
    forall k, is_Some (results !! k) <-> k ∈ keys requests.
Proof.
  unfold acquireBatch.
  destruct (canAcquire now requests st) as [[|] st1].
  - split; [eauto|]. intros results st' [= Hres] k.
    replace results with (fst (acquireEach now requests ∅ st1))
      by now rewrite Hres.
    rewrite acquireEach_dom, lookup_empty. split; [|auto].
    intros [[? H]|H]; [discriminate|exact H].
  - destruct (0 <? timeout)%Z eqn:Hto.
    + split; [intros H; apply Z.ltb_lt in Hto; lia|].
      intros results st'.
      destruct (retryRounds _ _ _ _ _ _) as [[results1 st2]|] eqn:Hrounds;
        [|discriminate].
      intros [= <- <-] k. rewrite fillFalse_dom. split; [|auto].
      intros [H|H]; [|exact H].
      destruct (retryRounds_dom _ _ _ _ _ _ _ _ k Hrounds H) as [[? E]|E];
        [|exact E]. rewrite lookup_empty in E. discriminate.
    + split; [eauto|]. intros results st' [= <- <-] k.
      rewrite setAllFalse_dom, lookup_empty. split; [|auto].
      intros [[? H]|H]; [discriminate|exact H].
Qed.


End AcquireBatchAnswers.

(** ** PriceCache *)

Section PriceCacheFacts.

Import PriceCache.

Context {V : Type}.
Implicit Types (m : list (string * CacheEntry V)) (st : t V).

Lemma price_mapGet_mapSet k e m : mapGet k (mapSet k e m) = Some e.
Proof.
  induction m as [|[k' e'] m IH]; cbn.
  - now rewrite String.eqb_refl.
  - destruct (String.eqb k k') eqn:Hk; cbn; rewrite Hk; auto.
Qed.

Lemma price_mapGet_mapSet_ne k k' e m :
  k' <> k -> mapGet k' (mapSet k e m) = mapGet k' m.
Proof.
  intros Hne. induction m as [|[k0 e0] m IH]; cbn.
  - destruct (String.eqb k' k) eqn:Hk; [|reflexivity].
    apply String.eqb_eq in Hk. contradiction.
  - destruct (String.eqb k k0) eqn:Hk; cbn.
    + apply String.eqb_eq in Hk. subst k0.
      destruct (String.eqb k' k) eqn:Hk'; [|reflexivity].
      apply String.eqb_eq in Hk'. contradiction.
    + now rewrite IH.
Qed.

Lemma price_mapGet_mapDelete k m : mapGet k (mapDelete k m) = None.
Proof.
  unfold mapDelete. induction m as [|[k' e'] m IH]; cbn; [reflexivity|].
  destruct (String.eqb k k') eqn:Hk; cbn; [exact IH|]. now rewrite Hk.
Qed.

(** X8.  A price that was stored is served until it is too old.  After
    [set(pair, d)] at time [now], a [get(pair)] at a time no more than
    [maxAge] later returns [d] and changes nothing; a [get(pair)] after
    that returns [null] and deletes the entry.  A [get] for another pair
    returns what it returned before the [set]. *)
Theorem price_set_then_get pair (d : V) now st :
  (forall later, (later - now <= maxAge (config st))%Z ->
     get pair later (set pair d now st) = (Some d, set pair d now st)) /\
  (forall later, (maxAge (config st) < later - now)%Z ->
     fst (get pair later (set pair d now st)) = None /\
     mapGet pair (cache (snd (get pair later (set pair d now st)))) = None) /\
  (forall other later, other <> pair ->
     fst (get other later (set pair d now st)) = fst (get other later st)).
Proof.
  split; [|split].
  - intros later Hl. unfold get, set, expired. cbn.
    rewrite price_mapGet_mapSet. cbn.
    assert ((maxAge (config st) <? later - now)%Z = false) as ->
      by (apply Z.ltb_ge; lia). reflexivity.
  - intros later Hl. unfold get, set, expired. cbn.
    rewrite price_mapGet_mapSet. cbn.
    assert ((maxAge (config st) <? later - now)%Z = true) as ->
      by (apply Z.ltb_lt; lia). cbn. split; [reflexivity|].
    apply price_mapGet_mapDelete.
  - intros other later Hne. unfold get, set. cbn.
    rewrite price_mapGet_mapSet_ne by assumption.
    destruct (mapGet other (cache st)) as [e|]; [|reflexivity].
    now destruct (expired _ _ _).
Qed.

Lemma price_mapGet_None k m : k ∉ (fst <$> m) -> mapGet k m = None.
Proof.
  induction m as [|[k' e'] m IH]; cbn; [reflexivity|].
  rewrite not_elem_of_cons. intros [Hne Hin].
  destruct (String.eqb k k') eqn:Hk; [|auto].
  apply String.eqb_eq in Hk. contradiction.
Qed.

Lemma price_filter_keys (P : string * CacheEntry V -> bool) m k :
  k ∈ (fst <$> List.filter P m) -> k ∈ (fst <$> m).
Proof.
  rewrite !list_elem_of_fmap. intros (kv & Hk & Hin). exists kv.
  split; [exact Hk|]. apply list_elem_of_In in Hin.
  apply filter_In in Hin as [Hin _]. now apply list_elem_of_In.
Qed.

Lemma price_filter_NoDup (P : string * CacheEntry V -> bool) m :
  NoDup (fst <$> m) -> NoDup (fst <$> List.filter P m).
Proof.
  induction m as [|[k e] m IH]; cbn; [auto|].
  rewrite NoDup_cons. intros [Hk Hnd]. destruct (P (k, e)); cbn; [|auto].
  apply NoDup_cons. split; [|auto]. intros Hin. apply Hk.
  eapply price_filter_keys; eauto.
Qed.

Lemma price_mapGet_filter (P : CacheEntry V -> bool) m k :
  NoDup (fst <$> m) ->
  mapGet k (List.filter (fun kv => P (snd kv)) m)
  = match mapGet k m with
    | Some e => if P e then Some e else None
    | None => None
    end.
Proof.
  induction m as [|[k' e'] m IH]; cbn; [reflexivity|].
  rewrite NoDup_cons. intros [Hk Hnd].
  destruct (String.eqb k k') eqn:Heq.
  - apply String.eqb_eq in Heq. subst k'.
    destruct (P e') eqn:HP; cbn.
    + now rewrite String.eqb_refl.
    + apply price_mapGet_None. intros Hin. apply Hk.
      eapply price_filter_keys; eauto.
  - destruct (P e'); cbn; [rewrite Heq|]; auto.
Qed.

Lemma price_lookup_data m k :
  lookup k ((fun kv => (fst kv, data (snd kv))) <$> m)
  = data <$> mapGet k m.
Proof.
  induction m as [|[k' e'] m IH]; cbn; [reflexivity|].
  destruct (String.eqb k k'); [reflexivity|exact IH].
Qed.

Lemma price_mapSet_keys k e m :
  NoDup (fst <$> m) -> NoDup (fst <$> mapSet k e m).
Proof.
  induction m as [|[k' e'] m IH]; cbn.
  - intros _. apply NoDup_singleton.
  - rewrite NoDup_cons. intros [Hk Hnd].
    destruct (String.eqb k k') eqn:Heq; cbn.
    + apply NoDup_cons. auto.
    + apply NoDup_cons. split; [|auto].
      intros Hin. apply Hk. clear -Hin Heq.
      induction m as [|[k0 e0] m IH]; cbn in *.
      * apply list_elem_of_singleton in Hin. subst k'.
        rewrite String.eqb_refl in Heq. discriminate.
      * destruct (String.eqb k k0); cbn in Hin;
          apply elem_of_cons in Hin as [->|Hin];
          solve [left | right; auto].
Qed.

(** The keys stay distinct, as the keys of a [Map] are. *)
Lemma price_keys_stay_distinct st :
  NoDup (keys st) ->
  (forall pair d now, NoDup (keys (set pair d now st))) /\
  (forall pair now, NoDup (keys (snd (get pair now st)))) /\
  (forall now, NoDup (keys (cleanup now st))).
Proof.
  intros Hnd. split; [|split].
  - intros. now apply price_mapSet_keys.
  - intros pair now. unfold get.
    destruct (mapGet pair (cache st)); [|exact Hnd].
    destruct (expired _ _ _); [|exact Hnd].
    now apply price_filter_NoDup.
  - intros now. now apply price_filter_NoDup.
Qed.

(** X9.  [getAll], [get] and the cleanup timer agree on what is expired.
    For a cache whose keys are distinct, as those of a [Map] are:
    [getAll()] holds for every pair what [get(pair)] returns at the same
    time; a run of [cleanup] changes neither, so the timer is not needed
    for correctness; and after [cleanup] no entry older than [maxAge] is
    left. *)
Theorem getAll_is_what_get_returns now st :
  NoDup (keys st) ->
  (forall k, lookup k (getAll now st) = fst (get k now st)) /\
  getAll now (cleanup now st) = getAll now st /\
  (forall k, fst (get k now (cleanup now st)) = fst (get k now st)) /\
  (forall k e, mapGet k (cache (cleanup now st)) = Some e ->
     (now - timestamp e <= maxAge (config st))%Z).
Proof.
  intros Hnd.
  assert (Hall : forall st', NoDup (keys st') ->
            forall k, lookup k (getAll now st') = fst (get k now st')).
  { intros st' Hnd' k. unfold getAll, get. rewrite price_lookup_data.
    rewrite (price_mapGet_filter
               (fun e => negb (expired (config st') now e)))
      by exact Hnd'.
    destruct (mapGet k (cache st')) as [e|]; [|reflexivity].
    now destruct (expired _ _ _). }
  assert (Hsame : getAll now (cleanup now st) = getAll now st).
  { unfold getAll, cleanup. cbn. f_equal.
    induction (cache st) as [|[k e] m IH]; cbn; [reflexivity|].
    destruct (expired (config st) now e) eqn:He; cbn; [exact IH|].
    rewrite He. cbn. now rewrite IH. }
  split; [now apply Hall|]. split; [exact Hsame|]. split.
  - intros k. rewrite <- Hall by now apply price_filter_NoDup.
    rewrite Hsame. now apply Hall.
  - intros k e. unfold cleanup. cbn.
    rewrite (price_mapGet_filter
               (fun e => negb (expired (config st) now e)))
      by exact Hnd.
    destruct (mapGet k (cache st)) as [e0|]; [|discriminate].
    destruct (expired (config st) now e0) eqn:He; [discriminate|].
    intros [= <-]. unfold expired in He. apply Z.ltb_ge in He. lia.
Qed.

End PriceCacheFacts.

Section PriceCacheSamples.

Import PriceCache.

Lemma getAll_is_what_get_returns_witness :
  lookup "ETH/USDC" (getAll 310000 Scenario.twoPrices) = None /\
  lookup "BTC/USDC" (getAll 310000 Scenario.twoPrices) = Some 60000%Z /\
  forall k, lookup k (getAll 310000 Scenario.twoPrices)
            = fst (get k 310000 Scenario.twoPrices).
Proof.
  split; [vm_compute; reflexivity|].
  split; [vm_compute; reflexivity|].
  apply (getAll_is_what_get_returns 310000 Scenario.twoPrices
           ltac:(apply (bool_decide_unpack _); vm_compute; exact I)).
Defined.

End PriceCacheSamples.

(** ** SmartCache: eviction and the size bound *)

Section JSFacts.
Import JS.

Lemma lt_Fin x y : lt (Fin x) (Fin y) = true <-> (x < y)%Q.
Proof.
  cbn. rewrite negb_true_iff. split.
  - intros H. apply Qnot_le_lt. intros Hle. apply Qle_bool_iff in Hle.
    congruence.
  - intros H. destruct (Qle_bool y x) eqn:E; [|reflexivity].
    apply Qle_bool_iff in E. lra.
Qed.

Lemma lt_irrefl a : lt a a = false.
Proof.
  destruct a as [| | |x]; try reflexivity.
  destruct (lt (Fin x) (Fin x)) eqn:E; [|reflexivity].
  apply lt_Fin in E. lra.
Qed.

Lemma lt_trans a b c : lt a b = true -> lt b c = true -> lt a c = true.
Proof.
  destruct a as [| | |x], b as [| | |y], c as [| | |z];
    try discriminate; try reflexivity.
  rewrite !lt_Fin. lra.
Qed.

Lemma lt_asym a b : lt a b = true -> lt b a = false.
Proof.
  intros H. destruct (lt b a) eqn:E; [|reflexivity].
  pose proof (lt_trans _ _ _ H E) as Hc. rewrite lt_irrefl in Hc.
  discriminate.
Qed.

End JSFacts.

Section EvictionFacts.
Import SmartCache.
Context {V : Type}.
Implicit Types (m : list (string * CacheItem V)) (st : t V).

Lemma leastValuable_spec now m : forall acc lv,
  (leastValuable now m acc lv = acc /\
   forall kv, kv ∈ m -> JS.lt (itemValue now (snd kv)) lv = false) \/
  (exists k item,
     leastValuable now m acc lv = Some k /\ (k, item) ∈ m /\
     JS.lt (itemValue now item) lv = true /\
     forall kv, kv ∈ m ->
       JS.lt (itemValue now (snd kv)) (itemValue now item) = false).
Proof.
  induction m as [|[k0 i0] m IH]; intros acc lv; cbn [leastValuable].
  - left. split; [reflexivity|]. intros kv H. inversion H.
  - destruct (JS.lt (itemValue now i0) lv) eqn:Hlt.
    + right. destruct (IH (Some k0) (itemValue now i0))
        as [[Hr Hall]|(k & item & Hr & Hin & Hlt' & Hall)].
      * exists k0, i0. split; [exact Hr|]. split; [left|].
        split; [exact Hlt|]. intros kv Hkv.
        apply elem_of_cons in Hkv as [->|Hkv]; [apply lt_irrefl|auto].
      * exists k, item. split; [exact Hr|]. split; [now right|].
        split; [eapply lt_trans; eauto|]. intros kv Hkv.
        apply elem_of_cons in Hkv as [->|Hkv]; [|auto].
        cbn. now apply lt_asym.
    + destruct (IH acc lv)
        as [[Hr Hall]|(k & item & Hr & Hin & Hlt' & Hall)].
      * left. split; [exact Hr|]. intros kv Hkv.
        apply elem_of_cons in Hkv as [->|Hkv]; [exact Hlt|auto].
      * right. exists k, item. split; [exact Hr|]. split; [now right|].
        split; [exact Hlt'|]. intros kv Hkv.
        apply elem_of_cons in Hkv as [->|Hkv]; [|auto]. cbn.
        destruct (JS.lt (itemValue now i0) (itemValue now item)) eqn:E;
          [|reflexivity].
        pose proof (lt_trans _ _ _ E Hlt'). congruence.
Qed.

(** X10.  [evictLeastValuable] removes nothing, or it removes the entry
    of one key, and then that entry is a least valuable one: its value is
    below [Infinity], and no entry of the cache has a value strictly below
    it. *)
Theorem eviction_takes_a_least_valuable_entry now st :
  evictLeastValuable now st = st \/
  exists k item,
    (k, item) ∈ cache st /\
    cache (evictLeastValuable now st) = mapDelete k (cache st) /\
    JS.lt (itemValue now item) JS.PInf = true /\
    forall kv, kv ∈ cache st ->
      JS.lt (itemValue now (snd kv)) (itemValue now item) = false.
Proof.
  unfold evictLeastValuable.
  destruct (leastValuable_spec now (cache st) None JS.PInf)
    as [[-> _]|(k & item & -> & Hin & Hlt & Hall)]; [now left|].
  destruct k as [|c k]; [now left|]. cbn [truthyKey].
  destruct (mapGet _ (cache st)) as [item'|]; [|now left].
  right. exists (String c k), item. auto.
Qed.

Lemma isPos_of_nonneg x :
  (0 <= x)%Q -> JS.isZero x = false -> JS.isPos x = true.
Proof.
  unfold JS.isZero, JS.isPos. intros Hx Hz.
  destruct (Qle_bool x 0) eqn:E; [|reflexivity].
  apply Qle_bool_iff in E.
  assert (x == 0)%Q as Hx0 by lra. apply Qeq_bool_iff in Hx0. congruence.
Qed.

(** The value of an entry that was stored or read in the current
    millisecond is NaN or Infinity, which is below nothing. *)
Lemma fresh_entry_value now (item : CacheItem V) :
  lastAccess item = now -> (0 <= accessCount item)%Z ->
  (timestamp item <= now)%Z ->
  JS.lt (itemValue now item) JS.PInf = false.
Proof.
  intros H Hac Hts. unfold itemValue. rewrite H, Z.sub_diag.
  change (JS.div (JS.ofZ 1) (JS.ofZ 0)) with JS.PInf.
  unfold JS.ofZ.
  assert (Ha : (0 <= inject_Z (accessCount item))%Q)
    by (change 0%Q with (inject_Z 0); now rewrite <- Zle_Qle).
  assert (Hg : (0 <= inject_Z (now - timestamp item))%Q)
    by (change 0%Q with (inject_Z 0); rewrite <- Zle_Qle; lia).
  set (a := inject_Z (accessCount item)) in *.
  set (g := inject_Z (now - timestamp item)) in *.
  cbn [JS.div]. destruct (JS.isZero g) eqn:Hgz.
  - destruct (JS.isZero a) eqn:Haz; [reflexivity|].
    now rewrite (isPos_of_nonneg a Ha Haz).
  - cbn [JS.mul]. unfold JS.scaleInf.
    destruct (JS.isZero (a / g)) eqn:Hz; [reflexivity|].
    rewrite isPos_of_nonneg; [reflexivity| |exact Hz].
    apply Qle_shift_div_l; [|lra].
    unfold JS.isZero in Hgz. destruct (Qlt_le_dec 0 g) as [Hlt|Hle];
      [exact Hlt|].
    assert (g == 0)%Q as Hg0 by lra. apply Qeq_bool_iff in Hg0. congruence.
Qed.

Lemma mapDelete_keeps k k' (item : CacheItem V) m :
  k' <> k -> (k', item) ∈ m -> (k', item) ∈ mapDelete k m.
Proof.
  intros Hne Hin. unfold mapDelete. apply list_elem_of_In.
  apply filter_In. split; [now apply list_elem_of_In|]. cbn.
  destruct (String.eqb k k') eqn:E; [|reflexivity].
  apply String.eqb_eq in E. congruence.
Qed.

Lemma one_entry_per_key k (item item' : CacheItem V) m :
  NoDup (fst <$> m) -> (k, item) ∈ m -> (k, item') ∈ m -> item = item'.
Proof.
  induction m as [|[k0 i0] m IH]; intros Hnd Hin Hin'; [inversion Hin|].
  cbn in Hnd. apply NoDup_cons in Hnd as [Hk Hnd].
  apply elem_of_cons in Hin as [Hin|Hin];
    apply elem_of_cons in Hin' as [Hin'|Hin']; try congruence; auto.
  - injection Hin as <- <-. exfalso. apply Hk.
    apply list_elem_of_fmap. exists (k, item'). auto.
  - injection Hin' as <- <-. exfalso. apply Hk.
    apply list_elem_of_fmap. exists (k, item). auto.
Qed.

(** X11.  An entry that was stored or read in the current millisecond is
    not the one that is evicted: its value is [NaN] or [Infinity], which
    is below nothing.  So the eviction loop of [set] never frees room by
    dropping what has just been used, however rarely it was used before;
    when only such entries are left, it removes nothing. *)
Theorem fresh_entry_is_never_evicted now st k item :
  NoDup (fst <$> cache st) ->
  (k, item) ∈ cache st ->
  lastAccess item = now -> (0 <= accessCount item)%Z ->
  (timestamp item <= now)%Z ->
  (k, item) ∈ cache (evictLeastValuable now st).
Proof.
  intros Hnd Hin Hla Hac Hts.
  pose proof (fresh_entry_value now item Hla Hac Hts) as Hfresh.
  unfold evictLeastValuable.
  destruct (leastValuable_spec now (cache st) None JS.PInf)
    as [[-> _]|(k' & item' & -> & Hin' & Hlt & _)]; [exact Hin|].
  destruct k' as [|c k']; [exact Hin|]. cbn [truthyKey].
  destruct (mapGet _ (cache st)) as [item''|]; [|exact Hin].
  cbn [cache withStats withCache].
  apply mapDelete_keeps; [|exact Hin]. intros ->.
  assert (item = item') by (eapply one_entry_per_key; eauto).
  congruence.
Qed.

End EvictionFacts.

Section EvictionSamples.

Import SmartCache.

(** The sample cache holds ["a"], read at time 10; an eviction at time 10
    leaves it there. *)
Lemma fresh_entry_is_never_evicted_witness :
  exists item,
    mapGet "a" (cache Sample.usedCache) = Some item /\
    ("a", item) ∈ cache (evictLeastValuable 10 Sample.usedCache).
Proof.
  eexists. split; [vm_compute; reflexivity|].
  apply (fresh_entry_is_never_evicted 10 Sample.usedCache "a");
    [apply (bool_decide_unpack _); vm_compute; exact I
    |vm_compute; left
    |reflexivity|vm_compute; discriminate|vm_compute; discriminate].
Defined.

End EvictionSamples.

Section SmartCacheSizeFacts.
Import SmartCache CacheTrace.
Context {V : Type} (stringifyLength : V -> option Z).
Implicit Types (m : list (string * CacheItem V)) (st : t V).

Lemma bytes_nonneg m : nonneg m -> (0 <= bytes m)%Z.
Proof.
  induction 1 as [|kv m H _ IH]; cbn; [lia|]. lia.
Qed.

Lemma mapGet_elem k item m :
  mapGet k m = Some item -> (k, item) ∈ m.
Proof.
  induction m as [|[k' v'] m IH]; cbn; [discriminate|].
  destruct (String.eqb k k') eqn:Hk.
  - apply String.eqb_eq in Hk. subst k'. intros [= ->]. left.
  - intros H. right. auto.
Qed.

Lemma mapDelete_nonneg k m : nonneg m -> nonneg (mapDelete k m).
Proof.
  unfold nonneg, mapDelete. rewrite !Forall_forall. intros H kv Hin.
  apply H. apply list_elem_of_In in Hin. apply filter_In in Hin as [Hin _].
  now apply list_elem_of_In.
Qed.

Lemma mapDelete_bytes k item m :
  nonneg m -> mapGet k m = Some item ->
  (bytes (mapDelete k m) <= bytes m - size item)%Z.
Proof.
  unfold mapDelete. induction m as [|[k' v'] m IH]; cbn; [discriminate|].
  intros Hnn. apply Forall_cons in Hnn as [Hv Hnn]. cbn in Hv.
  destruct (String.eqb k k') eqn:Hk; cbn.
  - intros [= ->].
    assert (bytes (List.filter (fun e => negb (String.eqb k (fst e))) m)
            <= bytes m)%Z; [|lia].
    clear -Hnn. induction Hnn as [|[k0 v0] m H _ IH]; cbn; [lia|].
    cbn in H. destruct (String.eqb k k0); cbn; lia.
  - intros H. specialize (IH Hnn H). lia.
Qed.

Lemma mapSet_nonneg k item m :
  (0 <= size item)%Z -> nonneg m -> nonneg (mapSet k item m).
Proof.
  intros Hi. induction 1 as [|[k' v'] m H Hm IH]; cbn.
  - repeat constructor. exact Hi.
  - destruct (String.eqb k k'); constructor; auto.
Qed.

Lemma mapSet_bytes k item m :
  nonneg m -> (bytes (mapSet k item m) <= bytes m + size item)%Z.
Proof.
  induction 1 as [|[k' v'] m H Hm IH]; cbn; [lia|].
  cbn in H. destruct (String.eqb k k'); cbn; lia.
Qed.

Lemma mapSet_bytes_same k item item' m :
  mapGet k m = Some item -> size item' = size item ->
  bytes (mapSet k item' m) = bytes m.
Proof.
  intros Hget Hsz. induction m as [|[k' v'] m IH]; cbn in *; [discriminate|].
  destruct (String.eqb k k'); cbn.
  - injection Hget as ->. lia.
  - rewrite IH by assumption. reflexivity.
Qed.

Lemma forget_ok k item st :
  sizeOk st -> mapGet k (cache st) = Some item ->
  sizeOk (withStats (forget item) (withCache (mapDelete k (cache st)) st)).
Proof.
  intros (Hnn & Hb & Hmax) Hget. unfold sizeOk. cbn.
  pose proof (mapDelete_bytes k item _ Hnn Hget).
  assert (0 <= size item)%Z.
  { apply mapGet_elem in Hget. unfold nonneg in Hnn.
    rewrite Forall_forall in Hnn. apply (Hnn _ Hget). }
  split; [now apply mapDelete_nonneg|]. lia.
Qed.

Lemma evictLeastValuable_ok now st :
  sizeOk st -> sizeOk (evictLeastValuable now st).
Proof.
  intros Hok. unfold evictLeastValuable.
  destruct (truthyKey _) as [k|]; [|exact Hok].
  destruct (mapGet k (cache st)) eqn:Hget; [|exact Hok].
  now apply forget_ok.
Qed.

Lemma evictLoop_ok fuel sz now : forall st st0,
  sizeOk st -> evictLoop fuel sz now st = Some st0 ->
  sizeOk st0 /\ (totalSize (stats st0) + sz <= maxSize (config st0))%Z.
Proof.
  induction fuel as [|fuel IH]; intros st st0 Hok; cbn;
    destruct (maxSize (config st) <? totalSize (stats st) + sz)%Z eqn:Hfull;
    try discriminate.
  - intros [= <-]. apply Z.ltb_ge in Hfull. auto.
  - intros H. eapply IH; [|exact H]. now apply evictLeastValuable_ok.
  - intros [= <-]. apply Z.ltb_ge in Hfull. auto.
Qed.

Hypothesis lengthsOk : forall v n, stringifyLength v = Some n -> (0 <= n)%Z.

Lemma calculateSize_nonneg v : (0 <= calculateSize stringifyLength v)%Z.
Proof.
  unfold calculateSize. destruct (stringifyLength v) eqn:H; [|lia].
  apply lengthsOk in H. lia.
Qed.

Lemma set_ok fuel key d now st st' :
  sizeOk st -> set stringifyLength fuel key d now st = Some st' ->
  sizeOk st'.
Proof.
  intros Hok. unfold set.
  destruct (maxSize (config st) <? _)%Z; [now intros [= <-]|].
  destruct (evictLoop _ _ _ _) as [st1|] eqn:Hloop; [|discriminate].
  intros [= <-]. apply evictLoop_ok in Hloop as [(Hnn & Hb & Hmax) Hroom];
    [|exact Hok].
  pose proof (calculateSize_nonneg d).
  unfold sizeOk. cbn. split; [|split].
  - now apply mapSet_nonneg.
  - pose proof (mapSet_bytes key
      {| data := d; timestamp := now; accessCount := 0; lastAccess := now;
         size := calculateSize stringifyLength d |} _ Hnn) as Hs.
    cbn in Hs. lia.
  - lia.
Qed.

Lemma get_ok key now st : sizeOk st -> sizeOk (snd (get key now st)).
Proof.
  intros Hok. unfold get. destruct (mapGet key (cache st)) as [item|] eqn:Hg.
  - destruct (maxAge (config st) <? now - timestamp item)%Z; cbn [snd].
    + destruct (forget_ok key item st Hok Hg) as (H1 & H2 & H3).
      unfold sizeOk. cbn in *. auto.
    + destruct Hok as (Hnn & Hb & Hmax). unfold sizeOk. cbn.
      assert (0 <= size item)%Z.
      { apply mapGet_elem in Hg. unfold nonneg in Hnn.
        rewrite Forall_forall in Hnn. apply (Hnn _ Hg). }
      split; [now apply mapSet_nonneg|]. split; [|exact Hmax].
      erewrite mapSet_bytes_same; eauto.
  - destruct Hok as (Hnn & Hb & Hmax). unfold sizeOk. cbn. auto.
Qed.

Lemma remove_ok key st : sizeOk st -> sizeOk (snd (remove key st)).
Proof.
  intros Hok. unfold remove.
  destruct (mapGet key (cache st)) eqn:Hg; [|exact Hok].
  now apply forget_ok.
Qed.

Lemma fold_forget_totalSize (gone : list (string * CacheItem V)) :
  forall s,
  totalSize (fold_left (fun s e => forget (snd e) s) gone s)
  = (totalSize s - bytes gone)%Z.
Proof.
  induction gone as [|e gone IH]; intros s; cbn; [lia|].
  rewrite IH. cbn. lia.
Qed.

Lemma bytes_partition (P : string * CacheItem V -> bool) m :
  bytes m = (bytes (List.filter P m)
             + bytes (List.filter (fun e => negb (P e)) m))%Z.
Proof.
  induction m as [|e m IH]; cbn; [reflexivity|].
  destruct (P e); cbn; lia.
Qed.

Lemma cleanup_ok now st : sizeOk st -> sizeOk (cleanup now st).
Proof.
  intros (Hnn & Hb & Hmax). unfold sizeOk, cleanup.
  cbn [cache stats config totalSize]. rewrite fold_forget_totalSize.
  pose proof (bytes_partition
                (fun e => expired (config st) now (snd e)) (cache st)) as Hp.
  cbv beta in Hp.
  assert (Hgone : nonneg (List.filter
            (fun e => expired (config st) now (snd e)) (cache st))).
  { unfold nonneg in *. rewrite !Forall_forall in *. intros kv Hin.
    apply Hnn. apply list_elem_of_In in Hin.
    apply filter_In in Hin as [Hin _]. now apply list_elem_of_In. }
  apply bytes_nonneg in Hgone.
  split; [|lia].
  unfold nonneg in *. rewrite !Forall_forall in *. intros kv Hin.
  apply Hnn. apply list_elem_of_In in Hin.
  apply filter_In in Hin as [Hin _]. now apply list_elem_of_In.
Qed.

Lemma cache_applyOp_config fuel op st st' :
  applyOp stringifyLength fuel op st = Some st' -> config st' = config st.
Proof.
  destruct op as [key d now|key now|key|now|now]; cbn.
  - unfold set. destruct (_ <? _)%Z; [now intros [= <-]|].
    destruct (evictLoop _ _ _ _) as [st1|] eqn:Hl; [|discriminate].
    intros [= <-]. cbn. eapply evictLoop_config; eauto.
  - intros [= <-]. unfold get. destruct (mapGet _ _); [|reflexivity].
    now destruct (_ <? _)%Z.
  - intros [= <-]. unfold remove. now destruct (mapGet _ _).
  - now intros [= <-].
  - now intros [= <-].
Qed.

Lemma cache_applyOp_ok fuel op st st' :
  (0 <= maxSize (config st))%Z -> sizeOk st ->
  applyOp stringifyLength fuel op st = Some st' -> sizeOk st'.
Proof.
  intros Hmax Hok. destruct op as [key d now|key now|key|now|now]; cbn.
  - now apply set_ok.
  - intros [= <-]. now apply get_ok.
  - intros [= <-]. now apply remove_ok.
  - intros [= <-]. now apply cleanup_ok.
  - intros [= <-]. unfold sizeOk. cbn. split; [constructor|lia].
Qed.

(** X12.  The cache never holds more than [maxSize] bytes.  Take a cache
    whose accounting is sound: no entry has a negative size, the sizes of
    the entries add up to no more than [totalSize], and [totalSize] is
    within [maxSize].  After any sequence of [set], [get], [delete],
    [cleanup] and [clear] calls that return, the sizes of the entries
    still add up to no more than [totalSize], which is still within
    [maxSize]. *)
Theorem cached_bytes_stay_within_maxSize fuel ops : forall st st',
  (0 <= maxSize (config st))%Z -> sizeOk st ->
  runOps stringifyLength fuel ops st = Some st' ->
  (bytes (cache st') <= totalSize (stats st'))%Z /\
  (totalSize (stats st') <= maxSize (config st))%Z.
Proof.
  induction ops as [|op ops IH]; intros st st' Hmax Hok; cbn.
  - intros [= <-]. destruct Hok as (_ & H1 & H2). auto.
  - destruct (applyOp _ _ _ _) as [st1|] eqn:Hop; [|discriminate].
    intros Hrun. pose proof (cache_applyOp_config _ _ _ _ Hop) as Hc.
    rewrite <- Hc. apply IH; [rewrite Hc; exact Hmax| |exact Hrun].
    eapply cache_applyOp_ok; eauto.
Qed.

End SmartCacheSizeFacts.

Section SmartCacheSizeSamples.

Import SmartCache CacheTrace.

(** The sample cache of 16 bytes: three values are stored, one is read,
    the expired ones are cleaned up.  ["1234"] takes 12 bytes, [""] and
    ["x"] take 4 and 6. *)
Lemma cached_bytes_stay_within_maxSize_witness :
  exists st',
    runOps Sample.textLength 4 Scenario.cacheCalls Sample.smallCache
      = Some st' /\
    (bytes (cache st') <= totalSize (stats st'))%Z /\
    (totalSize (stats st') <= 16)%Z.
Proof.
  eexists. split; [vm_compute; reflexivity|].
  apply (cached_bytes_stay_within_maxSize Sample.textLength
           ltac:(intros v n [= <-]; lia)
           4 Scenario.cacheCalls Sample.smallCache _
           ltac:(vm_compute; discriminate)
           ltac:(split; [constructor|split; vm_compute; discriminate])).
  vm_compute; reflexivity.
Defined.

End SmartCacheSizeSamples.

Section SmartCacheOverwrite.

Import SmartCache CacheTrace.

Context {V : Type} (stringifyLength : V -> option Z).
Implicit Types (m : list (string * CacheItem V)) (st : t V).

Lemma mapSet_length k (item old : CacheItem V) m :
  mapGet k m = Some old -> length (mapSet k item m) = length m.
Proof.
  induction m as [|[k' v'] m IH]; cbn; [discriminate|].
  destruct (String.eqb k k'); cbn; [reflexivity|].
  intros H. now rewrite IH.
Qed.

Lemma mapSet_bytes_replace k (item old : CacheItem V) m :
  mapGet k m = Some old ->
  bytes (mapSet k item m) = (bytes m - size old + size item)%Z.
Proof.
  induction m as [|[k' v'] m IH]; cbn; [discriminate|].
  destruct (String.eqb k k'); cbn.
  - intros [= ->]. lia.
  - intros H. rewrite IH by exact H. lia.
Qed.

(** X13.  Storing under a key that is already cached counts the entry
    twice.  When the new value fits without an eviction, [set] replaces
    the entry of the key, so the cache has as many entries as before, but
    it adds the new size to [totalSize] without taking the old size off,
    and it adds one to [itemCount].  The bytes held grow by the difference
    of the two sizes only; [totalSize] is ahead of them by the old size
    from then on. *)
Theorem overwrite_counts_the_entry_twice fuel key (d : V) now st old :
  mapGet key (cache st) = Some old ->
  (calculateSize stringifyLength d <= maxSize (config st))%Z ->
  (totalSize (stats st) + calculateSize stringifyLength d
   <= maxSize (config st))%Z ->
  exists st',
    set stringifyLength fuel key d now st = Some st' /\
    length (cache st') = length (cache st) /\
    totalSize (stats st')
      = (totalSize (stats st) + calculateSize stringifyLength d)%Z /\
    itemCount (stats st') = (itemCount (stats st) + 1)%Z /\
    bytes (cache st')
      = (bytes (cache st) - size old + calculateSize stringifyLength d)%Z.
Proof.
  intros Hold Hfits Hroom. unfold set.
  assert ((maxSize (config st) <? calculateSize stringifyLength d)%Z = false)
    as -> by (apply Z.ltb_ge; lia).
  assert (Hloop : evictLoop fuel (calculateSize stringifyLength d) now st
                  = Some st).
  { destruct fuel; cbn;
      assert ((maxSize (config st)
               <? totalSize (stats st) + calculateSize stringifyLength d)%Z
              = false) as -> by (apply Z.ltb_ge; lia); reflexivity. }
  rewrite Hloop. eexists. split; [reflexivity|].
  cbn [cache stats totalSize itemCount].
  split; [eapply mapSet_length; eauto|].
  split; [reflexivity|]. split; [reflexivity|].
  now rewrite (mapSet_bytes_replace key _ old).
Qed.

Lemma evictLeastValuable_gap now st :
  nonneg (cache st) ->
  nonneg (cache (evictLeastValuable now st)) /\
  (totalSize (stats st) - bytes (cache st)
   <= totalSize (stats (evictLeastValuable now st))
      - bytes (cache (evictLeastValuable now st)))%Z /\
  config (evictLeastValuable now st) = config st.
Proof.
  intros Hnn. unfold evictLeastValuable.
  destruct (truthyKey _) as [k|]; [|split; [exact Hnn|split; [lia|auto]]].
  destruct (mapGet k (cache st)) as [item|] eqn:Hget;
    [|split; [exact Hnn|split; [lia|auto]]].
  cbn [cache stats config withStats withCache forget totalSize].
  pose proof (mapDelete_bytes k item _ Hnn Hget).
  split; [now apply mapDelete_nonneg|]. split; [lia|reflexivity].
Qed.

Lemma evictLoop_stuck sz now fuel : forall st,
  nonneg (cache st) ->
  (maxSize (config st) < totalSize (stats st) - bytes (cache st) + sz)%Z ->
  evictLoop fuel sz now st = None.
Proof.
  induction fuel as [|fuel IH]; intros st Hnn Hgap;
    pose proof (bytes_nonneg _ Hnn) as Hb; cbn [evictLoop];
    assert ((maxSize (config st) <? totalSize (stats st) + sz)%Z = true)
      as -> by (apply Z.ltb_lt; lia); [reflexivity|].
  destruct (evictLeastValuable_gap now st Hnn) as (Hnn' & Hgap' & Hcfg).
  apply IH; [exact Hnn'|]. rewrite Hcfg. lia.
Qed.

(** X14.  [set] can fail to return.  [totalSize] may be ahead of the bytes
    that the entries hold (X13).  When the value to store would fit into
    an empty cache, but not beside the bytes that [totalSize] is ahead by,
    the eviction loop of [set] cannot make room: it empties the cache and
    then goes on calling [evictLeastValuable], which finds nothing to
    remove.  No amount of fuel lets [set] return. *)
Theorem set_hangs_on_bytes_counted_twice fuel key (d : V) now st :
  nonneg (cache st) ->
  (calculateSize stringifyLength d <= maxSize (config st))%Z ->
  (maxSize (config st)
   < totalSize (stats st) - bytes (cache st)
     + calculateSize stringifyLength d)%Z ->
  set stringifyLength fuel key d now st = None.
Proof.
  intros Hnn Hfits Hgap. unfold set.
  assert ((maxSize (config st) <? calculateSize stringifyLength d)%Z = false)
    as -> by (apply Z.ltb_ge; lia).
  now rewrite evictLoop_stuck.
Qed.

End SmartCacheOverwrite.

Section SmartCacheOverwriteSamples.

Import SmartCache CacheTrace.

(** The empty string, 4 bytes, is stored twice under ["a"] in the sample
    cache of 16 bytes: one entry, 8 bytes counted. *)
Lemma overwrite_counts_the_entry_twice_witness :
  exists st st',
    set Sample.textLength 0 "a" "" 0 Sample.smallCache = Some st /\
    set Sample.textLength 0 "a" "" 1 st = Some st' /\
    length (cache st') = 1%nat /\ bytes (cache st') = 4%Z /\
    totalSize (stats st') = 8%Z /\ itemCount (stats st') = 2%Z.
Proof.
  eexists.
  destruct (overwrite_counts_the_entry_twice Sample.textLength 0 "a" "" 1
              (default Sample.smallCache
                 (set Sample.textLength 0 "a" "" 0 Sample.smallCache))
              {| data := ""; timestamp := 0; accessCount := 0;
                 lastAccess := 0; size := 4 |}
              ltac:(vm_compute; reflexivity)
              ltac:(vm_compute; discriminate)
              ltac:(vm_compute; discriminate))
    as (st' & Hset & Hlen & Htotal & Hcount & Hbytes).
  exists st'. split; [vm_compute; reflexivity|].
  split; [exact Hset|]. split; [exact Hlen|].
  split; [exact Hbytes|]. split; [exact Htotal|exact Hcount].
Defined.

(** After the empty string was stored four times under ["a"], 16 bytes
    are counted and 4 are held.  ["1234"] takes 12 bytes, which is less
    than the cache may hold, and [set] does not return. *)
Lemma set_hangs_on_bytes_counted_twice_witness :
  exists st,
    Scenario.countedTwice = Some st /\
    length (cache st) = 1%nat /\
    set Sample.textLength 1000 "b" "1234" 4 st = None.
Proof.
  eexists. split; [vm_compute; reflexivity|].
  split; [reflexivity|].
  apply (set_hangs_on_bytes_counted_twice Sample.textLength 1000 "b" "1234"
           4 (default Sample.smallCache Scenario.countedTwice)
           ltac:(vm_compute; constructor; [discriminate|constructor])
           ltac:(vm_compute; discriminate)
           ltac:(vm_compute; reflexivity)).
Defined.

End SmartCacheOverwriteSamples.

(** ** HedgeService: closing, adjusting and rebalancing *)

Section HedgeServiceCalls.
Import HedgeService.
Variable stringifyLength : Q -> option Z.
Variable fuel : nat.
Local Abbreviation getETHPrice := (getETHPrice stringifyLength fuel).
Local Abbreviation evaluateAndHedge :=
  (evaluateAndHedge stringifyLength fuel).
Local Abbreviation closePosition := (closePosition stringifyLength fuel).
Local Abbreviation adjustHedgePosition :=
  (adjustHedgePosition stringifyLength fuel).
Local Abbreviation rebalanceEntry := (rebalanceEntry stringifyLength fuel).

(** X15.  A close that fails leaves the position open.  When the price
    cannot be had, [closePosition] throws what the price request threw
    and no order is sent, whatever the market would do with one.  When
    there is a price and the market rejects the buy order, [closePosition]
    throws what the market threw, after that one order.  In both cases
    the position map is as before: the position is still there and still
    open, so a later close can be tried. *)
Theorem failed_close_leaves_the_position_open mkt clk positionId score st
    p :
  positions st !! positionId = Some p -> status p = Open ->
  (forall e st1,
     getETHPrice mkt clk st = Some (JS.Thrown e, st1) ->
     exists st',
       closePosition mkt clk positionId score st = Some (JS.Thrown e, st') /\
       positions st' = positions st /\ orders st' = orders st) /\
  (forall price st1 e,
     getETHPrice mkt clk st = Some (JS.Returned price, st1) ->
     Market.executeMarketOrder mkt (closingOrder p) = JS.Thrown e ->
     exists st',
       closePosition mkt clk positionId score st = Some (JS.Thrown e, st') /\
       positions st' = positions st /\
       orders st' = orders st ++ [closingOrder p]).
Proof.
  intros Hp Hopen. split.
  - intros e st1 Hprice. unfold HedgeService.closePosition.
    rewrite Hp, Hopen, Hprice.
    apply getETHPrice_frame in Hprice as [c ->].
    eexists. split; [reflexivity|]. cbn. auto.
  - intros price st1 e Hprice Hfail. unfold HedgeService.closePosition.
    rewrite Hp, Hopen, Hprice.
    apply getETHPrice_frame in Hprice as [c ->].
    unfold executeMarketOrder. fold (closingOrder p). rewrite Hfail.
    eexists. split; [reflexivity|]. cbn. auto.
Qed.

(** X16.  A close that goes through fixes the profit of the position.
    The position is replaced by a closed one with the same id, open price
    and amount, and with [pnl = amount * (1 - currentPrice / openPrice)]:
    the hedge, a short position, gains when the price has fallen below the
    open price and loses when it has risen above it. *)
Theorem close_fixes_the_pnl mkt clk positionId score st p a price st1 :
  positions st !! positionId = Some p -> status p = Open ->
  amount p = JS.Fin a -> ~ (openPrice p == 0)%Q ->
  getETHPrice mkt clk st = Some (JS.Returned price, st1) ->
  (forall order, exists response,
      Market.executeMarketOrder mkt order = JS.Returned response) ->
  exists st' p' gain,
    closePosition mkt clk positionId score st = Some (JS.Returned tt, st') /\
    positions st' = <[positionId := p']> (positions st) /\
    status p' = Closed /\ pnl p' = Some (JS.Fin gain) /\
    (gain == a * (1 - price / openPrice p))%Q /\
    id p' = id p /\ openPrice p' = openPrice p /\ amount p' = amount p /\
    ((0 < a)%Q -> (0 < openPrice p)%Q ->
       ((price < openPrice p)%Q -> (0 < gain)%Q) /\
       ((openPrice p < price)%Q -> (gain < 0)%Q)).
Proof.
  intros Hp Hopen Ha Ho Hprice Hfill. unfold HedgeService.closePosition.
  rewrite Hp, Hopen, Hprice.
  apply getETHPrice_frame in Hprice as [c ->].
  unfold executeMarketOrder.
  match goal with
  | |- context [Market.executeMarketOrder mkt ?order] =>
      destruct (Hfill order) as [response ->]
  end.
  rewrite Ha. cbn [JS.div JS.sub JS.add JS.neg JS.mul].
  unfold JS.isZero.
  destruct (Qeq_bool (openPrice p) 0) eqn:Hz.
  { apply Qeq_bool_iff in Hz. contradiction. }
  cbn [JS.add JS.neg JS.mul].
  do 3 eexists. split; [reflexivity|]. cbn.
  split; [reflexivity|]. split; [reflexivity|]. split; [reflexivity|].
  split; [ring|]. split; [reflexivity|]. split; [reflexivity|].
  split; [reflexivity|].
  intros Hpos Hopos. split; intros Hlt.
  - assert (price / openPrice p < 1)%Q
      by (apply Qlt_shift_div_r; [exact Hopos|lra]).
    apply Qmult_lt_0_compat; lra.
  - assert (1 < price / openPrice p)%Q
      by (apply Qlt_shift_div_l; [exact Hopos|lra]).
    assert (0 < a * (price / openPrice p - 1))%Q
      by (apply Qmult_lt_0_compat; lra).
    lra.
Qed.

(** X17.  Whatever way a call of [evaluateAndHedge] ends, it leaves the
    configuration as it is and touches no position but the one under the
    id it generates for this call.  If it does not return normally, the
    position map is unchanged.  At most one order goes to the market. *)
Theorem evaluateAndHedge_touches_one_position mkt clk borrowerId score loan
    st r st' :
  evaluateAndHedge mkt clk borrowerId score loan st = Some (r, st') ->
  config st' = config st /\
  (forall i, i <> positionId (atOrder clk) borrowerId ->
     positions st' !! i = positions st !! i) /\
  (r <> JS.Returned tt -> positions st' = positions st) /\
  (length (orders st') <= S (length (orders st)))%nat.
Proof.
  unfold HedgeService.evaluateAndHedge.
  destruct (negb _); [intros [= <- <-]; auto|].
  destruct (RateLimiter.acquire _ _ _ _ _ _) as [[[|]|] rl]; [| |discriminate].
  - destruct (HedgeService.getETHPrice _ _ _ _ _) as [[[price|e] st2]|]
      eqn:Hprice; [| |discriminate].
    + apply getETHPrice_frame in Hprice as [c ->].
      unfold executeMarketOrder.
      destruct (Market.executeMarketOrder mkt _) as [resp|e];
        intros [= <- <-]; cbn; rewrite ?length_app; cbn;
        repeat split; auto; try lia; try congruence.
      intros i Hi. now rewrite lookup_insert_ne by congruence.
    + apply getETHPrice_frame in Hprice as [c ->].
      intros [= <- <-]; cbn. repeat split; auto.
  - intros [= <- <-]; cbn. repeat split; auto.
Qed.


(** With a hedge ratio of one half, the division of the amount by the
    ratio and the multiplication of the quotient by it cancel without
    rounding. *)
Lemma topUp_not_needed cfg a score :
  (0 <= a)%Q -> (hedgeRatio cfg == 1 # 2)%Q ->
  (0 < creditScoreThreshold cfg)%Q -> (0 <= score)%Q ->
  JS.le (calculateHedgeAmount cfg
           (JS.div (JS.Fin a) (JS.Fin (hedgeRatio cfg))) score)
        (JS.Fin a) = true.
Proof.
  intros Ha Hr Hthr Hs. unfold calculateHedgeAmount. cbn [JS.div].
  unfold JS.isZero.
  destruct (Qeq_bool (hedgeRatio cfg) 0) eqn:Hz.
  { apply Qeq_bool_iff in Hz. rewrite Hr in Hz. discriminate. }
  destruct (Qeq_bool (creditScoreThreshold cfg) 0) eqn:Hz'.
  { apply Qeq_bool_iff in Hz'. lra. }
  cbn. apply Qle_bool_iff.
  set (adj := ((creditScoreThreshold cfg - score)
               / creditScoreThreshold cfg)%Q).
  assert (Hadj : (adj <= 1)%Q).
  { unfold adj. apply Qle_shift_div_r; [exact Hthr|]. lra. }
  eapply Qle_trans; [apply Q.le_min_l|].
  assert (Heq : (a / hedgeRatio cfg * hedgeRatio cfg * adj == a * adj)%Q).
  { rewrite Hr. field. }
  rewrite Heq.
  assert (0 <= a * (1 - adj))%Q by (apply Qmult_le_0_compat; lra).
  lra.
Qed.

(** X18.  With the hedge ratio of the default configuration, one half,
    [adjustHedgePosition] never tops a position up.  It recomputes the
    hedge amount from [position.amount / hedgeRatio] as the loan amount.
    Division by one half and multiplication by it are exact, so the
    result is the old amount scaled by
    [(threshold - newScore) / threshold], which is at most 1 for a score
    that is not negative.  The new amount does not exceed the old one and
    the call returns without an order, however far the score has fallen.
    For other ratios it is the rounding of [(amount / ratio) * ratio]
    that decides, which is outside the exact arithmetic of the
    embedding; so is the overflow of the quotient, which is taken to be
    at most [Number.MAX_VALUE]. *)
Theorem adjust_never_tops_up mkt clk positionId score st p a :
  positions st !! positionId = Some p -> amount p = JS.Fin a ->
  (0 <= a)%Q -> (a / hedgeRatio (config st) <= JS.MAX_VALUE)%Q ->
  (hedgeRatio (config st) == 1 # 2)%Q ->
  (0 < creditScoreThreshold (config st))%Q -> (0 <= score)%Q ->
  adjustHedgePosition mkt clk positionId score st
    = Some (JS.Returned tt, st).
Proof.
  intros Hp Ha Hpos _ Hr Hthr Hs. unfold HedgeService.adjustHedgePosition.
  rewrite Hp, Ha. now rewrite topUp_not_needed.
Qed.

(** X19.  With the hedge ratio of the default configuration, one half,
    the periodic rebalancing does nothing.  It reads the current score of
    a position from [getCurrentCreditScore], which is a placeholder that
    returns 0.  With a positive [minCreditScoreToClose] the branch that
    closes a position is not taken; the other branch calls
    [adjustHedgePosition] for a score of 0, which does not top up when the
    ratio is one half and the amount divided by it is a finite number
    (X18).  So an iteration of the loop of [rebalancePositions] leaves
    the service as it is: no position is ever closed by it. *)
Theorem rebalance_changes_nothing mkt clk positionId st :
  (0 < minCreditScoreToClose (config st))%Q ->
  (hedgeRatio (config st) == 1 # 2)%Q ->
  (0 < creditScoreThreshold (config st))%Q ->
  (forall p, positions st !! positionId = Some p ->
     exists a, amount p = JS.Fin a /\ (0 <= a)%Q /\
               (a / hedgeRatio (config st) <= JS.MAX_VALUE)%Q) ->
  rebalanceEntry mkt clk positionId st = Some st.
Proof.
  intros Hmin Hr Hthr Hamt. unfold HedgeService.rebalanceEntry.
  destruct (positions st !! positionId) as [p|] eqn:Hp; [|reflexivity].
  destruct (status p); [|reflexivity].
  unfold getCurrentCreditScore.
  destruct (Qle_bool (minCreditScoreToClose (config st)) 0) eqn:Hclose.
  { apply Qle_bool_iff in Hclose. lra. }
  destruct (negb _); [|reflexivity].
  destruct (Hamt p eq_refl) as (a & Ha & Hpos & _).
  unfold HedgeService.adjustHedgePosition. rewrite Hp, Ha.
  now rewrite topUp_not_needed by (try assumption; lra).
Qed.


(** X20.  A hedge that the rate limiter refuses.  When the bucket of
    hedge operations, refilled up to the time of the call, holds less than
    one token, a call for a score at or below the threshold throws "Rate
    limit exceeded for hedge operations".  No price is asked for, no order
    is sent, no position is recorded and the cache is not touched.  What
    the call leaves behind is the error event in the log and the trace of
    the refused [acquire] in the limiter: the bucket of hedge operations
    is refilled, and the statistics of that key count one more request
    and one more rejected request.  The other buckets and statistics
    stay. *)
Theorem denied_hedge_does_nothing mkt clk borrowerId score loan st :
  (score <= creditScoreThreshold (config st))%Q ->
  (RateLimiter.tokens
     (RateLimiter.refillBucket (RateLimiter.config (rateLimiter st))
        (atEntry clk)
        (RateLimiter.bucketAt "hedge" (atEntry clk) (rateLimiter st)))
   < 1)%Q ->
  exists st',
    evaluateAndHedge mkt clk borrowerId score loan st
      = Some (JS.Thrown (JS.Error "Rate limit exceeded for hedge operations"),
              st') /\
    config st' = config st /\
    positions st' = positions st /\ orders st' = orders st /\
    cache st' = cache st /\
    events st'
      = EventTracker.trackEvent
          (EventTracker.mkEvent "hedge" "open_position" "error" (JS.Fin 0)
             borrowerId (atEntry clk)) (events st) /\
    RateLimiter.config (rateLimiter st')
      = RateLimiter.config (rateLimiter st) /\
    RateLimiter.buckets (rateLimiter st')
      = <["hedge" :=
            RateLimiter.refillBucket (RateLimiter.config (rateLimiter st))
              (atEntry clk)
              (RateLimiter.bucketAt "hedge" (atEntry clk) (rateLimiter st))]>
          (RateLimiter.buckets (rateLimiter st)) /\
    RateLimiter.stats (rateLimiter st') !! "hedge"
      = RateLimiter.rejectedOnce
          <$> RateLimiter.statsAt "hedge" (atEntry clk) (rateLimiter st) /\
    forall key, key <> "hedge" ->
      RateLimiter.stats (rateLimiter st') !! key
      = RateLimiter.stats (rateLimiter st) !! key.
Proof.
  intros Hle Hlow. unfold HedgeService.evaluateAndHedge.
  apply Qle_bool_iff in Hle. rewrite Hle. cbn [negb].
  destruct (acquire_spec "hedge" 1 0 (atEntry clk) [] (rateLimiter st))
    as (Hr & Hb & Hc).
  pose proof (fun key => acquire_stats_ne "hedge" 1 0 (atEntry clk) []
                           (rateLimiter st) key) as Hne.
  cbn [RateLimiter.acquireLoop] in Hr, Hb.
  destruct (Qle_bool 1 _) eqn:Hfit.
  { apply Qle_bool_iff in Hfit. lra. }
  pose proof (acquire_rejected_stats "hedge" 1 (atEntry clk)
                (rateLimiter st) Hfit) as Hs.
  rewrite Z.eqb_refl in Hr, Hb. cbn [orb fst snd] in Hr, Hb.
  destruct (RateLimiter.acquire _ _ _ _ _ _) as [ok rl].
  cbn [fst snd] in Hr, Hb, Hc, Hs, Hne. subst ok.
  eexists. split; [reflexivity|]. cbn. auto 12.
Qed.


End HedgeServiceCalls.

Section PositionIds.
Import HedgeService.

Lemma split_prefix sep (p rest : string) :
  contains sep p = false ->
  split sep (p +:+ String sep rest) = p :: split sep rest.
Proof.
  induction p as [|c p IH]; intros H.
  - change ("" +:+ String sep rest) with (String sep rest).
    cbn [split]. now rewrite Ascii.eqb_refl.
  - cbn [contains] in H. apply orb_false_iff in H as [Hc Hp].
    change (String c p +:+ String sep rest)
      with (String c (p +:+ String sep rest)).
    cbn [split]. rewrite Hc. now rewrite IH.
Qed.

Lemma split_whole sep (p : string) :
  contains sep p = false -> split sep p = [p].
Proof.
  induction p as [|c p IH]; intros H; [reflexivity|].
  cbn [contains] in H. apply orb_false_iff in H as [Hc Hp].
  cbn [split]. rewrite Hc. now rewrite IH.
Qed.

Lemma pretty_N_go_contains sep x : forall s,
  pretty_N_char 0 <> sep -> pretty_N_char 1 <> sep ->
  pretty_N_char 2 <> sep -> pretty_N_char 3 <> sep ->
  pretty_N_char 4 <> sep -> pretty_N_char 5 <> sep ->
  pretty_N_char 6 <> sep -> pretty_N_char 7 <> sep ->
  pretty_N_char 8 <> sep -> pretty_N_char 9 <> sep ->
  contains sep s = false -> contains sep (pretty_N_go x s) = false.
Proof.
  intros s H0 H1 H2 H3 H4 H5 H6 H7 H8 H9. revert s.
  induction (N.lt_wf_0 x) as [x _ IH]; intros s Hs.
  destruct (decide (0 < x)%N) as [Hx|Hx].
  - rewrite pretty_N_go_step by exact Hx. apply IH.
    + now apply N.div_lt.
    + cbn. rewrite Hs, orb_false_r. apply Ascii.eqb_neq.
      unfold pretty_N_char in *. repeat case_match; assumption.
  - assert (x = 0%N) as -> by lia. now rewrite pretty_N_go_0.
Qed.

Lemma pretty_Z_no_underscore (z : Z) : contains "_" (pretty z) = false.
Proof.
  assert (HN : forall n : N, contains "_" (pretty n) = false).
  { intros n. unfold pretty, pretty_N. case_decide; [reflexivity|].
    apply pretty_N_go_contains; try discriminate. reflexivity. }
  destruct z as [|p|p]; [reflexivity|apply HN|].
  change (pretty (Z.neg p)) with ("-" +:+ pretty (N.pos p)).
  cbn. apply HN.
Qed.

(** X22.  [adjustHedgePosition] recovers the borrower from the id of a
    position by [positionId.split('_')[2]].  For an id that
    [evaluateAndHedge] generated, this is the borrower if the borrower's id
    has no underscore in it; if it has one, it is the part of the
    borrower's id before the first underscore, so the top-up of the
    position is booked under another borrower. *)
Theorem borrowerOf_positionId (now : Z) (borrowerId : string) :
  (contains "_" borrowerId = false ->
   borrowerOf (positionId now borrowerId) = Some borrowerId) /\
  (forall name rest,
     contains "_" name = false ->
     borrowerId = name +:+ String "_" rest ->
     borrowerOf (positionId now borrowerId) = Some name).
Proof.
  assert (Hsplit : split "_" (positionId now borrowerId)
                   = "hedge" :: pretty now :: split "_" borrowerId).
  { unfold positionId.
    change ("hedge_" +:+ pretty now +:+ "_" +:+ borrowerId)
      with ("hedge" +:+ String "_" (pretty now +:+ String "_" borrowerId)).
    rewrite split_prefix by reflexivity.
    now rewrite split_prefix by apply pretty_Z_no_underscore. }
  unfold borrowerOf. rewrite Hsplit. split.
  - intros H. now rewrite split_whole.
  - intros name rest H ->. now rewrite split_prefix.
Qed.

End PositionIds.

Section HedgeServiceCallSamples.

Import HedgeService.

Local Abbreviation closePosition :=
  (closePosition Sample.stringifyLength Sample.fuel).
Local Abbreviation evaluateAndHedge :=
  (evaluateAndHedge Sample.stringifyLength Sample.fuel).
Local Abbreviation getETHPrice :=
  (getETHPrice Sample.stringifyLength Sample.fuel).

(** The position of the first sample call.  Half an hour later the
    cached price has expired and the market has none: the close fails
    before an order is sent.  One second later the price is cached and
    the market rejects the order: the close fails after it. *)
Lemma failed_close_leaves_the_position_open_witness :
  (exists e st',
     closePosition Scenario.silentMarket Scenario.laterCall
       Scenario.firstPosition 720 Sample.hedged = Some (JS.Thrown e, st') /\
     positions st' = positions Sample.hedged /\
     orders st' = orders Sample.hedged) /\
  (exists e st',
     closePosition Sample.rejectingMarket Sample.secondCall
       Scenario.firstPosition 720 Sample.hedged = Some (JS.Thrown e, st') /\
     positions st' = positions Sample.hedged /\
     length (orders st') = 2%nat).
Proof.
  split.
  - edestruct (failed_close_leaves_the_position_open Sample.stringifyLength
                 Sample.fuel Scenario.silentMarket Scenario.laterCall
                 Scenario.firstPosition 720 Sample.hedged)
      as [Hprice _]; [vm_compute; reflexivity|reflexivity|].
    edestruct Hprice as (st' & Hcall & Hps & Hos);
      [vm_compute; reflexivity|].
    do 2 eexists. split; [exact Hcall|]. split; [exact Hps|exact Hos].
  - edestruct (failed_close_leaves_the_position_open Sample.stringifyLength
                 Sample.fuel Sample.rejectingMarket Sample.secondCall
                 Scenario.firstPosition 720 Sample.hedged)
      as [_ Horder]; [vm_compute; reflexivity|reflexivity|].
    edestruct Horder as (st' & Hcall & Hps & Hos);
      [vm_compute; reflexivity|reflexivity|].
    do 2 eexists. split; [exact Hcall|]. split; [exact Hps|].
    rewrite Hos. reflexivity.
Defined.

(** The position was opened at a price of 2000; it is closed when the
    market quotes 1800, and gains a tenth of its amount. *)
Lemma close_fixes_the_pnl_witness :
  exists st' p' gain,
    closePosition Scenario.fallenMarket Scenario.laterCall
      Scenario.firstPosition 720 Sample.hedged = Some (JS.Returned tt, st') /\
    positions st' !! Scenario.firstPosition = Some p' /\
    status p' = Closed /\ pnl p' = Some (JS.Fin gain) /\ (0 < gain)%Q.
Proof.
  edestruct (close_fixes_the_pnl Sample.stringifyLength Sample.fuel
               Scenario.fallenMarket Scenario.laterCall
               Scenario.firstPosition 720 Sample.hedged)
    as (st' & p' & gain & Hcall & Hps & Hst & Hpnl & _ & _ & _ & _ & Hsign).
  - vm_compute; reflexivity.
  - reflexivity.
  - reflexivity.
  - vm_compute. discriminate.
  - vm_compute; reflexivity.
  - intros order. eexists. reflexivity.
  - exists st', p', gain. split; [exact Hcall|].
    split; [rewrite Hps; apply lookup_insert_eq|].
    split; [exact Hst|]. split; [exact Hpnl|].
    apply Hsign; vm_compute; reflexivity.
Defined.

Lemma evaluateAndHedge_touches_one_position_witness :
  exists r st',
    evaluateAndHedge Sample.fillingMarket Sample.secondCall "alice" 540
      (JS.Fin 50000) Sample.hedged = Some (r, st') /\
    positions st' !! Scenario.firstPosition
      = positions Sample.hedged !! Scenario.firstPosition /\
    (length (orders st') <= 2)%nat.
Proof.
  do 2 eexists. split; [vm_compute; reflexivity|].
  edestruct (evaluateAndHedge_touches_one_position Sample.stringifyLength
               Sample.fuel Sample.fillingMarket Sample.secondCall "alice" 540
               (JS.Fin 50000) Sample.hedged)
    as (_ & Hframe & _ & Horders); [vm_compute; reflexivity|].
  split; [apply Hframe; vm_compute; discriminate|exact Horders].
Defined.

(** The score of the borrower has fallen from 550 to 100; the position
    is not topped up. *)
Lemma adjust_never_tops_up_witness :
  adjustHedgePosition Sample.stringifyLength Sample.fuel
    Sample.fillingMarket Sample.secondCall Scenario.firstPosition 100
    Sample.hedged = Some (JS.Returned tt, Sample.hedged).
Proof.
  eapply (adjust_never_tops_up Sample.stringifyLength Sample.fuel
            Sample.fillingMarket Sample.secondCall Scenario.firstPosition
            100 Sample.hedged).
  - vm_compute; reflexivity.
  - reflexivity.
  - vm_compute; discriminate.
  - vm_compute; discriminate.
  - vm_compute; reflexivity.
  - vm_compute; reflexivity.
  - vm_compute; discriminate.
Defined.

Lemma rebalance_changes_nothing_witness :
  rebalanceEntry Sample.stringifyLength Sample.fuel Sample.fillingMarket
    Scenario.laterCall Scenario.firstPosition Sample.hedged
  = Some Sample.hedged.
Proof.
  apply (rebalance_changes_nothing Sample.stringifyLength Sample.fuel
           Sample.fillingMarket Scenario.laterCall Scenario.firstPosition
           Sample.hedged);
    [vm_compute; reflexivity|vm_compute; reflexivity
    |vm_compute; reflexivity|].
  intros p Hp. vm_compute in Hp. injection Hp as <-.
  eexists. split; [reflexivity|]. split; vm_compute; discriminate.
Defined.

(** A hedge at the instant at which the bucket was emptied by one request
    for 100 tokens: the statistics count two requests, one accepted and
    one rejected. *)
Lemma denied_hedge_does_nothing_witness :
  exists st' s,
    evaluateAndHedge Sample.fillingMarket Sample.firstCall "alice" 550
      (JS.Fin 50000) Scenario.drained
    = Some (JS.Thrown (JS.Error "Rate limit exceeded for hedge operations"),
            st') /\
    positions st' = positions Scenario.drained /\
    orders st' = orders Scenario.drained /\
    RateLimiter.stats (rateLimiter st') !! "hedge" = Some s /\
    (RateLimiter.totalRequests s == 2)%Q /\
    (RateLimiter.acceptedRequests s == 1)%Q /\
    (RateLimiter.rejectedRequests s == 1)%Q.
Proof.
  destruct (denied_hedge_does_nothing Sample.stringifyLength Sample.fuel
              Sample.fillingMarket Sample.firstCall "alice" 550
              (JS.Fin 50000) Scenario.drained
              ltac:(vm_compute; discriminate)
              ltac:(vm_compute; reflexivity))
    as (st' & Hcall & _ & Hps & Hos & _ & _ & _ & _ & Hstats & _).
  exists st'. eexists. split; [exact Hcall|]. split; [exact Hps|].
  split; [exact Hos|]. split; [rewrite Hstats; vm_compute; reflexivity|].
  repeat split; vm_compute; reflexivity.
Defined.


End HedgeServiceCallSamples.

(** ** CreditMonitorService: the hedge ratio, the timers and the checks *)

Section HedgeRatio.

Import CreditMonitor.

(** X23.  The hedge ratio that the monitor sends to the ledger.  For a
    positive threshold and a score below it, which is when a hedge is
    triggered, [calculateHedgeRatio] is the smaller of
    [1 - score / (2 * threshold)] and 1: it lies above one half, is at
    most one, and does not fall when the score falls. *)
Theorem hedge_ratio_range cfg score :
  (0 < creditScoreThreshold cfg)%Q -> (score < creditScoreThreshold cfg)%Q ->
  exists r,
    calculateHedgeRatio cfg score = JS.Fin r /\
    (1 # 2 < r)%Q /\ (r <= 1)%Q /\
    (r == Qmin (1 - score / (2 * creditScoreThreshold cfg)) 1)%Q /\
    forall score', (score' <= score)%Q ->
      exists r', calculateHedgeRatio cfg score' = JS.Fin r' /\ (r <= r')%Q.
Proof.
  intros Hthr Hlt.
  assert (Hform : forall s,
    exists r, calculateHedgeRatio cfg s = JS.Fin r /\
      (r == Qmin (1 - s / (2 * creditScoreThreshold cfg)) 1)%Q).
  { intros s. unfold calculateHedgeRatio. cbn [JS.div]. unfold JS.isZero.
    destruct (Qeq_bool (creditScoreThreshold cfg) 0) eqn:Hz.
    { apply Qeq_bool_iff in Hz. lra. }
    cbn [JS.mul JS.add JS.min]. eexists. split; [reflexivity|].
    assert (Heq : (0.5 + (creditScoreThreshold cfg - s)
                           / creditScoreThreshold cfg * 0.5
                   == 1 - s / (2 * creditScoreThreshold cfg))%Q)
      by (field; lra).
    now rewrite Heq. }
  destruct (Hform score) as (r & Hr & Heq). exists r.
  split; [exact Hr|].
  assert (Hdiv : (score / (2 * creditScoreThreshold cfg) < 1 # 2)%Q).
  { apply Qlt_shift_div_r; lra. }
  split; [|split; [|split; [exact Heq|]]].
  - rewrite Heq. apply Q.min_glb_lt; lra.
  - rewrite Heq. apply Q.le_min_r.
  - intros score' Hle. destruct (Hform score') as (r' & Hr' & Heq').
    exists r'. split; [exact Hr'|]. rewrite Heq, Heq'.
    apply Q.min_le_compat_r.
    assert (score' / (2 * creditScoreThreshold cfg)
            <= score / (2 * creditScoreThreshold cfg))%Q; [|lra].
    apply Qmult_le_compat_r; [exact Hle|].
    apply Qinv_le_0_compat. lra.
Qed.

End HedgeRatio.

Section MonitoringLifecycle.

Import CreditMonitor Monitoring.

Variable stringifyLength : Q -> option Z.
Variable fuel : nat.

Local Abbreviation startMonitoring :=
  (startMonitoring stringifyLength fuel).
Local Abbreviation rearm := (rearm stringifyLength fuel).
Local Abbreviation updateConfig := (updateConfig stringifyLength fuel).

Lemma handleOf_elem b h m : (b, h) ∈ m -> is_Some (handleOf b m).
Proof.
  induction m as [|[b' h'] m IH]; intros Hin; [inversion Hin|].
  cbn. destruct (String.eqb b b') eqn:Hb; [eauto|].
  apply elem_of_cons in Hin as [[= -> ->]|Hin]; [|auto].
  rewrite String.eqb_refl in Hb. discriminate.
Qed.

Lemma startMonitoring_monitored b score loan now st :
  is_Some (handleOf b (monitoringMap st)) ->
  startMonitoring b score loan now st = Some st.
Proof.
  intros [h Hh]. unfold Monitoring.startMonitoring. now rewrite Hh.
Qed.

Lemma cacheGet_frame key now st :
  monitoringMap (snd (cacheGet key now st)) = monitoringMap st /\
  intervals (snd (cacheGet key now st)) = intervals st /\
  config (snd (cacheGet key now st)) = config st /\
  retries (snd (cacheGet key now st)) = retries st /\
  alertCallbacks (snd (cacheGet key now st)) = alertCallbacks st /\
  submitted (snd (cacheGet key now st)) = submitted st.
Proof.
  unfold cacheGet. destruct (SmartCache.get _ _ _). cbn. auto 10.
Qed.

(** One entry of the [forEach] of [updateConfig]: the timer of the entry
    is cleared and nothing is started. *)
Lemma rearm_clears now b h st :
  is_Some (handleOf b (monitoringMap st)) ->
  exists st',
    rearm now (b, h) (Some st) = Some st' /\
    monitoringMap st' = monitoringMap st /\
    intervals st' = clearInterval h (intervals st) /\
    config st' = config st /\ retries st' = retries st /\
    alertCallbacks st' = alertCallbacks st.
Proof.
  intros Hb. unfold Monitoring.rearm.
  match goal with
  | |- context [cacheGet ?k now ?s] =>
      destruct (cacheGet_frame k now s) as (Hm & Hi & Hc & Hr & Ha & _);
      destruct (cacheGet k now s) as [loan st2]
  end.
  cbn [snd monitoringMap intervals config retries alertCallbacks] in *.
  destruct (HedgeService.truthy loan) as [amount|].
  - match goal with
    | |- context [cacheGet ?k now ?s] =>
        destruct (cacheGet_frame k now s) as (Hm' & Hi' & Hc' & Hr' & Ha' & _);
        destruct (cacheGet k now s) as [score st3]
    end.
    cbn [snd] in *.
    rewrite startMonitoring_monitored by (rewrite Hm', Hm; exact Hb).
    eexists. split; [reflexivity|]. repeat split; congruence.
  - eexists. split; [reflexivity|]. repeat split; congruence.
Qed.

Lemma rearm_all now entries : forall st,
  (forall e, e ∈ entries -> is_Some (handleOf (fst e) (monitoringMap st))) ->
  exists st',
    foldl (fun acc entry => rearm now entry acc) (Some st) entries
      = Some st' /\
    monitoringMap st' = monitoringMap st /\
    intervals st'
      = foldl (fun timers e => clearInterval (snd e) timers)
          (intervals st) entries /\
    config st' = config st /\ retries st' = retries st /\
    alertCallbacks st' = alertCallbacks st.
Proof.
  induction entries as [|[b h] entries IH]; intros st Hall.
  - exists st. cbn. auto 10.
  - destruct (rearm_clears now b h st) as (st1 & H1 & Hm & Hi & Hc & Hr & Ha).
    { apply (Hall (b, h)). left. }
    destruct (IH st1) as (st' & H' & Hm' & Hi' & Hc' & Hr' & Ha').
    { intros e He. rewrite Hm. apply Hall. now right. }
    exists st'. cbn [foldl]. rewrite H1. split; [exact H'|].
    cbn [snd]. rewrite <- Hi. repeat split; congruence.
Qed.

Lemma clearInterval_all (entries : list (string * nat)) : forall timers i,
  i ∈ foldl (fun timers e => clearInterval (snd e) timers) timers entries ->
  i ∈ timers /\ forall e, e ∈ entries -> handle i <> snd e.
Proof.
  induction entries as [|e entries IH]; intros timers i; cbn [foldl].
  - intros Hi. split; [exact Hi|]. intros e He. inversion He.
  - intros Hi. apply IH in Hi as [Hi Hrest].
    unfold clearInterval in Hi. apply list_elem_of_In in Hi.
    apply filter_In in Hi as [Hi Hh]. apply list_elem_of_In in Hi.
    split; [exact Hi|]. intros e' He'.
    apply elem_of_cons in He' as [->|He']; [|auto].
    apply negb_true_iff, Nat.eqb_neq in Hh. exact Hh.
Qed.

Lemma handleOf_stopped b (m : list (string * nat)) :
  handleOf b (List.filter (fun e => negb (String.eqb b (fst e))) m) = None.
Proof.
  induction m as [|[b' h'] m IH]; cbn; [reflexivity|].
  destruct (String.eqb b b') eqn:Hb; cbn; [exact IH|]. now rewrite Hb.
Qed.

Lemma handleOf_started b h (m : list (string * nat)) :
  handleOf b m = None -> handleOf b (m ++ [(b, h)]) = Some h.
Proof.
  induction m as [|[b' h'] m IH]; cbn.
  - now rewrite String.eqb_refl.
  - destruct (String.eqb b b'); [discriminate|exact IH].
Qed.

(** After [stopMonitoring], a [startMonitoring] that returns has set a
    timer for the borrower. *)
Lemma restart_after_stop b now score loan later st st'' :
  startMonitoring b (Some score) loan later (stopMonitoring b now st)
    = Some st'' ->
  mkInterval (nextHandle st) b loan ∈ intervals st'' /\
  handleOf b (monitoringMap st'') = Some (nextHandle st).
Proof.
  assert (Hstop : handleOf b (monitoringMap (stopMonitoring b now st)) = None
                  /\ nextHandle (stopMonitoring b now st) = nextHandle st).
  { unfold stopMonitoring.
    destruct (handleOf b (monitoringMap st)) as [h|] eqn:Hh; [|auto].
    cbn. split; [apply handleOf_stopped|reflexivity]. }
  destruct Hstop as [Hnone Hnext].
  unfold Monitoring.startMonitoring. rewrite Hnone, Hnext.
  destruct (SmartCache.set _ _ _ _ _ _) as [c|]; [|discriminate].
  intros [= <-]. cbn. split.
  - apply elem_of_app. right. left.
  - now apply handleOf_started.
Qed.

(** X24.  [updateConfig] stops the monitoring of every borrower.  It merges
    the new configuration and clears the timer of every monitored
    borrower; the restart that follows is a call of [startMonitoring] for
    a borrower that [monitoringMap] still holds, which returns at once.
    So the call always returns, no timer of a monitored borrower is left
    running, and the borrowers stay in [monitoringMap], so that a later
    [startMonitoring] for one of them starts nothing either.  Monitoring
    resumes only after [stopMonitoring] for the borrower: a
    [startMonitoring] that returns then runs a timer for it. *)
Theorem updateConfig_stops_every_monitor newConfig now st :
  exists st',
    updateConfig newConfig now st = Some st' /\
    config st' = merge (config st) newConfig /\
    monitoringMap st' = monitoringMap st /\
    (forall i, i ∈ intervals st' ->
       i ∈ intervals st /\
       forall e, e ∈ monitoringMap st -> handle i <> snd e) /\
    (forall e score loan later,
       e ∈ monitoringMap st ->
       startMonitoring (fst e) score loan later st' = Some st') /\
    (forall b stopped score loan later st'',
       startMonitoring b (Some score) loan later
         (stopMonitoring b stopped st') = Some st'' ->
       mkInterval (nextHandle st') b loan ∈ intervals st'').
Proof.
  unfold Monitoring.updateConfig.
  match goal with
  | |- context [foldl _ (Some ?s) _] =>
      destruct (rearm_all now (monitoringMap s) s)
        as (st' & Hrun & Hm & Hi & Hc & _)
  end.
  { intros [b h] He. now apply (handleOf_elem b h). }
  cbn [monitoringMap intervals config] in *.
  exists st'. split; [exact Hrun|]. split; [exact Hc|].
  split; [exact Hm|]. split; [|split].
  - intros i Hin. rewrite Hi in Hin. now apply clearInterval_all in Hin.
  - intros [b h] score loan later He. apply startMonitoring_monitored.
    rewrite Hm. now apply (handleOf_elem b h).
  - intros b stopped score loan later st'' Hstart.
    now apply restart_after_stop in Hstart.
Qed.

End MonitoringLifecycle.

Section CachedValues.

Import SmartCache.

Context {V : Type} (stringifyLength : V -> option Z).
Implicit Types (m : list (string * CacheItem V)) (st : t V).

(** Every entry under [k] has the data [v]. *)
Local Abbreviation holds k v st :=
  (forall item, (k, item) ∈ cache st -> data item = v).



















End CachedValues.

Section MonitoringChecks.

Import CreditMonitor Monitoring.

Variable stringifyLength : Q -> option Z.
Variable fuel : nat.

Local Abbreviation triggerHedge := (triggerHedge stringifyLength fuel).
Local Abbreviation checkCreditScore :=
  (checkCreditScore stringifyLength fuel).













Lemma trackEvent_last e events :
  last (EventTracker.trackEvent e events) = Some e.
Proof.
  unfold EventTracker.trackEvent.
  rewrite drop_app_le; [apply last_snoc|].
  rewrite length_app. cbn. unfold EventTracker.maxEvents. lia.
Qed.

(** X25.  A check whose submission to the ledger fails.  With a positive
    threshold every check triggers a hedge, since the current score is
    read as 0.  When the wallet rejects the transaction, the check, if it
    returns, has submitted that one transaction and has done nothing else
    to the hedge: no position, no order, no token taken; no observer is
    alerted.  It is retried after [minCheckInterval] with the count raised
    by one as long as [retryCount < maxRetries]; after that a
    [check_failed] event is logged and nothing is scheduled. *)
Theorem failed_submission_is_retried wallet mkt clk b loan n st e called
    st' :
  (0 < creditScoreThreshold (config st))%Q ->
  (forall payload, wallet payload = JS.Thrown e) ->
  checkCreditScore wallet mkt clk b loan n st = Some (called, st') ->
  called = [] /\
  submitted st' = submitted st ++ [hedgePayload b 0 loan st] /\
  HedgeService.positions (hedge st') = HedgeService.positions (hedge st) /\
  HedgeService.orders (hedge st') = HedgeService.orders (hedge st) /\
  HedgeService.rateLimiter (hedge st')
    = HedgeService.rateLimiter (hedge st) /\
  intervals st' = intervals st /\
  if (n <? maxRetries (config st))%Z then
    retries st'
    = retries st
      ++ [mkRetry (atCatch clk + minCheckInterval (config st)) b loan
            (n + 1)]
  else
    retries st' = retries st /\
    last (HedgeService.events (hedge st'))
    = Some (EventTracker.mkEvent "credit_monitor" "check_failed" "error"
              (JS.Fin 0) b (atCatch clk)).
Proof.
  intros Hthr Hfail. unfold Monitoring.checkCreditScore, cacheGet.
  destruct (SmartCache.get _ _ _) as [lastScore c1].
  cbn [hedge withHedge HedgeService.cache HedgeService.withCache].
  destruct (SmartCache.set _ _ _ _ _ _) as [c|]; [|discriminate].
  cbn [config withHedge].
  assert (Qle_bool (creditScoreThreshold (config st))
            (getCurrentCreditScore b) = false) as ->.
  { destruct (Qle_bool _ _) eqn:E; [|reflexivity].
    apply Qle_bool_iff in E. unfold getCurrentCreditScore in E. lra. }
  cbn [negb]. unfold Monitoring.triggerHedge,
    HedgeContract.createHedgePosition, HedgeContract.submit.
  rewrite Hfail. cbn -[EventTracker.trackEvent].
  intros [= <- <-]. unfold checkFailed.
  cbn -[EventTracker.trackEvent].
  destruct (n <? maxRetries (config st))%Z;
    cbn -[EventTracker.trackEvent]; repeat split; try reflexivity.
  apply trackEvent_last.
Qed.

End MonitoringChecks.

Section MonitoringTraces.

Import CreditMonitor Monitoring MonitorTrace.

Variable stringifyLength : Q -> option Z.
Variable fuel : nat.

Local Abbreviation checkCreditScore :=
  (checkCreditScore stringifyLength fuel).
Local Abbreviation applyOp := (applyOp stringifyLength fuel).
Local Abbreviation runOps := (runOps stringifyLength fuel).











End MonitoringTraces.

Section MonitoringSamples.

Import CreditMonitor Monitoring.

Local Abbreviation checkCreditScore :=
  (checkCreditScore Sample.stringifyLength Sample.fuel).

(** Threshold 600, score 480: the ratio is 1 - 480 / 1200. *)
Lemma hedge_ratio_range_witness :
  exists r,
    calculateHedgeRatio Monitoring.defaultConfig 480 = JS.Fin r /\
    (r == 3 # 5)%Q.
Proof.
  destruct (hedge_ratio_range Monitoring.defaultConfig 480
              ltac:(vm_compute; reflexivity) ltac:(vm_compute; reflexivity))
    as (r & Hr & _ & _ & Heq & _).
  exists r. split; [exact Hr|]. rewrite Heq. vm_compute. reflexivity.
Defined.

(** The first check of the sample monitor, with a wallet that rejects the
    transaction: one retry is scheduled, ten seconds later. *)
Lemma failed_submission_is_retried_witness :
  exists st',
    checkCreditScore Scenario.refusingWallet Sample.fillingMarket
      Scenario.firstCheck "alice" 50000 0 Scenario.monitored
      = Some ([], st') /\
    length (submitted st') = 1%nat /\
    HedgeService.orders (hedge st') = [] /\
    retries st' = [mkRetry 70073 "alice" 50000 1].
Proof.
  eexists. split; [vm_compute; reflexivity|].
  edestruct (failed_submission_is_retried Sample.stringifyLength Sample.fuel
               Scenario.refusingWallet Sample.fillingMarket
               Scenario.firstCheck "alice" 50000 0 Scenario.monitored)
    as (_ & Hsub & _ & Hord & _ & _ & Hretry).
  - vm_compute; reflexivity.
  - intros payload. reflexivity.
  - vm_compute; reflexivity.
  - split; [rewrite Hsub; reflexivity|]. split; [exact Hord|exact Hretry].
Defined.


End MonitoringSamples.

(** ** BatchProcessor: the order of the queue and a batch that is served *)

Section QueueOrder.

Import BatchProcessor.

Context {P : Type}.
Implicit Types (h : list (BatchTransaction P)) (q : list nat) (st : t P).

Lemma before_spec h r r' a b :
  deref h r = Some a -> deref h r' = Some b ->
  before h r r' = false <-> inOrder b a.
Proof.
  intros Ha Hb. unfold before, compare, inOrder. rewrite Ha, Hb.
  destruct (priority a =? priority b)%Z eqn:Hp; cbn [negb].
  - apply Z.eqb_eq in Hp. rewrite Z.ltb_ge. lia.
  - apply Z.eqb_neq in Hp. rewrite Z.ltb_ge. lia.
Qed.

Lemma inOrder_trans (a b c : BatchTransaction P) :
  inOrder a b -> inOrder b c -> inOrder a c.
Proof. unfold inOrder. lia. Qed.

Lemma inOrder_total (a b : BatchTransaction P) : inOrder a b \/ inOrder b a.
Proof. unfold inOrder. lia. Qed.

Lemma insertSorted_perm h r q : insertSorted h r q ≡ₚ r :: q.
Proof.
  induction q as [|r' q IH]; cbn; [reflexivity|].
  destruct (before h r' r); [|reflexivity].
  rewrite IH. apply Permutation_swap.
Qed.

Lemma sortRefs_perm h q : sortRefs h q ≡ₚ q.
Proof.
  unfold sortRefs. induction q as [|r q IH]; cbn; [reflexivity|].
  rewrite insertSorted_perm. now rewrite IH.
Qed.

(** The transactions behind valid references. *)
Lemma omap_valid h q :
  Forall (fun r => is_Some (deref h r)) q ->
  Forall2 (fun r tx => deref h r = Some tx) q (omap (deref h) q).
Proof.
  induction 1 as [|r q [tx Hr] _ IH]; cbn; [constructor|].
  rewrite Hr. cbn. now constructor.
Qed.

Lemma insertSorted_valid h r q :
  is_Some (deref h r) -> Forall (fun r => is_Some (deref h r)) q ->
  Forall (fun r => is_Some (deref h r)) (insertSorted h r q).
Proof.
  intros Hr Hq. rewrite insertSorted_perm. now constructor.
Qed.

Lemma insertSorted_ordered h r q tx :
  deref h r = Some tx ->
  Forall (fun r => is_Some (deref h r)) q ->
  ordered (omap (deref h) q) ->
  ordered (omap (deref h) (insertSorted h r q)).
Proof.
  intros Hr. induction q as [|r' q IH]; intros Hq Hord.
  - cbn. rewrite Hr. cbn. auto.
  - apply Forall_cons in Hq as [[tx' Hr'] Hq].
    cbn [insertSorted]. destruct (before h r' r) eqn:Hb.
    + cbn [omap list_omap] in *. rewrite Hr' in *. cbn in Hord |- *.
      destruct Hord as [Hall Hord]. split; [|now apply IH].
      assert (Hperm : omap (deref h) (insertSorted h r q)
                      ≡ₚ tx :: omap (deref h) q).
      { rewrite insertSorted_perm. cbn. now rewrite Hr. }
      rewrite Hperm. constructor; [|exact Hall].
      destruct (inOrder_total tx' tx) as [H|H]; [exact H|].
      apply (before_spec h r' r tx' tx Hr' Hr) in H. congruence.
    + apply (before_spec h r' r tx' tx Hr' Hr) in Hb.
      cbn [omap list_omap] in *. rewrite Hr, Hr' in *. cbn in Hord |- *.
      destruct Hord as [Hall Hord]. split; [|auto].
      constructor; [exact Hb|].
      eapply Forall_impl; [exact Hall|]. intros c Hc.
      eapply inOrder_trans; eauto.
Qed.

Lemma sortRefs_valid h q :
  Forall (fun r => is_Some (deref h r)) q ->
  Forall (fun r => is_Some (deref h r)) (sortRefs h q).
Proof. intros H. now rewrite sortRefs_perm. Qed.

Lemma sortRefs_ordered h q :
  Forall (fun r => is_Some (deref h r)) q ->
  ordered (omap (deref h) (sortRefs h q)).
Proof.
  unfold sortRefs. induction 1 as [|r q [tx Hr] Hq IH]; cbn; [exact I|].
  eapply insertSorted_ordered; [exact Hr| |exact IH].
  now apply sortRefs_valid.
Qed.

Lemma deref_app h tx r :
  is_Some (deref h r) -> deref (h ++ [tx]) r = deref h r.
Proof.
  unfold deref. intros H. apply lookup_lt_is_Some in H.
  now rewrite lookup_app_l.
Qed.

(** X27.  The queue is kept in order.  The comparator of [sortQueue] puts
    a transaction of higher priority first and, among transactions of one
    priority, the one that was added earlier.  After [addTransaction] the
    queue holds the transactions it held and the new one, and every
    transaction stands in front of those only that it may stand in front
    of: [processBatch] takes the transactions of highest priority, oldest
    first.  The references of the queue are taken to point to
    transactions. *)
Theorem addTransaction_orders_the_queue txId (pl : P) prio now st :
  valid st ->
  valid (addTransaction txId pl prio now st) /\
  ordered (transactions (addTransaction txId pl prio now st)) /\
  transactions (addTransaction txId pl prio now st)
    ≡ₚ mkTx txId pl prio now 0 :: transactions st.
Proof.
  intros Hv. unfold valid, transactions, addTransaction, sortQueue.
  cbn [heap queue].
  set (tx := {| id := txId; payload := pl; priority := prio;
                timestamp := now; retries := 0 |}).
  assert (Hnew : deref (heap st ++ [tx]) (length (heap st)) = Some tx).
  { unfold deref. rewrite lookup_app_r by lia.
    now rewrite Nat.sub_diag. }
  assert (Hv' : Forall (fun r => is_Some (deref (heap st ++ [tx]) r))
                  (queue st ++ [length (heap st)])).
  { apply Forall_app. split.
    - eapply Forall_impl; [exact Hv|]. intros r Hr. cbv beta.
      now rewrite deref_app.
    - repeat constructor. rewrite Hnew. eauto. }
  split; [now apply sortRefs_valid|]. split; [now apply sortRefs_ordered|].
  rewrite sortRefs_perm, omap_app. cbn. rewrite Hnew. cbn.
  rewrite <- Permutation_cons_append. constructor.
  clear -Hv. induction Hv as [|r q Hr Hq IH]; cbn; [reflexivity|].
  rewrite deref_app by exact Hr. destruct (deref (heap st) r); cbn;
    [now rewrite IH|exact IH].
Qed.

End QueueOrder.

Section QueueServed.

Import BatchProcessor.

Context {P : Type}.
Variable submitTransaction : BatchTransaction P -> JS.outcome string.
Implicit Types (h : list (BatchTransaction P)) (q : list nat) (st : t P).

Local Abbreviation settle := (settle submitTransaction).
Local Abbreviation processBatch := (processBatch submitTransaction).
Local Abbreviation recorded := (recorded submitTransaction).

Lemma removeTransaction_head h r tx rest :
  deref h r = Some tx ->
  Forall (fun r => is_Some (deref h r)) rest ->
  id tx ∉ (id <$> omap (deref h) rest) ->
  List.filter (fun r => match deref h r with
                        | Some tx' => negb (String.eqb (id tx') (id tx))
                        | None => true
                        end) (r :: rest) = rest.
Proof.
  intros Hr Hv Hid. cbn. rewrite Hr, String.eqb_refl. cbn.
  induction Hv as [|r' rest [tx' Hr'] Hv IH]; cbn; [reflexivity|].
  cbn in Hid. rewrite Hr' in *. cbn in Hid.
  apply not_elem_of_cons in Hid as [Hne Hid].
  destruct (String.eqb (id tx') (id tx)) eqn:E.
  - apply String.eqb_eq in E. congruence.
  - cbn. now rewrite IH.
Qed.

Lemma settle_served now batch : forall tail results st,
  queue st = batch ++ tail ->
  valid st ->
  NoDup (id <$> transactions st) ->
  (forall tx, tx ∈ transactions st ->
     exists hash, submitTransaction tx = JS.Returned hash) ->
  foldl (fun acc r => settle now r acc) (results, st) batch
  = (results ++ (recorded <$> omap (deref (heap st)) batch),
     withQueue tail st).
Proof.
  induction batch as [|r batch IH]; intros tail results st Hq Hv Hnd Hok.
  - cbn. rewrite app_nil_r. cbn in Hq. unfold withQueue. rewrite <- Hq.
    now destruct st.
  - unfold valid, transactions in *. rewrite Hq in *. cbn in Hv, Hnd, Hok.
    apply Forall_cons in Hv as [[tx Hr] Hv]. rewrite Hr in *.
    cbn in Hnd, Hok. apply NoDup_cons in Hnd as [Hid Hnd].
    destruct (Hok tx ltac:(left)) as [hash Hhash].
    cbn [foldl]. unfold BatchProcessor.settle at 2. rewrite Hr, Hhash.
    unfold removeTransaction. rewrite Hq.
    change ((r :: batch) ++ tail) with (r :: (batch ++ tail)).
    rewrite (removeTransaction_head (heap st) r tx (batch ++ tail) Hr Hv Hid).
    rewrite (IH tail); cbn [heap queue]; auto.
    + cbn [omap list_omap]. rewrite Hr. cbn [fmap list_fmap].
      unfold recorded at 2. rewrite Hhash. rewrite <- app_assoc.
      reflexivity.
    + intros tx' Hin. apply Hok. now right.
Qed.

Lemma logSubmit_all now batch : forall st,
  foldl (fun s r => logSubmit now r s) st batch
  = {| heap := heap st; queue := queue st; processing := processing st;
       config := config st; timers := timers st; nextTick := nextTick st;
       submitted := submitted st ++ ((fun r => (now, r)) <$> batch) |}.
Proof.
  induction batch as [|r batch IH]; intros st; cbn.
  - rewrite app_nil_r. now destruct st.
  - rewrite IH. cbn. now rewrite <- app_assoc.
Qed.

(** X28.  A batch whose submissions all succeed leaves the queue.  When
    no batch is being processed, the ids of the queued transactions are
    pairwise different and the wallet accepts every queued transaction,
    [processBatch] submits the first [maxBatchSize] transactions of the
    queue, each once, records the hash of each, and removes exactly these
    from the queue; the rest of the queue stays in its order, no retry is
    scheduled and [processing] is false again. *)
Theorem served_batch_leaves_the_queue now st :
  processing st = false -> valid st ->
  NoDup (id <$> transactions st) ->
  (forall tx, tx ∈ transactions st ->
     exists hash, submitTransaction tx = JS.Returned hash) ->
  let batch := take (maxBatchSize (config st)) (queue st) in
  processBatch now st
  = (recorded <$> omap (deref (heap st)) batch,
     {| heap := heap st;
        queue := drop (maxBatchSize (config st)) (queue st);
        processing := false; config := config st; timers := timers st;
        nextTick := nextTick st;
        submitted := submitted st ++ ((fun r => (now, r)) <$> batch) |}).
Proof.
  intros Hidle Hv Hnd Hok batch. unfold BatchProcessor.processBatch.
  rewrite Hidle. cbn [orb]. case_bool_decide as Hempty.
  - subst batch. rewrite Hempty, take_nil, drop_nil. cbn.
    rewrite app_nil_r. f_equal. destruct st; cbn in *. congruence.
  - cbn [config setProcessing queue]. fold batch.
    rewrite logSubmit_all.
    rewrite (settle_served now batch
               (drop (maxBatchSize (config st)) (queue st))).
    + cbn. reflexivity.
    + cbn. subst batch. now rewrite take_drop.
    + exact Hv.
    + exact Hnd.
    + exact Hok.
Qed.

End QueueServed.

Section QueueSamples.

Import BatchProcessor.

(** The third transaction goes behind the two that are queued: its
    priority is the lower one, and among those of priority 0 it is the
    later one. *)
Lemma addTransaction_orders_the_queue_witness :
  ordered (transactions Scenario.threeQueued) /\
  id <$> transactions Scenario.threeQueued = ["tx_1_b"; "tx_0_a"; "tx_2_c"].
Proof.
  split; [|vm_compute; reflexivity].
  apply (addTransaction_orders_the_queue "tx_2_c" tt 0 2 Scenario.twoQueued).
  vm_compute. repeat constructor; eauto.
Defined.

(** The first two of the three are served; the third stays. *)
Lemma served_batch_leaves_the_queue_witness :
  fst <$> fst (processBatch Scenario.accepting 5000 Scenario.threeQueued)
    = ["tx_1_b"; "tx_0_a"] /\
  id <$> transactions
           (snd (processBatch Scenario.accepting 5000 Scenario.threeQueued))
    = ["tx_2_c"].
Proof.
  rewrite (served_batch_leaves_the_queue Scenario.accepting 5000
             Scenario.threeQueued
             ltac:(reflexivity)
             ltac:(vm_compute; repeat constructor; eauto)
             ltac:(apply (bool_decide_unpack _); vm_compute; exact I)
             ltac:(intros tx _; eexists; reflexivity)).
  split; vm_compute; reflexivity.
Defined.

End QueueSamples.

(** ** The batches of the assessment agent *)

Section SplitFacts.

Import AssessmentBatches.

Context {T : Type}.
Implicit Types (items : list T).

Lemma splitFrom_concat fuel : forall i items,
  (length items <= i + fuel * MAX_BATCH_SIZE)%nat ->
  concat (splitFrom fuel i items) = drop i items.
Proof.
  unfold MAX_BATCH_SIZE.
  induction fuel as [|fuel IH]; intros i items Hfuel; cbn [splitFrom].
  - cbn. symmetry. apply drop_ge. lia.
  - destruct (i <? length items)%nat eqn:Hi.
    + cbn [concat]. rewrite IH by (unfold MAX_BATCH_SIZE; lia).
      unfold MAX_BATCH_SIZE.
      rewrite <- (take_drop 10 (drop i items)) at 2.
      now rewrite drop_drop.
    + apply Nat.ltb_ge in Hi. cbn. symmetry. now apply drop_ge.
Qed.

Lemma splitFrom_lookup fuel : forall i items k,
  (length items <= i + fuel * MAX_BATCH_SIZE)%nat ->
  splitFrom fuel i items !! k
  = if (i + MAX_BATCH_SIZE * k <? length items)%nat
    then Some (take MAX_BATCH_SIZE (drop (i + MAX_BATCH_SIZE * k) items))
    else None.
Proof.
  unfold MAX_BATCH_SIZE.
  induction fuel as [|fuel IH]; intros i items k Hfuel; cbn [splitFrom].
  - assert ((i + 10 * k <? length items)%nat = false) as ->
      by (apply Nat.ltb_ge; lia). reflexivity.
  - destruct (i <? length items)%nat eqn:Hi.
    + destruct k as [|k].
      * cbn [lookup list_lookup]. rewrite Nat.mul_0_r, Nat.add_0_r, Hi.
        reflexivity.
      * cbn [lookup list_lookup].
        change (splitFrom fuel (i + MAX_BATCH_SIZE) items !! k)
          with (splitFrom fuel (i + 10) items !! k).
        rewrite IH by (unfold MAX_BATCH_SIZE; lia). unfold MAX_BATCH_SIZE.
        replace (i + 10 + 10 * k)%nat with (i + 10 * S k)%nat by lia.
        reflexivity.
    + apply Nat.ltb_ge in Hi.
      assert ((i + 10 * k <? length items)%nat = false) as ->
        by (apply Nat.ltb_ge; lia). reflexivity.
Qed.

Lemma splitFrom_length fuel : forall i items,
  (length items <= i + fuel * MAX_BATCH_SIZE)%nat ->
  length (splitFrom fuel i items)
  = ((length items - i + (MAX_BATCH_SIZE - 1)) / MAX_BATCH_SIZE)%nat.
Proof.
  unfold MAX_BATCH_SIZE.
  induction fuel as [|fuel IH]; intros i items Hfuel; cbn [splitFrom].
  - cbn [length]. symmetry. apply Nat.div_small. lia.
  - destruct (i <? length items)%nat eqn:Hi.
    + apply Nat.ltb_lt in Hi. cbn [length].
      rewrite IH by (unfold MAX_BATCH_SIZE; lia). unfold MAX_BATCH_SIZE.
      cbn [Nat.sub].
      destruct (decide (length items - i < 10)%nat) as [Hlt|Hge].
      * replace (length items - (i + 10))%nat with 0%nat by lia.
        cbn [Nat.add]. rewrite (Nat.div_small 9 10) by lia.
        apply (Nat.div_unique _ 10 1 (length items - i - 1)); lia.
      * replace (length items - i + 9)%nat
          with (length items - (i + 10) + 9 + 1 * 10)%nat by lia.
        rewrite Nat.div_add by lia. lia.
    + apply Nat.ltb_ge in Hi. cbn [length]. symmetry.
      apply Nat.div_small. lia.
Qed.

(** X29.  [splitIntoBatches] cuts the items into consecutive batches of
    ten.  The batches, put together, are the items, in order; there are
    as many batches as it takes, the number of items divided by ten and
    rounded up; batch [k] holds the items from index [10 * k] on; no batch
    is empty, none has more than ten items, and every batch but the last
    has exactly ten. *)
Theorem splitIntoBatches_spec items :
  concat (splitIntoBatches items) = items /\
  length (splitIntoBatches items)
    = ((length items + (MAX_BATCH_SIZE - 1)) / MAX_BATCH_SIZE)%nat /\
  (forall k batch,
     splitIntoBatches items !! k = Some batch ->
     batch = take MAX_BATCH_SIZE (drop (MAX_BATCH_SIZE * k) items) /\
     (1 <= length batch <= MAX_BATCH_SIZE)%nat /\
     (S k < length (splitIntoBatches items) ->
      length batch = MAX_BATCH_SIZE)).
Proof.
  assert (Hfuel : (length items <= 0 + length items * MAX_BATCH_SIZE)%nat)
    by (unfold MAX_BATCH_SIZE; lia).
  unfold splitIntoBatches. split; [|split].
  - now rewrite splitFrom_concat.
  - rewrite splitFrom_length by exact Hfuel. now rewrite Nat.sub_0_r.
  - intros k batch Hk. assert (Hk' := Hk).
    rewrite splitFrom_lookup in Hk by exact Hfuel. cbn [Nat.add] in Hk.
    destruct (_ <? _)%nat eqn:Hlt; [|discriminate].
    apply Nat.ltb_lt in Hlt. injection Hk as <-.
    split; [reflexivity|].
    rewrite length_take, length_drop. unfold MAX_BATCH_SIZE in *.
    split; [lia|]. intros Hnext.
    assert (Hsome : is_Some (splitFrom (length items) 0 items !! S k))
      by (apply lookup_lt_is_Some; exact Hnext).
    rewrite splitFrom_lookup in Hsome by exact Hfuel.
    unfold MAX_BATCH_SIZE in Hsome. cbn [Nat.add] in Hsome.
    destruct (10 * S k <? length items)%nat eqn:Hlt';
      [|now destruct Hsome].
    apply Nat.ltb_lt in Hlt'. lia.
Qed.

End SplitFacts.

Section ProcessorFacts.

Import AssessmentBatches.

Context {TransactionResult : Type}.
Variable moduleAddress : string.
Variable stringToBytes : string -> list N.
Variable submitTransaction : Payload -> JS.outcome string.
Variable waitForTransactionWithResult :
  string -> JS.outcome TransactionResult.

Local Abbreviation payloadOf := (payloadOf moduleAddress stringToBytes).
Local Abbreviation processBatches :=
  (processBatches moduleAddress stringToBytes submitTransaction
     waitForTransactionWithResult).
Local Abbreviation batchProcessAssessments :=
  (batchProcessAssessments moduleAddress stringToBytes submitTransaction
     waitForTransactionWithResult).
Local Abbreviation accepted :=
  (accepted moduleAddress stringToBytes submitTransaction
     waitForTransactionWithResult).
Local Abbreviation refused :=
  (refused moduleAddress stringToBytes submitTransaction
     waitForTransactionWithResult).

Lemma processBatches_accepted batches : forall results sent,
  Forall accepted batches ->
  exists rs,
    processBatches batches results sent
      = (JS.Returned (results ++ rs), sent ++ (payloadOf <$> batches)) /\
    length rs = length batches.
Proof.
  induction batches as [|b batches IH]; intros results sent Hall.
  - exists []. cbn. now rewrite !app_nil_r.
  - apply Forall_cons in Hall as [(txnHash & result & Hs & Hw) Hall].
    cbn [AssessmentBatches.processBatches]. rewrite Hs, Hw.
    destruct (IH (results ++ [result]) (sent ++ [payloadOf b]) Hall)
      as (rs & -> & Hlen).
    exists (result :: rs). cbn [fmap list_fmap length].
    rewrite <- !app_assoc. cbn. split; [reflexivity|]. now rewrite Hlen.
Qed.

Lemma processBatches_refused pre : forall b post e results sent,
  Forall accepted pre -> refused e b ->
  processBatches (pre ++ b :: post) results sent
  = (JS.Thrown e, sent ++ (payloadOf <$> (pre ++ [b]))).
Proof.
  induction pre as [|a pre IH]; intros b post e results sent Hall Hb.
  - cbn [app AssessmentBatches.processBatches fmap list_fmap].
    destruct Hb as [Hs|(txnHash & Hs & Hw)]; rewrite Hs; [reflexivity|].
    now rewrite Hw.
  - apply Forall_cons in Hall as [(txnHash & result & Hs & Hw) Hall].
    cbn [app AssessmentBatches.processBatches]. rewrite Hs, Hw.
    rewrite (IH b post e) by assumption.
    cbn [fmap list_fmap]. now rewrite <- app_assoc.
Qed.

Lemma addresses_concat (batches : list (list Assessment)) :
  concat (addresses <$> (payloadOf <$> batches))
  = borrowerAddress <$> concat batches.
Proof.
  induction batches as [|b batches IH]; cbn; [reflexivity|].
  now rewrite IH, fmap_app.
Qed.

(** X30.  [batchProcessAssessments] sends the batches one after the other
    and stops at the first one that fails.  When every batch is accepted,
    it returns one result per batch, and every assessment has been
    submitted once, in order.  When a batch is refused, on submission or
    on confirmation, the call throws what the client threw: the batches
    before it have been submitted and confirmed and stay so, their results
    are not returned, and the batches after it are not submitted. *)
Theorem batchProcessAssessments_outcome assessments :
  (Forall accepted (splitIntoBatches assessments) ->
   exists rs sent,
     batchProcessAssessments assessments = (JS.Returned rs, sent) /\
     length rs = length (splitIntoBatches assessments) /\
     sent = payloadOf <$> splitIntoBatches assessments /\
     concat (addresses <$> sent) = borrowerAddress <$> assessments) /\
  (forall pre b post e,
     splitIntoBatches assessments = pre ++ b :: post ->
     Forall accepted pre -> refused e b ->
     batchProcessAssessments assessments
     = (JS.Thrown e, payloadOf <$> (pre ++ [b]))).
Proof.
  unfold AssessmentBatches.batchProcessAssessments. split.
  - intros Hall.
    destruct (processBatches_accepted _ [] [] Hall) as (rs & Hrun & Hlen).
    exists rs, (payloadOf <$> splitIntoBatches assessments).
    split; [exact Hrun|]. split; [exact Hlen|]. split; [reflexivity|].
    rewrite addresses_concat. unfold splitIntoBatches.
    rewrite splitFrom_concat by (unfold MAX_BATCH_SIZE; lia).
    reflexivity.
  - intros pre b post e Hsplit Hall Hb. rewrite Hsplit.
    now rewrite (processBatches_refused pre b post e).
Qed.

End ProcessorFacts.
